(** * The onError scope-leak checkers

    A shallow embedding of the two line-oriented analyzers of the
    repository,

      - [client/check-onerror-params.py]  (module [CheckOnErrorParams]),
      - [client/find-id-error.py]         (module [FindIdError]),

    together with the small part of Python's [re] and [str] that they use.

    Text is a sequence of characters.  A character is one of the 256 code
    points below U+0100 ([ascii]); the classes [\s] and [\w] follow Python's
    tables for [str] patterns on that range.  Files holding code points
    above U+00FF are outside the model. *)

From Stdlib Require Import String Ascii List Arith ZArith Bool Sorted Lia.
Import ListNotations.

(** ** Text *)

Definition text := list ascii.

Definition str (s : string) : text := list_ascii_of_string s.
Arguments str s%_string.

Definition text_eqb (a b : text) : bool :=
  if list_eq_dec ascii_dec a b then true else false.

(** [v in names], for a Python list of strings. *)
Definition mem (v : text) (names : list text) : bool :=
  existsb (text_eqb v) names.

Definition newline : ascii := ascii_of_nat 10.

(** ** Character classes of Python's [re] on [str] patterns *)

Definition between (lo hi n : nat) : bool := (lo <=? n) && (n <=? hi).

(** [str.isspace] on one character, which is also [\s]. *)
Definition is_space (a : ascii) : bool :=
  let n := nat_of_ascii a in
  between 9 13 n || between 28 32 n || (n =? 133) || (n =? 160).

(** [\w]: alphanumeric or underscore. *)
Definition is_word (a : ascii) : bool :=
  let n := nat_of_ascii a in
  between 48 57 n || between 65 90 n || between 97 122 n || (n =? 95)
  || (n =? 170) || (n =? 178) || (n =? 179) || (n =? 181) || (n =? 185)
  || (n =? 186) || between 188 190 n || between 192 214 n
  || between 216 246 n || between 248 255 n.

(** A bracket class [[abc]] and its negation [[^abc]]. *)
Definition one_of (cs : string) (a : ascii) : bool :=
  existsb (Ascii.eqb a) (str cs).

Definition none_of (cs : string) (a : ascii) : bool := negb (one_of cs a).
Arguments one_of cs%_string a.
Arguments none_of cs%_string a.

(** ** Regular expressions

    The fragment of the syntax that the two scripts use.  Repetition is only
    ever applied to a character class there, so [Star] and [Plus] take a
    class. *)

Inductive regex : Type :=
| Lit (l : text)                (* literal characters *)
| Cls (c : ascii -> bool)       (* one character of a class *)
| Star (c : ascii -> bool)      (* greedy c* *)
| Plus (c : ascii -> bool)      (* greedy c+ *)
| Opt (r : regex)               (* greedy r? *)
| Seq (r1 r2 : regex)
| Alt (r1 r2 : regex)
| Group (r : regex)             (* ( r ), the capturing group *)
| WordB                         (* \b *)
| Bol                           (* ^ *)
| Eol.                          (* $ *)

Declare Scope regex_scope.
Delimit Scope regex_scope with re.
Bind Scope regex_scope with regex.
Notation "r1 ;; r2" := (Seq r1 r2)
  (at level 61, right associativity) : regex_scope.
Notation "r1 |! r2" := (Alt r1 r2)
  (at level 62, right associativity) : regex_scope.

Definition L (s : string) : regex := Lit (str s).
Arguments L s%_string.

(** A position of the matcher: the character just before it (none at the
    start of the string), the text still ahead, and what group 1 captured. *)
Record mstate : Type := MState {
  prev : option ascii;
  rest : text;
  grp : option text
}.

Fixpoint match_lit (l : text) (pv : option ascii) (s : text)
  : option (option ascii * text) :=
  match l with
  | [] => Some (pv, s)
  | a :: l' =>
      match s with
      | b :: s' => if Ascii.eqb a b then match_lit l' (Some b) s' else None
      | [] => None
      end
  end.

(** All the ways [c*] can match, longest first. *)
Fixpoint match_star (c : ascii -> bool) (pv : option ascii) (s : text)
  (g : option text) : list mstate :=
  match s with
  | a :: s' =>
      if c a then match_star c (Some a) s' g ++ [MState pv s g]
      else [MState pv s g]
  | [] => [MState pv s g]
  end.

Definition word_opt (o : option ascii) : bool :=
  match o with Some a => is_word a | None => false end.

(** The text consumed between an earlier position and a later one. *)
Definition consumed (m q : mstate) : text :=
  firstn (length (rest m) - length (rest q)) (rest m).

(** The positions at which a match of [r] starting at [m] can end, in the
    order in which a backtracking matcher tries them. *)
Fixpoint rmatch (r : regex) (m : mstate) : list mstate :=
  match r with
  | Lit l =>
      match match_lit l (prev m) (rest m) with
      | Some (pv, s) => [MState pv s (grp m)]
      | None => []
      end
  | Cls c =>
      match rest m with
      | a :: s => if c a then [MState (Some a) s (grp m)] else []
      | [] => []
      end
  | Star c => match_star c (prev m) (rest m) (grp m)
  | Plus c =>
      match rest m with
      | a :: s => if c a then match_star c (Some a) s (grp m) else []
      | [] => []
      end
  | Opt r' => rmatch r' m ++ [m]
  | Seq r1 r2 => flat_map (rmatch r2) (rmatch r1 m)
  | Alt r1 r2 => rmatch r1 m ++ rmatch r2 m
  | Group r' =>
      map (fun q => MState (prev q) (rest q) (Some (consumed m q)))
          (rmatch r' m)
  | WordB =>
      if xorb (word_opt (prev m)) (word_opt (hd_error (rest m)))
      then [m] else []
  | Bol => match prev m with None => [m] | Some _ => [] end
  | Eol =>
      match rest m with
      | [] => [m]
      | [a] => if Ascii.eqb a newline then [m] else []
      | _ => []
      end
  end.

(** [re.search]: the leftmost start, then the first way to match there. *)
Fixpoint search_from (r : regex) (pv : option ascii) (s : text)
  : option mstate :=
  match rmatch r (MState pv s None) with
  | q :: _ => Some q
  | [] =>
      match s with
      | a :: s' => search_from r (Some a) s'
      | [] => None
      end
  end.

Definition search (r : regex) (s : text) : option mstate :=
  search_from r None s.

(** Truth value of a match object. *)
Definition found (o : option mstate) : bool :=
  match o with Some _ => true | None => false end.

(** [match.group(1)]. *)
Definition group1 (q : mstate) : text :=
  match grp q with Some g => g | None => [] end.

(** [re.findall] for a pattern with one group: the captures of the
    successive non-overlapping matches, left to right.  [skip] counts the
    characters still covered by the match found last. *)
Fixpoint findall_from (r : regex) (skip : nat) (pv : option ascii) (s : text)
  : list text :=
  match skip with
  | S k =>
      match s with
      | a :: s' => findall_from r k (Some a) s'
      | [] => []
      end
  | 0 =>
      match rmatch r (MState pv s None) with
      | q :: _ =>
          group1 q ::
          match s with
          | a :: s' =>
              findall_from r (length s - length (rest q) - 1) (Some a) s'
          | [] => []
          end
      | [] =>
          match s with
          | a :: s' => findall_from r 0 (Some a) s'
          | [] => []
          end
      end
  end.

Definition findall (r : regex) (s : text) : list text :=
  findall_from r 0 None s.

(** ** The [str] methods used *)

Fixpoint lstrip (s : text) : text :=
  match s with
  | a :: s' => if is_space a then lstrip s' else s
  | [] => []
  end.

Definition strip (s : text) : text := rev (lstrip (rev (lstrip s))).

Fixpoint startswith (s p : text) : bool :=
  match p with
  | [] => true
  | a :: p' =>
      match s with
      | b :: s' => Ascii.eqb a b && startswith s' p'
      | [] => false
      end
  end.

(** [sub in s]. *)
Fixpoint contains (sub s : text) : bool :=
  startswith s sub ||
  match s with
  | _ :: s' => contains sub s'
  | [] => false
  end.

(** [content.split('\n')]: always at least one piece. *)
Fixpoint split_lines (s : text) : list text :=
  match s with
  | [] => [[]]
  | a :: s' =>
      if Ascii.eqb a newline then [] :: split_lines s'
      else match split_lines s' with
           | l :: ls => (a :: l) :: ls
           | [] => [[a]]
           end
  end.

(** [lines[j]]; every use below is guarded by [j < len(lines)]. *)
Definition line_at (lines : list text) (j : nat) : text := nth j lines [].

(** [open(path).read()]: the text of a file, or nothing when the file cannot
    be opened or decoded. *)
Definition filesystem := text -> option text.

(** [range(a, b)]. *)
Definition range (a b : nat) : list nat := seq a (b - a).

(** ** [client/check-onerror-params.py]: the generic discovery mode *)

Module CheckOnErrorParams.

(** One entry of [issues]. *)
Record issue : Type := Issue {
  file : text;
  line : nat;
  mutation : text;
  variables : list text;
  code : text
}.

(** [onError:\s*\(\s*error[^,)]*\)\s*=>] *)
Definition handler_re : regex :=
  (L "onError:" ;; Star is_space ;; L "(" ;; Star is_space ;; L "error" ;;
   Star (none_of ",)") ;; L ")" ;; Star is_space ;; L "=>")%re.

(** [const\s+(\w+)\s*=\s*useMutation] *)
Definition mutation_re : regex :=
  (L "const" ;; Plus is_space ;; Group (Plus is_word) ;; Star is_space ;;
   L "=" ;; Star is_space ;; L "useMutation")%re.

(** [^\s*\}\s*,?\s*$] *)
Definition closing_re : regex :=
  (Bol ;; Star is_space ;; L "}" ;; Star is_space ;; Opt (L ",") ;;
   Star is_space ;; Eol)%re.

(** [\$\{(\w+)\}] *)
Definition template_re : regex :=
  (L "${" ;; Group (Plus is_word) ;; L "}")%re.

(** [\b{var}\b\s*[.:[]] *)
Definition member_re (var : text) : regex :=
  (WordB ;; Lit var ;; WordB ;; Star is_space ;; Cls (one_of ".:["))%re.

(** [(error|const|let|var|function|return|if|for|while)\s+] followed by
    [var]. *)
Definition decl_re (var : text) : regex :=
  (Group (L "error" |! L "const" |! L "let" |! L "var" |! L "function" |!
          L "return" |! L "if" |! L "for" |! L "while") ;;
   Plus is_space ;; Lit var)%re.

Definition safe_names : list text :=
  map str ["error"; "id"; "data"; "variables"; "context"; "e"; "i"]%string.

Definition unknown : text := str "unknown".

(** The loop over [range(max(0, i-20), i)] that looks for the binding; it
    leaves at the first line that matches. *)
Fixpoint find_mutation (lines : list text) (js : list nat) : text :=
  match js with
  | [] => unknown
  | j :: js' =>
      match search mutation_re (line_at lines j) with
      | Some m => group1 m
      | None => find_mutation lines js'
      end
  end.

(** [i - 20] is cut at [0] by the subtraction of [nat], as by [max]. *)
Definition mutation_name (lines : list text) (i : nat) : text :=
  find_mutation lines (range (Nat.max 0 (i - 20)) i).

(** The test that leaves the body loop at line [j]. *)
Definition closes_handler (lines : list text) (j : nat) : bool :=
  found (search closing_re (line_at lines j)) &&
  (j + 1 <? length lines) &&
  (let next_line := strip (line_at lines (j + 1)) in
   startswith next_line (str "on") || text_eqb next_line (str "});")
   || text_eqb next_line (str "}")).

(** The three conditions under which [var] is kept. *)
Definition suspicious (check_line var : text) : bool :=
  negb (mem var safe_names) &&
  negb (found (search (member_re var) check_line)) &&
  negb (found (search (decl_re var) check_line)).

Definition add_var (check_line : text) (problem_vars : list text)
  (var : text) : list text :=
  if suspicious check_line var then
    if mem var problem_vars then problem_vars else problem_vars ++ [var]
  else problem_vars.

(** The inner loop over [template_vars]. *)
Definition scan_line (check_line : text) (problem_vars : list text)
  : list text :=
  fold_left (add_var check_line) (findall template_re check_line)
            problem_vars.

(** The loop over the lines after the handler. *)
Fixpoint scan_body (lines : list text) (js : list nat)
  (problem_vars : list text) : list text :=
  match js with
  | [] => problem_vars
  | j :: js' =>
      if closes_handler lines j then problem_vars
      else scan_body lines js' (scan_line (line_at lines j) problem_vars)
  end.

Definition body_window (lines : list text) (i : nat) : list nat :=
  range (i + 1) (Nat.min (i + 31) (length lines)).

Definition problem_vars (lines : list text) (i : nat) : list text :=
  scan_body lines (body_window lines i) [].

(** The lines whose placeholders the body loop reads: the window, up to
    the line at which the loop is left. *)
Fixpoint scanned (lines : list text) (js : list nat) : list nat :=
  match js with
  | [] => []
  | j :: js' =>
      if closes_handler lines j then [] else j :: scanned lines js'
  end.

Definition body_lines (lines : list text) (i : nat) : list nat :=
  scanned lines (body_window lines i).

Definition is_handler (lines : list text) (i : nat) : bool :=
  found (search handler_re (line_at lines i)).

(** What one turn of the [while] loop appends to [issues]. *)
Definition handler_issues (path : text) (lines : list text) (i : nat)
  : list issue :=
  if is_handler lines i then
    match problem_vars lines i with
    | [] => []
    | vars =>
        [Issue path (i + 1) (mutation_name lines i) vars
               (strip (line_at lines i))]
    end
  else [].

(** [while i < len(lines): ...; i += 1], with fuel: [None] when the fuel
    runs out before the loop is left. *)
Fixpoint while_loop (fuel : nat) (path : text) (lines : list text)
  (i : nat) (issues : list issue) : option (list issue) :=
  match fuel with
  | 0 => None
  | S fuel' =>
      if i <? length lines
      then while_loop fuel' path lines (i + 1)
                      (issues ++ handler_issues path lines i)
      else Some issues
  end.

Definition check_lines (path : text) (lines : list text)
  : option (list issue) :=
  while_loop (S (length lines)) path lines 0 [].

Definition check_file (fs : filesystem) (path : text)
  : option (list issue) :=
  match fs path with
  | None => Some []
  | Some content => check_lines path (split_lines content)
  end.

(** The loop of [main] over the paths that [rglob] gives. *)
Fixpoint collect (fs : filesystem) (paths : list text)
  (all_issues : list issue) : option (list issue) :=
  match paths with
  | [] => Some all_issues
  | file_path :: paths' =>
      if contains (str "node_modules") file_path
      then collect fs paths' all_issues
      else match check_file fs file_path with
           | Some issues => collect fs paths' (all_issues ++ issues)
           | None => None
           end
  end.

Definition main (fs : filesystem) (paths : list text)
  : option (list issue) :=
  collect fs paths [].

End CheckOnErrorParams.

(** ** [client/find-id-error.py]: the single-name mode *)

Module FindIdError.

(** One entry of [problems]. *)
Record problem : Type := Problem {
  file : text;
  line_num : nat;
  line : text;
  onError_line : nat
}.

(** [onError:\s*\(error[^)]*\)\s*=>] *)
Definition handler_re : regex :=
  (L "onError:" ;; Star is_space ;; L "(error" ;; Star (none_of ")") ;;
   L ")" ;; Star is_space ;; L "=>")%re.

(** [\bid\b] *)
Definition id_re : regex := (WordB ;; L "id" ;; WordB)%re.

(** [(error\.id|\.id|userId|eventId|meetingId|messageId|id:|id\?:|id,|{id|invalidateQueries)] *)
Definition exclude_re : regex :=
  Group (L "error.id" |! L ".id" |! L "userId" |! L "eventId" |!
         L "meetingId" |! L "messageId" |! L "id:" |! L "id?:" |!
         L "id," |! L "{id" |! L "invalidateQueries")%re.

(** [^\s*\},?\s*$] *)
Definition closing_re : regex :=
  (Bol ;; Star is_space ;; L "}" ;; Opt (L ",") ;; Star is_space ;; Eol)%re.

(** [^\s*const\s+\w+\s*=] *)
Definition const_re : regex :=
  (Bol ;; Star is_space ;; L "const" ;; Plus is_space ;; Plus is_word ;;
   Star is_space ;; L "=")%re.

Definition reports (check_line : text) : bool :=
  found (search id_re check_line) &&
  negb (found (search exclude_re check_line)).

Definition stops (check_line : text) : bool :=
  found (search closing_re check_line) ||
  found (search const_re check_line).

(** The loop over the lines after the handler; both [break]s end it. *)
Fixpoint scan_body (path : text) (lines : list text) (i : nat)
  (js : list nat) : list problem :=
  match js with
  | [] => []
  | j :: js' =>
      let check_line := line_at lines j in
      if reports check_line
      then [Problem path (j + 1) (strip check_line) (i + 1)]
      else if stops check_line then []
      else scan_body path lines i js'
  end.

Definition body_window (lines : list text) (i : nat) : list nat :=
  range (i + 1) (Nat.min (i + 21) (length lines)).

(** The lines that the body loop reads: the window, up to and including
    the line at which the loop is left. *)
Fixpoint scanned (lines : list text) (js : list nat) : list nat :=
  match js with
  | [] => []
  | j :: js' =>
      if reports (line_at lines j) || stops (line_at lines j)
      then [j] else j :: scanned lines js'
  end.

Definition body_lines (lines : list text) (i : nat) : list nat :=
  scanned lines (body_window lines i).

Definition is_handler (lines : list text) (i : nat) : bool :=
  found (search handler_re (line_at lines i)).

(** What one turn of the [while] loop appends to [problems]. *)
Definition handler_problems (path : text) (lines : list text) (i : nat)
  : list problem :=
  if is_handler lines i
  then scan_body path lines i (body_window lines i)
  else [].

Fixpoint while_loop (fuel : nat) (path : text) (lines : list text)
  (i : nat) (problems : list problem) : option (list problem) :=
  match fuel with
  | 0 => None
  | S fuel' =>
      if i <? length lines
      then while_loop fuel' path lines (i + 1)
                      (problems ++ handler_problems path lines i)
      else Some problems
  end.

Definition check_lines (path : text) (lines : list text)
  : option (list problem) :=
  while_loop (S (length lines)) path lines 0 [].

Definition check_file (fs : filesystem) (path : text)
  : option (list problem) :=
  match fs path with
  | None => Some []
  | Some content => check_lines path (split_lines content)
  end.

Fixpoint collect (fs : filesystem) (paths : list text)
  (all_problems : list problem) : option (list problem) :=
  match paths with
  | [] => Some all_problems
  | file_path :: paths' =>
      match check_file fs file_path with
      | Some problems => collect fs paths' (all_problems ++ problems)
      | None => None
      end
  end.

Definition main (fs : filesystem) (paths : list text)
  : option (list problem) :=
  collect fs paths [].

End FindIdError.

(** ** What the two import fixers share *)

(** [re.sub(r, repl, s)] for an expression that matches no empty text: every
    non-overlapping match, left to right, is replaced by what [repl] makes
    of it.  [skip] counts the characters still covered by the match found
    last. *)
Fixpoint sub_from (r : regex) (repl : mstate -> text) (skip : nat)
  (pv : option ascii) (s : text) : text :=
  match skip with
  | S k =>
      match s with
      | a :: s' => sub_from r repl k (Some a) s'
      | [] => []
      end
  | 0 =>
      match rmatch r (MState pv s None) with
      | q :: _ =>
          repl q ++
          match s with
          | a :: s' =>
              match length s - length (rest q) with
              | 0 => a :: sub_from r repl 0 (Some a) s'
              | S k => sub_from r repl k (Some a) s'
              end
          | [] => []
          end
      | [] =>
          match s with
          | a :: s' => a :: sub_from r repl 0 (Some a) s'
          | [] => []
          end
      end
  end.

Definition sub (r : regex) (repl : mstate -> text) (s : text) : text :=
  sub_from r repl 0 None s.

(** ['\n'.join(lines)]. *)
Fixpoint join_lines (lines : list text) : text :=
  match lines with
  | [] => []
  | [l] => l
  | l :: ls => l ++ newline :: join_lines ls
  end.

(** [lines.insert(k, x)] for [k >= 0]: past the end, [x] is appended. *)
Definition insert_at (k : nat) (x : text) (lines : list text) : list text :=
  firstn k lines ++ x :: skipn k lines.

(** [open(path, 'w').write(content)]; the write itself is taken to
    succeed. *)
Definition write (fs : filesystem) (path content : text) : filesystem :=
  fun p => if text_eqb p path then Some content else fs p.

(** [file_path.name]: what follows the last [/]. *)
Fixpoint path_name_from (acc p : text) : text :=
  match p with
  | [] => acc
  | a :: p' =>
      if Ascii.eqb a "/" then path_name_from [] p'
      else path_name_from (acc ++ [a]) p'
  end.

Definition path_name (p : text) : text := path_name_from [] p.

(** How a call ends: it returns, an exception leaves it, or the fuel of a
    [while] loop runs out. *)
Inductive run (A : Type) : Type :=
| Returned (a : A)
| Raised
| NoFuel.
Arguments Returned {A} a.
Arguments Raised {A}.
Arguments NoFuel {A}.

(** The text looked for by [in], and the line that is inserted. *)
Definition logger_import : text := str "import { logger } from '@/lib/logger'".

Definition logger_import_line : text :=
  str "import { logger } from '@/lib/logger';".

Definition is_import (line : text) : bool :=
  startswith (strip line) (str "import ").

(** ['{' in line and '}' not in line] *)
Definition opens_block (line : text) : bool :=
  contains (str "{") line && negb (contains (str "}") line).

(** ** [client/fix-imports.py] *)

Module FixImports.

(** The variables of the loop: [new_lines], [removed_logger_import] and
    [last_import_line]. *)
Record state : Type := State {
  new_lines : list text;
  removed_logger_import : bool;
  last_import_line : Z
}.

(** [while i < len(lines) and '}' not in lines[i]]: the lines of a
    multi-line import up to the one that holds the closing brace.  It gives
    back [i], [new_lines] and [removed_logger_import]. *)
Fixpoint read_block (fuel : nat) (lines : list text) (i : nat)
  (new_lines : list text) (removed : bool)
  : option (nat * list text * bool) :=
  match fuel with
  | 0 => None
  | S fuel' =>
      if (i <? length lines) && negb (contains (str "}") (line_at lines i))
      then
        if negb (contains logger_import (line_at lines i))
        then read_block fuel' lines (i + 1)
                        (new_lines ++ [line_at lines i]) removed
        else read_block fuel' lines (i + 1) new_lines true
      else Some (i, new_lines, removed)
  end.

(** The outer [while i < len(lines)]. *)
Fixpoint scan (fuel : nat) (lines : list text) (i : nat) (st : state)
  : option state :=
  match fuel with
  | 0 => None
  | S fuel' =>
      if i <? length lines then
        let line := line_at lines i in
        if contains logger_import line then
          scan fuel' lines (i + 1)
               (State (new_lines st) true (last_import_line st))
        else if is_import line then
          let last := Z.of_nat (length (new_lines st)) in
          if opens_block line then
            match read_block (length lines) lines (i + 1)
                             (new_lines st ++ [line])
                             (removed_logger_import st) with
            | Some (i', nl, removed) =>
                if i' <? length lines then
                  let nl' := nl ++ [line_at lines i'] in
                  scan fuel' lines (i' + 1)
                       (State nl' removed (Z.of_nat (length nl') - 1))
                else scan fuel' lines i' (State nl removed last)
            | None => None
            end
          else
            scan fuel' lines (i + 1)
                 (State (new_lines st ++ [line]) (removed_logger_import st)
                        last)
        else
          scan fuel' lines (i + 1)
               (State (new_lines st ++ [line]) (removed_logger_import st)
                      (last_import_line st))
      else Some st
  end.

(** The lines after the loop and the insertion. *)
Definition with_logger_import (content : text) (st : state) : list text :=
  if removed_logger_import st || negb (contains logger_import content) then
    if (0 <=? last_import_line st)%Z
    then insert_at (Z.to_nat (last_import_line st + 1)) logger_import_line
                   (new_lines st)
    else new_lines st
  else new_lines st.

(** [new_content], for a file that uses the logger. *)
Definition new_content (content : text) : option text :=
  let lines := split_lines content in
  match scan (S (length lines)) lines 0 (State [] false (-1)) with
  | Some st => Some (join_lines (with_logger_import content st))
  | None => None
  end.

Definition fix_logger_import (fs : filesystem) (file_path : text)
  : run (filesystem * bool) :=
  match fs file_path with
  | None => Raised
  | Some content =>
      if negb (contains (str "logger.") content) then Returned (fs, false)
      else
        match new_content content with
        | None => NoFuel
        | Some new =>
            if negb (text_eqb new content)
            then Returned (write fs file_path new, true)
            else Returned (fs, false)
        end
  end.

(** The loop of [main]: the file system and [fixed_count]. *)
Fixpoint fix_all (fs : filesystem) (paths : list text) (fixed_count : nat)
  : run (filesystem * nat) :=
  match paths with
  | [] => Returned (fs, fixed_count)
  | file_path :: paths' =>
      if text_eqb (path_name file_path) (str "logger.ts")
      then fix_all fs paths' fixed_count
      else
        match fix_logger_import fs file_path with
        | Returned (fs', true) => fix_all fs' paths' (fixed_count + 1)
        | Returned (fs', false) => fix_all fs' paths' fixed_count
        | Raised => Raised
        | NoFuel => NoFuel
        end
  end.

Definition main (fs : filesystem) (paths : list text)
  : run (filesystem * nat) :=
  fix_all fs paths 0.

End FixImports.

(** ** [client/fix-broken-imports.py] *)

Module FixBrokenImports.

(** The class of the two quote characters, single and double. *)
Definition quote (a : ascii) : bool :=
  Ascii.eqb a "'" || Ascii.eqb a (ascii_of_nat 34).

(** [import\s*\{\s*logger\s*\}\s*from\s*Q@/lib/logger Q;\s*\n], where [Q]
    stands for the class of the quote characters. *)
Definition stray_re : regex :=
  (L "import" ;; Star is_space ;; L "{" ;; Star is_space ;; L "logger" ;;
   Star is_space ;; L "}" ;; Star is_space ;; L "from" ;; Star is_space ;;
   Cls quote ;; L "@/lib/logger" ;; Cls quote ;; L ";" ;; Star is_space ;;
   Lit [newline])%re.

(** [(import\s*\{)\s*\n] followed by the stray import. *)
Definition pattern1 : regex :=
  (Group (L "import" ;; Star is_space ;; L "{") ;; Star is_space ;;
   Lit [newline] ;; stray_re)%re.

(** [(import\s+type\s*\{)\s*\n] followed by the stray import. *)
Definition pattern2 : regex :=
  (Group (L "import" ;; Plus is_space ;; L "type" ;; Star is_space ;; L "{") ;;
   Star is_space ;; Lit [newline] ;; stray_re)%re.

(** The replacement: group 1, then a newline. *)
Definition keep_opening (m : mstate) : text := group1 m ++ [newline].

(** [for j in range(i + 1, len(lines))]: the first line that holds [}]. *)
Fixpoint find_close (lines : list text) (js : list nat) : option nat :=
  match js with
  | [] => None
  | j :: js' =>
      if contains (str "}") (line_at lines j) then Some j
      else find_close lines js'
  end.

(** [for i, line in enumerate(lines)], as a loop over the indices. *)
Fixpoint last_import (lines : list text) (idxs : list nat)
  (last_import_idx : Z) : Z :=
  match idxs with
  | [] => last_import_idx
  | i :: idxs' =>
      let line := line_at lines i in
      if is_import line then
        if opens_block line then
          match find_close lines (range (i + 1) (length lines)) with
          | Some j => last_import lines idxs' (Z.of_nat j)
          | None => last_import lines idxs' (Z.of_nat i)
          end
        else last_import lines idxs' (Z.of_nat i)
      else last_import lines idxs' last_import_idx
  end.

(** The two substitutions. *)
Definition unbreak (content : text) : text :=
  sub pattern2 keep_opening (sub pattern1 keep_opening content).

(** The insertion, on the content that the substitutions left. *)
Definition add_import (content : text) : text :=
  if contains (str "logger.") content && negb (contains logger_import content)
  then
    let lines := split_lines content in
    let last_import_idx := last_import lines (range 0 (length lines)) (-1) in
    if (0 <=? last_import_idx)%Z
    then join_lines (insert_at (Z.to_nat (last_import_idx + 1))
                               logger_import_line lines)
    else content
  else content.

Definition fix_content (content : text) : text :=
  add_import (unbreak content).

Definition fix_file (fs : filesystem) (file_path : text)
  : run (filesystem * bool) :=
  match fs file_path with
  | None => Raised
  | Some original_content =>
      let content := fix_content original_content in
      if negb (text_eqb content original_content)
      then Returned (write fs file_path content, true)
      else Returned (fs, false)
  end.

(** The loop of [main]; an exception of [fix_file] is caught and the loop
    goes on. *)
Fixpoint fix_all (fs : filesystem) (paths : list text) (fixed_count : nat)
  : filesystem * nat :=
  match paths with
  | [] => (fs, fixed_count)
  | file_path :: paths' =>
      if text_eqb (path_name file_path) (str "logger.ts")
      then fix_all fs paths' fixed_count
      else
        match fix_file fs file_path with
        | Returned (fs', true) => fix_all fs' paths' (fixed_count + 1)
        | Returned (fs', false) => fix_all fs' paths' fixed_count
        | Raised | NoFuel => fix_all fs paths' fixed_count
        end
  end.

Definition main (fs : filesystem) (paths : list text) : filesystem * nat :=
  fix_all fs paths 0.

End FixBrokenImports.

Module G := CheckOnErrorParams.
Module F := FindIdError.

(** ** Definitions used to state the properties *)

(** The character just before the position reached after reading [a]. *)
Definition prev_after (pv : option ascii) (a : text) : option ascii :=
  fold_left (fun _ c => Some c) a pv.

(** Every character that [r] can consume satisfies [P]. *)
Fixpoint only (P : ascii -> Prop) (r : regex) : Prop :=
  match r with
  | Lit l => Forall P l
  | Cls c | Star c | Plus c => forall a, c a = true -> P a
  | Opt r' | Group r' => only P r'
  | Seq r1 r2 | Alt r1 r2 => only P r1 /\ only P r2
  | WordB | Bol | Eol => True
  end.

Definition dollar : ascii := ascii_of_nat 36.

(** The expression ends with [$]. *)
Fixpoint ends_eol (r : regex) : bool :=
  match r with
  | Eol => true
  | Seq _ r2 => ends_eol r2
  | _ => false
  end.

(** Two files hold the same lines at the indices from [lo] to [hi] (and
    both end before an index, or neither does). *)
Definition agree (lo hi : nat) (lines lines' : list text) : Prop :=
  forall j, lo <= j <= hi -> nth_error lines j = nth_error lines' j.

(** ** Files used as examples *)

(** A handler followed by forty lines, none of which closes it. *)
Definition oversized : list text :=
  str "  onError: (error) => {" :: repeat (str "    report(`${leak}`);") 40.

(** A file system with one readable file. *)
Definition one_file_fs : filesystem :=
  fun path =>
    if text_eqb path (str "src/a.tsx")
    then Some (str "  onError: (error) => {
    toast(`${leak}`);
  }")
    else None.

(** The end-to-end scenario: a binding, its handler, and a [toast] call that
    interpolates [id]. *)
Definition toast_scenario : list text :=
  map str ["const m = useMutation({";
           "  onError: (error) => {";
           "    toast(`Failed ${id}`);";
           "  }";
           "});"]%string.

(** The same file with a name that is not in the allowlist. *)
Definition toast_item_scenario : list text :=
  map str ["const m = useMutation({";
           "  onError: (error) => {";
           "    toast(`Failed ${itemId}`);";
           "  }";
           "});"]%string.

(** Two bindings within twenty lines of one handler. *)
Definition two_mutations : list text :=
  map str ["const createItem = useMutation({";
           "  mutationFn: create,";
           "});";
           "const deleteItem = useMutation({";
           "  mutationFn: remove,";
           "  onError: (error) => {";
           "    toast(`Could not delete ${itemName}`);";
           "  },";
           "});"]%string.

(** A handler whose body names a leaked identifier on each of two lines. *)
Definition two_leaks : list text :=
  map str ["const save = useMutation({";
           "  onError: (error) => {";
           "    log(`${first}`);";
           "    toast(`${second} and ${first}`);";
           "  },";
           "});"]%string.

(** From the words of the specification: the owner is looked for going
    backward from the handler line, over at most [window] lines, and the
    first binding met wins. *)
Fixpoint nearest_binding_spec (lines : list text) (i window : nat) : text :=
  match window, i with
  | S w, S i' =>
      match search CheckOnErrorParams.mutation_re (line_at lines i') with
      | Some m => group1 m
      | None => nearest_binding_spec lines i' w
      end
  | _, _ => CheckOnErrorParams.unknown
  end.

(** From the words of the specification: the line number [n] (counted from
    one) lies in the body of some handler of the file, after the signature
    line and inside the forward window. *)
Definition inside_some_body (lines : list text) (n : nat) : Prop :=
  exists i j,
    CheckOnErrorParams.is_handler lines i = true /\
    In j (CheckOnErrorParams.body_window lines i) /\ n = j + 1.

(** The identifiers of [xs] without repetition, each at its first place. *)
Definition first_seen_into (acc xs : list text) : list text :=
  fold_left (fun acc x => if mem x acc then acc else acc ++ [x]) xs acc.

Definition first_seen (xs : list text) : list text := first_seen_into [] xs.

(** The identifiers of the placeholders of a line that pass the three
    filters. *)
Definition survivors (check_line : text) : list text :=
  filter (CheckOnErrorParams.suspicious check_line)
         (findall CheckOnErrorParams.template_re check_line).

(** A line made of a closing brace, optionally followed by a comma, with
    white space anywhere around them. *)
Definition brace_only (l : text) : Prop :=
  exists w1 w2 w3 c,
    l = w1 ++ str "}" ++ w2 ++ c ++ w3 /\
    forallb is_space w1 = true /\ forallb is_space w2 = true /\
    forallb is_space w3 = true /\ (c = [] \/ c = str ",").

(** The test of the generic mode on the line that follows a closing line. *)
Definition starts_next_property (next_line : text) : Prop :=
  startswith next_line (str "on") = true \/ next_line = str "});" \/
  next_line = str "}".

Definition is_blank (l : text) : bool := forallb is_space l.

(** From the words of the specification: the first line that is not blank
    among [ls]. *)
Fixpoint next_nonblank (ls : list text) : option text :=
  match ls with
  | [] => None
  | l :: ls' => if is_blank l then next_nonblank ls' else Some l
  end.

(** From the words of the specification: a closing line ends the body when
    the following non-blank line starts a new property or closes the
    call. *)
Definition closes_handler_spec (lines : list text) (j : nat) : bool :=
  found (search CheckOnErrorParams.closing_re (line_at lines j)) &&
  match next_nonblank (skipn (j + 1) lines) with
  | Some l =>
      let next_line := strip l in
      startswith next_line (str "on") || text_eqb next_line (str "});")
      || text_eqb next_line (str "}")
  | None => false
  end.

(** A closing line, a blank line, then the next property. *)
Definition blank_after_brace : list text :=
  map str ["const m = useMutation({";
           "  onError: (error) => {";
           "    console.log(error);";
           "  },";
           " ";
           "  onSuccess: () => {";
           "    toast(`Saved ${savedName}`);";
           "  },";
           "});"]%string.

(** An occurrence of the word [id] in [l], between [a] and [b]: what
    [\bid\b] matches. *)
Definition id_occurrence (l a b : text) : Prop :=
  l = a ++ str "id" ++ b /\
  word_opt (prev_after None a) = false /\ word_opt (hd_error b) = false.

(** The occurrence between [a] and [b] is the name of a placeholder
    [${id}]. *)
Definition in_placeholder (a b : text) : Prop :=
  (exists a', a = a' ++ str "${") /\ (exists b', b = str "}" ++ b').

Definition every_id_in_placeholder (l : text) : Prop :=
  forall a b, id_occurrence l a b -> in_placeholder a b.

(** The test that ends the body loop of the single-name mode at line [j]. *)
Definition ends_scan (lines : list text) (j : nat) : bool :=
  FindIdError.reports (line_at lines j) || FindIdError.stops (line_at lines j).

(** The characters of a line that the closing patterns match. *)
Definition brace_char (a : ascii) : Prop :=
  is_space a = true \/ a = "}"%char \/ a = ","%char.

(** A handler whose body uses [id] inside a placeholder first, then bare. *)
Definition bare_id_file : list text :=
  map str ["  onError: (error) => {";
           "    log(`${id}`);";
           "    remove(id);";
           "  }"]%string.

(** A line without a line break. *)
Definition one_line (l : text) : Prop := ~ In newline l.

(** The lines of a file from index [i] up to, and not including, [i']. *)
Definition slice (lines : list text) (i i' : nat) : list text :=
  map (line_at lines) (range i i').

(** The lines that are not the logger import. *)
Definition other_lines (lines : list text) : list text :=
  filter (fun l => negb (contains logger_import l)) lines.

(** A multi-line import into which the logger import was put. *)
Definition broken_import_file : text :=
  str "import {
import { logger } from '@/lib/logger';
  Foo,
} from './foo';
logger.info(Foo);".

(** A file whose only import is the logger import. *)
Definition only_logger_import_file : text :=
  str "import { logger } from '@/lib/logger';
logger.info(1);".

(** The expression cannot match without reading the literal [l]. *)
Fixpoint mentions (l : text) (r : regex) : bool :=
  match r with
  | Lit l' => text_eqb l l'
  | Seq r1 r2 => mentions l r1 || mentions l r2
  | Group r' => mentions l r'
  | _ => false
  end.

(** The line at index [k] starts an import or holds a closing brace. *)
Definition import_or_close (lines : list text) (k : nat) : Prop :=
  is_import (line_at lines k) = true \/
  contains (str "}") (line_at lines k) = true.

(** A file system whose one file uses the logger without importing it. *)
Definition uses_logger_fs : filesystem :=
  fun path =>
    if text_eqb path (str "src/b.ts")
    then Some (str "import { b } from './b';
logger.info(b);")
    else None.

(** ** The loop of [fix-imports.py] in closed form

    Where the loop is: between imports, or inside a multi-line import. *)
Inductive mode : Type := Top | Block.

Definition has_brace (l : text) : bool := contains (str "}") l.

Definition is_logger (l : text) : bool := contains logger_import l.

(** The lines that the loop keeps, when it reads [ls] from [m]. *)
Fixpoint kept (m : mode) (ls : list text) : list text :=
  match ls with
  | [] => []
  | l :: ls' =>
      match m with
      | Top =>
          if is_logger l then kept Top ls'
          else if is_import l && opens_block l then l :: kept Block ls'
          else l :: kept Top ls'
      | Block =>
          if has_brace l then l :: kept Top ls' else l :: kept Block ls'
      end
  end.

(** Whether the loop passes over a logger import. *)
Fixpoint removes (m : mode) (ls : list text) : bool :=
  match ls with
  | [] => false
  | l :: ls' =>
      match m with
      | Top =>
          if is_logger l then true
          else if is_import l && opens_block l then removes Block ls'
          else removes Top ls'
      | Block =>
          if has_brace l then removes Top ls' else removes Block ls'
      end
  end.

Definition after (o : option nat) : option nat :=
  match o with Some j => Some (S j) | None => Some 0 end.

(** The place, among the lines kept, of the line that [last_import_line]
    names in the end, when it is set while [ls] is read. *)
Fixpoint last_off (m : mode) (ls : list text) : option nat :=
  match ls with
  | [] => None
  | l :: ls' =>
      match m with
      | Top =>
          if is_logger l then last_off Top ls'
          else if is_import l then
            if opens_block l then after (last_off Block ls')
            else after (last_off Top ls')
          else option_map S (last_off Top ls')
      | Block =>
          if has_brace l then after (last_off Top ls')
          else option_map S (last_off Block ls')
      end
  end.

(** The state in which the loop ends, when it reads [ls] from [m] in the
    state [st]. *)
Definition finish (m : mode) (ls : list text) (st : FixImports.state)
  : FixImports.state :=
  FixImports.State
    (FixImports.new_lines st ++ kept m ls)
    (FixImports.removed_logger_import st || removes m ls)
    (match last_off m ls with
     | Some j => Z.of_nat (length (FixImports.new_lines st) + j)
     | None => FixImports.last_import_line st
     end).

(** The lines of the new content, in closed form. *)
Definition fixed_lines (content : text) : list text :=
  let lines := split_lines content in
  if removes Top lines || negb (contains logger_import content) then
    match last_off Top lines with
    | Some j => insert_at (j + 1) logger_import_line (kept Top lines)
    | None => kept Top lines
    end
  else kept Top lines.

(** Reading again the lines kept from [ls], with the logger import put after
    the line at place [j]: either the logger import is passed over and all
    is as before, or every line is kept. *)
Definition reread_ok (m : mode) (ls : list text) (j : nat) : Prop :=
  let ins := insert_at (j + 1) logger_import_line (kept m ls) in
  (kept m ins = kept m ls /\ removes m ins = true /\
   last_off m ins = Some j) \/
  (kept m ins = ins /\ removes m ins = false).

(** [s] is [t] with some characters left out. *)
Inductive subseq : text -> text -> Prop :=
| subseq_nil : subseq [] []
| subseq_skip (a : ascii) (s t : text) : subseq s t -> subseq s (a :: t)
| subseq_keep (a : ascii) (s t : text) :
    subseq s t -> subseq (a :: s) (a :: t).

(** The expression has no group. *)
Fixpoint group_free (r : regex) : bool :=
  match r with
  | Group _ => false
  | Opt r' => group_free r'
  | Seq r1 r2 | Alt r1 r2 => group_free r1 && group_free r2
  | _ => true
  end.

(** From the words of the claim: the occurrence between [a] and [b] lies
    inside a placeholder: an opening [${] stands before it with no closing
    brace in between, and a closing brace follows it. *)
Definition within_placeholder (a b : text) : Prop :=
  exists a1 a2 b1 b2,
    a = a1 ++ str "${" ++ a2 /\ ~ In "}"%char a2 /\
    b = b1 ++ str "}" ++ b2.

(** A handler whose body interpolates [id] with spaces around it. *)
Definition spaced_id_file : list text :=
  map str ["  onError: (error) => {";
           "    toast(`Failed ${ id }`);";
           "  }"]%string.

(** * Properties *)

(** ** The [while] loops *)

Lemma range_cons (a b : nat) : a < b -> range a b = a :: range (a + 1) b.
Proof.
  intros H. unfold range.
  replace (b - a) with (S (b - (a + 1))) by lia.
  simpl. now rewrite Nat.add_1_r.
Qed.

Lemma range_nil (a b : nat) : b <= a -> range a b = [].
Proof.
  intros H. unfold range. now replace (b - a) with 0 by lia.
Qed.

Lemma range_bounds (a b j : nat) : In j (range a b) <-> a <= j < b.
Proof. unfold range. rewrite in_seq. lia. Qed.

Lemma G_while_loop_runs (path : text) (lines : list text) :
  forall fuel i issues,
    length lines - i < fuel ->
    G.while_loop fuel path lines i issues =
    Some (issues ++ flat_map (G.handler_issues path lines)
                             (range i (length lines))).
Proof.
  induction fuel as [|fuel IH]; intros i issues Hfuel; [lia|].
  simpl. destruct (i <? length lines) eqn:Hi.
  - apply Nat.ltb_lt in Hi. rewrite IH by lia.
    rewrite (range_cons _ _ Hi). simpl. now rewrite app_assoc.
  - apply Nat.ltb_ge in Hi. rewrite (range_nil _ _ Hi). simpl.
    now rewrite app_nil_r.
Qed.

Lemma G_check_lines_eq (path : text) (lines : list text) :
  G.check_lines path lines =
  Some (flat_map (G.handler_issues path lines) (range 0 (length lines))).
Proof.
  unfold G.check_lines. rewrite G_while_loop_runs by lia. reflexivity.
Qed.

Lemma F_while_loop_runs (path : text) (lines : list text) :
  forall fuel i problems,
    length lines - i < fuel ->
    F.while_loop fuel path lines i problems =
    Some (problems ++ flat_map (F.handler_problems path lines)
                               (range i (length lines))).
Proof.
  induction fuel as [|fuel IH]; intros i problems Hfuel; [lia|].
  simpl. destruct (i <? length lines) eqn:Hi.
  - apply Nat.ltb_lt in Hi. rewrite IH by lia.
    rewrite (range_cons _ _ Hi). simpl. now rewrite app_assoc.
  - apply Nat.ltb_ge in Hi. rewrite (range_nil _ _ Hi). simpl.
    now rewrite app_nil_r.
Qed.

Lemma F_check_lines_eq (path : text) (lines : list text) :
  F.check_lines path lines =
  Some (flat_map (F.handler_problems path lines) (range 0 (length lines))).
Proof.
  unfold F.check_lines. rewrite F_while_loop_runs by lia. reflexivity.
Qed.

(** An issue of the result comes from one handler line. *)
Lemma G_issue_origin (path : text) (lines : list text) issues iss :
  G.check_lines path lines = Some issues ->
  In iss issues ->
  exists i, i < length lines /\ In iss (G.handler_issues path lines i).
Proof.
  rewrite G_check_lines_eq. intros [= <-] Hin.
  apply in_flat_map in Hin. destruct Hin as [i [Hi Hiss]].
  apply range_bounds in Hi. exists i. split; [lia | exact Hiss].
Qed.

Lemma F_problem_origin (path : text) (lines : list text) problems p :
  F.check_lines path lines = Some problems ->
  In p problems ->
  exists i, i < length lines /\ In p (F.handler_problems path lines i).
Proof.
  rewrite F_check_lines_eq. intros [= <-] Hin.
  apply in_flat_map in Hin. destruct Hin as [i [Hi Hp]].
  apply range_bounds in Hi. exists i. split; [lia | exact Hp].
Qed.

(** The body loop reads the placeholders of exactly the [scanned] lines. *)
Lemma G_scan_body_scanned (lines : list text) :
  forall js vars,
    G.scan_body lines js vars =
    fold_left (fun vs j => G.scan_line (line_at lines j) vs)
              (G.scanned lines js) vars.
Proof.
  induction js as [|j js IH]; intros vars; simpl; [reflexivity|].
  destruct (G.closes_handler lines j); simpl; [reflexivity | apply IH].
Qed.

Lemma G_scanned_prefix (lines : list text) :
  forall js, exists tl, js = G.scanned lines js ++ tl.
Proof.
  induction js as [|j js [tl IH]]; simpl.
  - now exists [].
  - destruct (G.closes_handler lines j).
    + now exists (j :: js).
    + exists tl. simpl. now rewrite <- IH.
Qed.

Lemma F_scanned_prefix (lines : list text) :
  forall js, exists tl, js = F.scanned lines js ++ tl.
Proof.
  induction js as [|j js [tl IH]]; simpl.
  - now exists [].
  - destruct (F.reports (line_at lines j) || F.stops (line_at lines j)).
    + now exists js.
    + exists tl. simpl. now rewrite <- IH.
Qed.

(** ** The matcher *)

Lemma match_lit_app (l : text) :
  forall pv s r, match_lit l pv s = Some r -> s = l ++ snd r.
Proof.
  induction l as [|a l IH]; intros pv s r; simpl.
  - now intros [= <-].
  - destruct s as [|b s]; [discriminate|].
    destruct (Ascii.eqb a b) eqn:E; [|discriminate].
    apply Ascii.eqb_eq in E. subst b. intros H.
    now rewrite (IH _ _ _ H) at 1.
Qed.

Lemma match_lit_ok (l : text) :
  forall pv s, match_lit l pv (l ++ s) = Some (prev_after pv l, s).
Proof.
  induction l as [|a l IH]; intros pv s; simpl; [reflexivity|].
  now rewrite Ascii.eqb_refl, IH.
Qed.

Lemma match_star_only (P : ascii -> Prop) (c : ascii -> bool) :
  (forall a, c a = true -> P a) ->
  forall s pv g q,
    In q (match_star c pv s g) ->
    exists w, s = w ++ rest q /\ Forall P w.
Proof.
  intros Hc. induction s as [|a s IH]; intros pv g q; simpl.
  - intros [<- | []]. now exists [].
  - destruct (c a) eqn:Ea.
    + intros Hin. apply in_app_or in Hin. destruct Hin as [Hin | [<- | []]].
      * destruct (IH _ _ _ Hin) as [w [Hs Hw]].
        exists (a :: w). split; [simpl; now rewrite <- Hs|].
        constructor; auto.
      * now exists [].
    + intros [<- | []]. now exists [].
Qed.

(** What a match consumes is a prefix of the text ahead, made of characters
    that the expression allows. *)
Lemma rmatch_only (P : ascii -> Prop) (r : regex) :
  only P r ->
  forall m q, In q (rmatch r m) -> exists w, rest m = w ++ rest q /\ Forall P w.
Proof.
  induction r as [l|c|c|c|r IH|r1 IH1 r2 IH2|r1 IH1 r2 IH2|r IH| | |];
    simpl; intros Ho m q Hin.
  - destruct (match_lit l (prev m) (rest m)) as [[pv s]|] eqn:E; [|easy].
    destruct Hin as [<- | []]. apply match_lit_app in E. simpl in *.
    now exists l.
  - destruct (rest m) as [|a s]; [easy|].
    destruct (c a) eqn:Ea; [|easy]. destruct Hin as [<- | []].
    exists [a]. split; [reflexivity|]. constructor; auto.
  - eapply match_star_only; eauto.
  - destruct (rest m) as [|a s]; [easy|].
    destruct (c a) eqn:Ea; [|easy].
    destruct (match_star_only P c Ho _ _ _ _ Hin) as [w [Hs Hw]].
    exists (a :: w). split; [simpl; now rewrite <- Hs|].
    constructor; auto.
  - apply in_app_or in Hin. destruct Hin as [Hin | [<- | []]].
    + now apply IH.
    + now exists [].
  - destruct Ho as [Ho1 Ho2]. apply in_flat_map in Hin.
    destruct Hin as [p [Hp Hq]].
    destruct (IH1 Ho1 _ _ Hp) as [w1 [Hs1 Hw1]].
    destruct (IH2 Ho2 _ _ Hq) as [w2 [Hs2 Hw2]].
    exists (w1 ++ w2). split.
    + now rewrite Hs1, Hs2, app_assoc.
    + now apply Forall_app.
  - destruct Ho as [Ho1 Ho2]. apply in_app_or in Hin.
    destruct Hin as [Hin | Hin]; [now apply IH1 | now apply IH2].
  - apply in_map_iff in Hin. destruct Hin as [p [<- Hp]]. simpl.
    now apply IH.
  - destruct (xorb _ _); [|easy]. destruct Hin as [<- | []]. now exists [].
  - destruct (prev m); [easy|]. destruct Hin as [<- | []]. now exists [].
  - destruct (rest m) as [|a [|b s]] eqn:E.
    + destruct Hin as [<- | []]. exists []. now rewrite E.
    + destruct (Ascii.eqb a newline); [|easy].
      destruct Hin as [<- | []]. exists []. now rewrite E.
    + easy.
Qed.

Lemma prev_after_snoc (pv : option ascii) (a : text) (c : ascii) :
  prev_after pv (a ++ [c]) = Some c.
Proof. unfold prev_after. now rewrite fold_left_app. Qed.

(** A result of [search] is a match at some position of the text. *)
Lemma search_from_sound (r : regex) :
  forall s pv q,
    search_from r pv s = Some q ->
    exists a b, s = a ++ b /\
                In q (rmatch r (MState (prev_after pv a) b None)).
Proof.
  induction s as [|c s IH]; intros pv q; simpl.
  - destruct (rmatch r (MState pv [] None)) as [|q' l] eqn:E; [easy|].
    intros [= <-]. exists [], []. split; [reflexivity|].
    simpl. rewrite E. now left.
  - destruct (rmatch r (MState pv (c :: s) None)) as [|q' l] eqn:E.
    + intros H. destruct (IH _ _ H) as [a [b [Hs Hin]]].
      exists (c :: a), b. split; [simpl; now rewrite Hs|]. exact Hin.
    + intros [= <-]. exists [], (c :: s). split; [reflexivity|].
      simpl. rewrite E. now left.
Qed.

(** A match anywhere in the text makes [search] succeed. *)
Lemma search_from_complete (r : regex) (b : text) :
  forall a pv,
    rmatch r (MState (prev_after pv a) b None) <> [] ->
    found (search_from r pv (a ++ b)) = true.
Proof.
  induction a as [|c a IH]; intros pv Hne; simpl in *.
  - destruct b as [|c b]; simpl;
      destruct (rmatch r _) eqn:E; try reflexivity; now elim Hne.
  - destruct (rmatch r (MState pv (c :: a ++ b) None)); [|reflexivity].
    now apply IH.
Qed.

(** An expression anchored by [^] matches at the start or not at all. *)
Lemma search_bol (r : regex) (s : text) (q : mstate) :
  search (Seq Bol r) s = Some q ->
  In q (rmatch r (MState None s None)).
Proof.
  intros H. apply search_from_sound in H.
  destruct H as [a [b [Hs Hin]]]. simpl in Hin.
  destruct (prev_after None a) eqn:Ep; [easy|].
  destruct a as [|c a _] using rev_ind.
  - simpl in Hs. subst s. simpl in Hin. now rewrite app_nil_r in Hin.
  - now rewrite prev_after_snoc in Ep.
Qed.

Lemma rmatch_ends_eol (r : regex) :
  ends_eol r = true ->
  forall m q, In q (rmatch r m) -> rest q = [] \/ rest q = [newline].
Proof.
  induction r as [l|c|c|c|r IH|r1 IH1 r2 IH2|r1 IH1 r2 IH2|r IH| | |];
    simpl; try discriminate; intros He m q Hin.
  - apply in_flat_map in Hin. destruct Hin as [p [_ Hq]]. eauto.
  - destruct (rest m) as [|a [|b s]] eqn:E.
    + destruct Hin as [<- | []]. now left.
    + destruct (Ascii.eqb a newline) eqn:Ea; [|easy].
      apply Ascii.eqb_eq in Ea. subst a.
      destruct Hin as [<- | []]. now right.
    + easy.
Qed.

(** A line matched by an anchored expression is made of the characters the
    expression allows, up to a final newline. *)
Lemma anchored_line_only (P : ascii -> Prop) (r : regex) (s : text) :
  only P r -> ends_eol r = true -> P newline ->
  found (search (Seq Bol r) s) = true ->
  Forall P s.
Proof.
  intros Ho He Hn Hf.
  destruct (search (Seq Bol r) s) as [q|] eqn:E; [|discriminate].
  apply search_bol in E.
  destruct (rmatch_only P r Ho _ _ E) as [w [Hs Hw]]. simpl in Hs.
  destruct (rmatch_ends_eol r He _ _ E) as [Hq | Hq]; rewrite Hq in Hs;
    subst s.
  - now rewrite app_nil_r.
  - apply Forall_app. split; [exact Hw|]. now constructor.
Qed.

Lemma brace_char_not_dollar (a : ascii) : brace_char a -> a <> dollar.
Proof.
  intros [H | [-> | ->]]; try discriminate.
  intros ->. discriminate.
Qed.

Lemma G_closing_brace_chars (s : text) :
  found (search G.closing_re s) = true -> Forall brace_char s.
Proof.
  unfold G.closing_re. apply anchored_line_only.
  - simpl. unfold brace_char. repeat split; intros; auto;
      repeat constructor; auto.
  - reflexivity.
  - now left.
Qed.

Lemma F_closing_brace_chars (s : text) :
  found (search F.closing_re s) = true -> Forall brace_char s.
Proof.
  unfold F.closing_re. apply anchored_line_only.
  - simpl. unfold brace_char. repeat split; intros; auto;
      repeat constructor; auto.
  - reflexivity.
  - now left.
Qed.

Lemma match_lit_head (a c : ascii) (l s : text) (pv : option ascii) :
  a <> c -> match_lit (a :: l) pv (c :: s) = None.
Proof.
  intros H. cbn [match_lit]. apply Ascii.eqb_neq in H. now rewrite H.
Qed.

Lemma rmatch_seq_lit_none (l : text) (r : regex) (m : mstate) :
  match_lit l (prev m) (rest m) = None -> rmatch (Seq (Lit l) r) m = [].
Proof. intros H. cbn [rmatch]. now rewrite H. Qed.

Lemma template_needs_dollar (pv : option ascii) (s : text) :
  hd_error s <> Some dollar ->
  rmatch G.template_re (MState pv s None) = [].
Proof.
  intros H. unfold G.template_re, L.
  change (str "${") with (dollar :: str "{").
  apply rmatch_seq_lit_none. cbn [prev rest].
  destruct s as [|c s]; [reflexivity|].
  apply match_lit_head. intros E. apply H. now rewrite E.
Qed.

Lemma findall_without_dollar (s : text) :
  Forall (fun a => a <> dollar) s ->
  forall skip pv, findall_from G.template_re skip pv s = [].
Proof.
  induction 1 as [|c s Hc Hs IH]; intros skip pv.
  - destruct skip; simpl; reflexivity.
  - destruct skip as [|k].
    + cbn [findall_from]. rewrite template_needs_dollar.
      * apply IH.
      * cbn [hd_error]. intros [= E]. now apply Hc.
    + simpl. apply IH.
Qed.

(** A line that the closing pattern matches holds no placeholder. *)
Lemma G_closing_no_placeholder (s : text) :
  found (search G.closing_re s) = true -> findall G.template_re s = [].
Proof.
  intros H. apply findall_without_dollar.
  eapply Forall_impl; [|apply G_closing_brace_chars, H].
  apply brace_char_not_dollar.
Qed.

(** ** What the loops read *)

Lemma line_at_nth_error (lines : list text) (j : nat) :
  line_at lines j = match nth_error lines j with Some l => l | None => [] end.
Proof.
  unfold line_at. revert j.
  induction lines as [|l lines IH]; intros [|j]; simpl; auto.
Qed.

Lemma agree_line_at (lo hi : nat) (lines lines' : list text) (j : nat) :
  agree lo hi lines lines' -> lo <= j <= hi ->
  line_at lines j = line_at lines' j.
Proof. intros Ha Hj. now rewrite !line_at_nth_error, (Ha j Hj). Qed.

Lemma agree_ltb (lo hi : nat) (lines lines' : list text) (j : nat) :
  agree lo hi lines lines' -> lo <= j <= hi ->
  (j <? length lines) = (j <? length lines').
Proof.
  intros Ha Hj. specialize (Ha j Hj).
  destruct (j <? length lines) eqn:E1, (j <? length lines') eqn:E2;
    try reflexivity.
  - apply Nat.ltb_lt in E1. apply Nat.ltb_ge in E2.
    apply nth_error_None in E2. apply nth_error_Some in E1. congruence.
  - apply Nat.ltb_lt in E2. apply Nat.ltb_ge in E1.
    apply nth_error_None in E1. apply nth_error_Some in E2. congruence.
Qed.

Lemma agree_window (lo hi : nat) (lines lines' : list text) (a w : nat) :
  agree lo hi lines lines' -> lo <= a -> a + w <= hi + 1 ->
  range a (Nat.min (a + w) (length lines)) =
  range a (Nat.min (a + w) (length lines')).
Proof.
  intros Ha Hlo Hhi. unfold range. f_equal.
  assert (H : forall j, lo <= j <= hi ->
                        (j < length lines <-> j < length lines')).
  { intros j Hj. rewrite <- !Nat.ltb_lt.
    now rewrite (agree_ltb _ _ _ _ j Ha Hj). }
  destruct (Nat.le_gt_cases (a + w) (length lines)) as [H1 | H1];
    destruct (Nat.le_gt_cases (a + w) (length lines')) as [H2 | H2];
    try lia.
  - destruct w as [|w]; [lia|].
    specialize (H (a + w)). lia.
  - destruct w as [|w]; [lia|].
    specialize (H (a + w)). lia.
  - destruct (Nat.le_gt_cases (length lines) a) as [H3 | H3];
      destruct (Nat.le_gt_cases (length lines') a) as [H4 | H4]; try lia.
    + specialize (H a). lia.
    + specialize (H a). lia.
    + pose proof (H (length lines)). pose proof (H (length lines')). lia.
Qed.

Lemma range_snoc (a b : nat) : a <= b -> range a (b + 1) = range a b ++ [b].
Proof.
  intros H. unfold range. replace (b + 1 - a) with (S (b - a)) by lia.
  rewrite seq_S. do 2 f_equal. lia.
Qed.

Lemma G_find_mutation_agree (lines lines' : list text) :
  forall js,
    (forall j, In j js -> line_at lines j = line_at lines' j) ->
    G.find_mutation lines js = G.find_mutation lines' js.
Proof.
  induction js as [|j js IH]; intros H; simpl; [reflexivity|].
  rewrite <- (H j) by now left.
  destruct (search G.mutation_re (line_at lines j)); [reflexivity|].
  apply IH. intros k Hk. apply H. now right.
Qed.

Lemma G_closes_handler_agree (lo hi : nat) (lines lines' : list text) j :
  agree lo hi lines lines' -> lo <= j -> j + 1 <= hi ->
  G.closes_handler lines j = G.closes_handler lines' j.
Proof.
  intros Ha H1 H2. unfold G.closes_handler.
  rewrite (agree_line_at _ _ _ _ j Ha) by lia.
  rewrite (agree_line_at _ _ _ _ (j + 1) Ha) by lia.
  now rewrite (agree_ltb _ _ _ _ (j + 1) Ha) by lia.
Qed.

Lemma G_scan_body_agree (lines lines' : list text) :
  forall js vars,
    (forall j, In j js ->
               line_at lines j = line_at lines' j /\
               G.closes_handler lines j = G.closes_handler lines' j) ->
    G.scan_body lines js vars = G.scan_body lines' js vars.
Proof.
  induction js as [|j js IH]; intros vars H; simpl; [reflexivity|].
  destruct (H j) as [Hl Hc]; [now left|]. rewrite <- Hc, <- Hl.
  destruct (G.closes_handler lines j); [reflexivity|].
  apply IH. intros k Hk. apply H. now right.
Qed.

Lemma G_scan_line_closing (s : text) (vars : list text) :
  found (search G.closing_re s) = true -> G.scan_line s vars = vars.
Proof.
  intros H. unfold G.scan_line. now rewrite G_closing_no_placeholder.
Qed.

(** A closing line at the end of the window adds nothing, whether or not
    the loop is left there. *)
Lemma G_scan_body_last_closing (lines : list text) (j : nat) :
  found (search G.closing_re (line_at lines j)) = true ->
  forall js vars,
    G.scan_body lines (js ++ [j]) vars = G.scan_body lines js vars.
Proof.
  intros Hc. induction js as [|k js IH]; intros vars; simpl.
  - destruct (G.closes_handler lines j); [reflexivity|].
    now apply G_scan_line_closing.
  - destruct (G.closes_handler lines k); [reflexivity | apply IH].
Qed.

Lemma G_closes_handler_closing (lines : list text) (j : nat) :
  found (search G.closing_re (line_at lines j)) = false ->
  G.closes_handler lines j = false.
Proof. intros H. unfold G.closes_handler. now rewrite H. Qed.

Lemma G_problem_vars_agree (lines lines' : list text) (i : nat) :
  agree (i - 20) (i + 30) lines lines' ->
  G.problem_vars lines i = G.problem_vars lines' i.
Proof.
  intros Ha. unfold G.problem_vars, G.body_window.
  replace (i + 31) with (i + 1 + 30) by lia.
  rewrite <- (agree_window _ _ _ _ (i + 1) 30 Ha) by lia.
  destruct (Nat.le_gt_cases (i + 1 + 30) (length lines)) as [Hn | Hn].
  - rewrite Nat.min_l by exact Hn.
    replace (i + 1 + 30) with (i + 30 + 1) by lia.
    rewrite range_snoc by lia.
    assert (Hfront : forall j, In j (range (i + 1) (i + 30)) ->
              line_at lines j = line_at lines' j /\
              G.closes_handler lines j = G.closes_handler lines' j).
    { intros j Hj. apply range_bounds in Hj. split.
      - apply (agree_line_at _ _ _ _ j Ha). lia.
      - apply (G_closes_handler_agree _ _ _ _ j Ha); lia. }
    assert (Hl : line_at lines (i + 30) = line_at lines' (i + 30)).
    { apply (agree_line_at _ _ _ _ (i + 30) Ha). lia. }
    destruct (found (search G.closing_re (line_at lines (i + 30)))) eqn:Ec.
    + rewrite G_scan_body_last_closing by exact Ec.
      rewrite G_scan_body_last_closing by (now rewrite <- Hl).
      now apply G_scan_body_agree.
    + apply G_scan_body_agree. intros j Hj. apply in_app_or in Hj.
      destruct Hj as [Hj | [<- | []]]; [now apply Hfront|].
      split; [exact Hl|].
      rewrite !G_closes_handler_closing; congruence.
  - rewrite Nat.min_r by lia.
    apply G_scan_body_agree. intros j Hj. apply range_bounds in Hj. split.
    + apply (agree_line_at _ _ _ _ j Ha). lia.
    + apply (G_closes_handler_agree _ _ _ _ j Ha); lia.
Qed.

(** The result for a handler line depends on the twenty lines before it and
    the thirty lines after it, and on nothing else of the file. *)
Lemma G_handler_issues_agree (path : text) (lines lines' : list text) i :
  agree (i - 20) (i + 30) lines lines' ->
  G.handler_issues path lines i = G.handler_issues path lines' i.
Proof.
  intros Ha. unfold G.handler_issues, G.is_handler, G.mutation_name.
  rewrite <- (agree_line_at _ _ _ _ i Ha) by lia.
  rewrite <- (G_problem_vars_agree _ _ _ Ha).
  rewrite (G_find_mutation_agree lines lines'); [reflexivity|].
  intros j Hj. apply range_bounds in Hj.
  apply (agree_line_at _ _ _ _ j Ha). lia.
Qed.

Lemma F_scan_body_agree (path : text) (lines lines' : list text) (i : nat) :
  forall js,
    (forall j, In j js -> line_at lines j = line_at lines' j) ->
    F.scan_body path lines i js = F.scan_body path lines' i js.
Proof.
  induction js as [|j js IH]; intros H; simpl; [reflexivity|].
  rewrite <- (H j) by now left.
  destruct (F.reports (line_at lines j)); [reflexivity|].
  destruct (F.stops (line_at lines j)); [reflexivity|].
  apply IH. intros k Hk. apply H. now right.
Qed.

Lemma F_handler_problems_agree (path : text) (lines lines' : list text) i :
  agree i (i + 20) lines lines' ->
  F.handler_problems path lines i = F.handler_problems path lines' i.
Proof.
  intros Ha. unfold F.handler_problems, F.is_handler, F.body_window.
  rewrite <- (agree_line_at _ _ _ _ i Ha) by lia.
  replace (i + 21) with (i + 1 + 20) by lia.
  rewrite <- (agree_window _ _ _ _ (i + 1) 20 Ha) by lia.
  destruct (found (search F.handler_re (line_at lines i))); [|reflexivity].
  apply F_scan_body_agree. intros j Hj. apply range_bounds in Hj.
  apply (agree_line_at _ _ _ _ j Ha). lia.
Qed.

Lemma G_scanned_incl (lines : list text) (js : list nat) (j : nat) :
  In j (G.scanned lines js) -> In j js.
Proof.
  intros H. destruct (G_scanned_prefix lines js) as [tl E].
  rewrite E. apply in_or_app. now left.
Qed.

Lemma F_scanned_incl (lines : list text) (js : list nat) (j : nat) :
  In j (F.scanned lines js) -> In j js.
Proof.
  intros H. destruct (F_scanned_prefix lines js) as [tl E].
  rewrite E. apply in_or_app. now left.
Qed.

Lemma G_scanned_length (lines : list text) (js : list nat) :
  length (G.scanned lines js) <= length js.
Proof.
  destruct (G_scanned_prefix lines js) as [tl E].
  rewrite E at 2. rewrite length_app. lia.
Qed.

Lemma F_scanned_length (lines : list text) (js : list nat) :
  length (F.scanned lines js) <= length js.
Proof.
  destruct (F_scanned_prefix lines js) as [tl E].
  rewrite E at 2. rewrite length_app. lia.
Qed.

Lemma G_scanned_all (lines : list text) :
  forall js,
    (forall j, In j js -> G.closes_handler lines j = false) ->
    G.scanned lines js = js.
Proof.
  induction js as [|j js IH]; intros H; simpl; [reflexivity|].
  rewrite (H j) by now left. f_equal. apply IH.
  intros k Hk. apply H. now right.
Qed.

Lemma F_scanned_all (lines : list text) :
  forall js,
    (forall j, In j js ->
               F.reports (line_at lines j) = false /\
               F.stops (line_at lines j) = false) ->
    F.scanned lines js = js.
Proof.
  induction js as [|j js IH]; intros H; simpl; [reflexivity|].
  destruct (H j) as [-> ->]; [now left|]. simpl. f_equal. apply IH.
  intros k Hk. apply H. now right.
Qed.

(** ** Termination and the bounded windows *)

(** C6.  For every file the analysis terminates in both modes: the [while]
    loop returns a result.  For a handler line [i], the owner lookup visits
    only lines among the twenty before [i]; the body loop of the generic
    mode reads at most thirty lines, all among the thirty after [i], and the
    body loop of the single-name mode at most twenty; when no line of the
    window is recognized as the end of the body, the loop reads the window
    to its edge and stops there.  The result for the handler is the same in
    any file with the same lines from [i - 20] to [i + 30]. *)
Theorem analysis_terminates_within_windows (path : text) (lines : list text) :
  (exists issues, G.check_lines path lines = Some issues) /\
  (exists problems, F.check_lines path lines = Some problems) /\
  forall i,
    (forall j, In j (range (Nat.max 0 (i - 20)) i) -> i - 20 <= j < i) /\
    length (range (Nat.max 0 (i - 20)) i) <= 20 /\
    (forall j, In j (G.body_lines lines i) ->
               i < j <= i + 30 /\ j < length lines) /\
    length (G.body_lines lines i) <= 30 /\
    (forall j, In j (F.body_lines lines i) ->
               i < j <= i + 20 /\ j < length lines) /\
    length (F.body_lines lines i) <= 20 /\
    ((forall j, In j (G.body_window lines i) ->
                G.closes_handler lines j = false) ->
     G.body_lines lines i = range (i + 1) (Nat.min (i + 31) (length lines))) /\
    ((forall j, In j (F.body_window lines i) ->
                F.reports (line_at lines j) = false /\
                F.stops (line_at lines j) = false) ->
     F.body_lines lines i = range (i + 1) (Nat.min (i + 21) (length lines))) /\
    (forall lines',
        agree (i - 20) (i + 30) lines lines' ->
        G.handler_issues path lines i = G.handler_issues path lines' i) /\
    (forall lines',
        agree i (i + 20) lines lines' ->
        F.handler_problems path lines i = F.handler_problems path lines' i).
Proof.
  split; [eexists; apply G_check_lines_eq|].
  split; [eexists; apply F_check_lines_eq|].
  intros i. repeat split.
  - apply range_bounds in H. lia.
  - apply range_bounds in H. lia.
  - unfold range. rewrite length_seq. lia.
  - apply G_scanned_incl, range_bounds in H. lia.
  - apply G_scanned_incl, range_bounds in H. lia.
  - apply G_scanned_incl, range_bounds in H. lia.
  - unfold G.body_lines. etransitivity; [apply G_scanned_length|].
    unfold G.body_window, range. rewrite length_seq. lia.
  - apply F_scanned_incl, range_bounds in H. lia.
  - apply F_scanned_incl, range_bounds in H. lia.
  - apply F_scanned_incl, range_bounds in H. lia.
  - unfold F.body_lines. etransitivity; [apply F_scanned_length|].
    unfold F.body_window, range. rewrite length_seq. lia.
  - intros H. now apply G_scanned_all.
  - intros H. now apply F_scanned_all.
  - intros lines'. apply G_handler_issues_agree.
  - intros lines'. apply F_handler_problems_agree.
Qed.

(** The oversized fixture: the body loop stops after thirty lines, and the
    check returns. *)
Example oversized_body_is_bounded :
  G.body_lines oversized 0 = range 1 31 /\
  F.body_lines oversized 0 = range 1 21 /\
  exists iss,
    G.check_lines (str "big.tsx") oversized = Some [iss] /\
    G.variables iss = [str "leak"] /\
    F.check_lines (str "big.tsx") oversized = Some [].
Proof.
  split; [vm_compute; reflexivity|].
  split; [vm_compute; reflexivity|].
  eexists. split; [vm_compute; reflexivity|].
  split; vm_compute; reflexivity.
Qed.

(** ** Unreadable files *)

Lemma G_collect_skip (fs : filesystem) (path : text) (after : list text) :
  fs path = None ->
  forall before all_issues,
    G.collect fs (before ++ path :: after) all_issues =
    G.collect fs (before ++ after) all_issues.
Proof.
  intros Hp. induction before as [|p before IH]; intros all_issues;
    cbn [app G.collect].
  - destruct (contains (str "node_modules") path); [reflexivity|].
    unfold G.check_file. rewrite Hp. now rewrite app_nil_r.
  - destruct (contains (str "node_modules") p); [apply IH|].
    destruct (G.check_file fs p); [apply IH | reflexivity].
Qed.

Lemma F_collect_skip (fs : filesystem) (path : text) (after : list text) :
  fs path = None ->
  forall before all_problems,
    F.collect fs (before ++ path :: after) all_problems =
    F.collect fs (before ++ after) all_problems.
Proof.
  intros Hp. induction before as [|p before IH]; intros all_problems;
    cbn [app F.collect].
  - unfold F.check_file. rewrite Hp. now rewrite app_nil_r.
  - destruct (F.check_file fs p); [apply IH | reflexivity].
Qed.

(** C9.  When a file cannot be read or decoded, the check of that file
    returns the empty list in both modes, and the run over all the files
    gives what it gives without that file: nothing is reported for it, and
    the files before and after it are analysed as usual. *)
Theorem unreadable_file_is_skipped (fs : filesystem) (path : text) :
  fs path = None ->
  G.check_file fs path = Some [] /\
  F.check_file fs path = Some [] /\
  (forall before after,
      G.main fs (before ++ path :: after) = G.main fs (before ++ after)) /\
  (forall before after,
      F.main fs (before ++ path :: after) = F.main fs (before ++ after)).
Proof.
  intros Hp. repeat split.
  - unfold G.check_file. now rewrite Hp.
  - unfold F.check_file. now rewrite Hp.
  - intros before after. now apply G_collect_skip.
  - intros before after. now apply F_collect_skip.
Qed.

Lemma unreadable_file_is_skipped_witness :
  one_file_fs (str "src/gone.tsx") = None /\
  G.check_file one_file_fs (str "src/gone.tsx") = Some [] /\
  F.check_file one_file_fs (str "src/gone.tsx") = Some [] /\
  (forall before after,
      G.main one_file_fs (before ++ str "src/gone.tsx" :: after) =
      G.main one_file_fs (before ++ after)) /\
  (forall before after,
      F.main one_file_fs (before ++ str "src/gone.tsx" :: after) =
      F.main one_file_fs (before ++ after)).
Proof.
  split; [reflexivity|].
  apply (unreadable_file_is_skipped one_file_fs (str "src/gone.tsx")).
  reflexivity.
Defined.

(** The readable file next to an unreadable one is still reported. *)
Example run_continues_after_unreadable_file :
  exists iss,
    G.main one_file_fs [str "src/gone.tsx"; str "src/a.tsx"] = Some [iss] /\
    G.file iss = str "src/a.tsx" /\ G.variables iss = [str "leak"].
Proof. eexists. repeat split; vm_compute; reflexivity. Qed.

(** ** The identifiers of a finding *)

Lemma text_eqb_eq (a b : text) : text_eqb a b = true <-> a = b.
Proof.
  unfold text_eqb. destruct (list_eq_dec ascii_dec a b); split; congruence.
Qed.

Lemma mem_In (v : text) (names : list text) :
  mem v names = true <-> In v names.
Proof.
  unfold mem. rewrite existsb_exists. split.
  - intros [x [Hx E]]. apply text_eqb_eq in E. now subst x.
  - intros H. exists v. split; [exact H | now apply text_eqb_eq].
Qed.

Lemma G_add_var_in (check_line : text) (vars : list text) (x v : text) :
  In v (G.add_var check_line vars x) ->
  In v vars \/ (v = x /\ G.suspicious check_line x = true).
Proof.
  unfold G.add_var. destruct (G.suspicious check_line x); [|now left].
  destruct (mem x vars); [now left|].
  intros H. apply in_app_or in H. destruct H as [H | [<- | []]]; auto.
Qed.

Lemma G_fold_add_var_in (check_line : text) (v : text) :
  forall xs vars,
    In v (fold_left (G.add_var check_line) xs vars) ->
    In v vars \/ (In v xs /\ G.suspicious check_line v = true).
Proof.
  induction xs as [|x xs IH]; intros vars; simpl; [now left|].
  intros H. destruct (IH _ H) as [H1 | [H1 H2]].
  - destruct (G_add_var_in _ _ _ _ H1) as [H3 | [-> H3]]; auto.
  - auto.
Qed.

Lemma G_scan_line_in (check_line : text) (vars : list text) (v : text) :
  In v (G.scan_line check_line vars) ->
  In v vars \/
  (In v (findall G.template_re check_line) /\
   G.suspicious check_line v = true).
Proof. apply G_fold_add_var_in. Qed.

(** Where an identifier of the result comes from. *)
Lemma G_scan_body_in (lines : list text) (v : text) :
  forall js vars,
    In v (G.scan_body lines js vars) ->
    In v vars \/
    exists j, In j (G.scanned lines js) /\
              In v (findall G.template_re (line_at lines j)) /\
              G.suspicious (line_at lines j) v = true.
Proof.
  induction js as [|j js IH]; intros vars; simpl; [now left|].
  destruct (G.closes_handler lines j); [now left|].
  intros H. destruct (IH _ H) as [H1 | [k [Hk1 Hk2]]].
  - destruct (G_scan_line_in _ _ _ H1) as [H2 | H2]; [now left|].
    right. exists j. split; [now left | exact H2].
  - right. exists k. split; [now right | exact Hk2].
Qed.

Lemma G_add_var_NoDup (check_line : text) (vars : list text) (x : text) :
  NoDup vars -> NoDup (G.add_var check_line vars x).
Proof.
  intros H. unfold G.add_var. destruct (G.suspicious check_line x); [|easy].
  destruct (mem x vars) eqn:E; [easy|].
  apply NoDup_app; [exact H | repeat constructor; easy |].
  intros y Hy [<- | []]. apply mem_In in Hy. congruence.
Qed.

Lemma G_scan_line_NoDup (check_line : text) (vars : list text) :
  NoDup vars -> NoDup (G.scan_line check_line vars).
Proof.
  unfold G.scan_line. generalize (findall G.template_re check_line).
  intros xs. revert vars. induction xs as [|x xs IH]; intros vars H; simpl.
  - exact H.
  - apply IH. now apply G_add_var_NoDup.
Qed.

Lemma G_scan_body_NoDup (lines : list text) :
  forall js vars, NoDup vars -> NoDup (G.scan_body lines js vars).
Proof.
  induction js as [|j js IH]; intros vars H; simpl; [exact H|].
  destruct (G.closes_handler lines j); [exact H|].
  apply IH. now apply G_scan_line_NoDup.
Qed.

Lemma G_suspicious_not_safe (check_line v : text) :
  G.suspicious check_line v = true -> ~ In v G.safe_names.
Proof.
  unfold G.suspicious. intros H Hin. apply mem_In in Hin.
  rewrite Hin in H. discriminate.
Qed.

(** An issue of a handler line: its fields. *)
Lemma G_handler_issues_inv (path : text) (lines : list text) i iss :
  In iss (G.handler_issues path lines i) ->
  G.is_handler lines i = true /\
  G.problem_vars lines i <> [] /\
  iss = G.Issue path (i + 1) (G.mutation_name lines i)
                (G.problem_vars lines i) (strip (line_at lines i)).
Proof.
  unfold G.handler_issues. destruct (G.is_handler lines i); [|easy].
  destruct (G.problem_vars lines i) as [|v vs] eqn:E; [easy|].
  intros [<- | []]. repeat split. discriminate.
Qed.

Lemma G_scan_line_safe (check_line : text) (vars : list text) :
  Forall (fun v => In v G.safe_names) (findall G.template_re check_line) ->
  G.scan_line check_line vars = vars.
Proof.
  unfold G.scan_line. generalize (findall G.template_re check_line).
  intros xs H. revert vars. induction H as [|x xs Hx Hxs IH]; intros vars.
  - reflexivity.
  - simpl. unfold G.add_var at 2. unfold G.suspicious.
    apply mem_In in Hx. rewrite Hx. simpl. apply IH.
Qed.

(** No identifier of the allowlist is listed in a finding. *)
Lemma G_safe_name_not_listed (path : text) (lines : list text)
  (issues : list G.issue) (iss : G.issue) (v : text) :
  G.check_lines path lines = Some issues ->
  In iss issues -> In v (G.variables iss) -> ~ In v G.safe_names.
Proof.
  intros Hc Hiss Hv.
  destruct (G_issue_origin _ _ _ _ Hc Hiss) as [i [_ Hi]].
  apply G_handler_issues_inv in Hi. destruct Hi as [_ [_ ->]].
  simpl in Hv. apply G_scan_body_in in Hv.
  destruct Hv as [[] | [j [_ [_ Hs]]]].
  now apply G_suspicious_not_safe in Hs.
Qed.

(** C4.  A body line whose placeholders name only identifiers of the
    allowlist (error, id, data, variables, context, e, i) adds nothing to
    the identifiers collected for its handler; no identifier of the
    allowlist is ever listed in a finding, whatever the file; and a handler
    whose body lines are all of that kind yields no finding. *)
Theorem allowlisted_names_never_flagged :
  G.safe_names =
    map str ["error"; "id"; "data"; "variables"; "context"; "e"; "i"]%string /\
  (forall check_line vars,
      Forall (fun v => In v G.safe_names)
             (findall G.template_re check_line) ->
      G.scan_line check_line vars = vars) /\
  (forall path lines issues iss v,
      G.check_lines path lines = Some issues ->
      In iss issues -> In v (G.variables iss) -> ~ In v G.safe_names) /\
  (forall path lines i,
      (forall j, In j (G.body_lines lines i) ->
                 Forall (fun v => In v G.safe_names)
                        (findall G.template_re (line_at lines j))) ->
      G.handler_issues path lines i = []).
Proof.
  split; [reflexivity|].
  split; [exact G_scan_line_safe|].
  split.
  - exact G_safe_name_not_listed.
  - intros path lines i H.
    assert (E : G.problem_vars lines i = []).
    { unfold G.problem_vars. rewrite G_scan_body_scanned.
      fold (G.body_lines lines i).
      revert H. generalize (G.body_lines lines i). intros js.
      induction js as [|j js IH]; intros H; simpl; [reflexivity|].
      rewrite G_scan_line_safe by (apply H; now left).
      apply IH. intros k Hk. apply H. now right. }
    unfold G.handler_issues. rewrite E. now destruct (G.is_handler lines i).
Qed.

(** ** The owner of a handler *)

(** The lookup returns the binding of the first line of the window that
    holds one, counting from the far end of the window. *)
Lemma G_find_mutation_first (lines : list text) :
  forall js,
    (G.find_mutation lines js = G.unknown /\
     forall j, In j js -> search G.mutation_re (line_at lines j) = None) \/
    (exists before j after m,
        js = before ++ j :: after /\
        (forall k, In k before ->
                   search G.mutation_re (line_at lines k) = None) /\
        search G.mutation_re (line_at lines j) = Some m /\
        G.find_mutation lines js = group1 m).
Proof.
  induction js as [|j js IH]; simpl.
  - left. split; [reflexivity | easy].
  - destruct (search G.mutation_re (line_at lines j)) as [m|] eqn:E.
    + right. exists [], j, js, m. repeat split; easy.
    + destruct IH as [[H1 H2] | [before [k [after [m [H1 [H2 [H3 H4]]]]]]]].
      * left. split; [exact H1|]. intros k [<- | Hk]; auto.
      * right. exists (j :: before), k, after, m. repeat split; auto.
        -- simpl. now rewrite H1.
        -- intros k' [<- | Hk']; auto.
Qed.

(** C2.  On a file with two mutation bindings within twenty lines before a
    handler, the reported owner is the binding farthest from the handler
    (the first one met from the far end of the window), whereas the nearest
    preceding binding is the other one. *)
Theorem owner_is_not_nearest_binding :
  G.check_lines (str "src/items.tsx") two_mutations =
    Some [G.Issue (str "src/items.tsx") 6 (str "createItem")
                  [str "itemName"] (str "onError: (error) => {")] /\
  G.mutation_name two_mutations 5 = str "createItem" /\
  nearest_binding_spec two_mutations 5 20 = str "deleteItem".
Proof. repeat split; vm_compute; reflexivity. Qed.

(** ** One finding per handler *)

Lemma G_add_var_mono (check_line : text) (vars : list text) (x v : text) :
  In v vars -> In v (G.add_var check_line vars x).
Proof.
  intros H. unfold G.add_var. destruct (G.suspicious check_line x); [|easy].
  destruct (mem x vars); [easy|]. apply in_or_app. now left.
Qed.

Lemma first_seen_into_filter (check_line : text) :
  forall xs acc,
    fold_left (G.add_var check_line) xs acc =
    first_seen_into acc (filter (G.suspicious check_line) xs).
Proof.
  unfold first_seen_into.
  induction xs as [|x xs IH]; intros acc; simpl; [reflexivity|].
  unfold G.add_var at 2. destruct (G.suspicious check_line x); simpl.
  - apply IH.
  - apply IH.
Qed.

Lemma first_seen_into_app (xs ys acc : list text) :
  first_seen_into acc (xs ++ ys) = first_seen_into (first_seen_into acc xs) ys.
Proof. unfold first_seen_into. apply fold_left_app. Qed.

(** The identifiers collected over a body: the survivors of its scanned
    lines, in the order of the lines, each kept where it is first seen. *)
Lemma G_problem_vars_first_seen (lines : list text) (i : nat) :
  G.problem_vars lines i =
  first_seen (flat_map (fun j => survivors (line_at lines j))
                       (G.body_lines lines i)).
Proof.
  unfold G.problem_vars, G.body_lines, first_seen.
  rewrite G_scan_body_scanned.
  generalize (G.scanned lines (G.body_window lines i)). intros js.
  generalize (@nil text). induction js as [|j js IH]; intros acc; simpl.
  - reflexivity.
  - rewrite first_seen_into_app. rewrite IH. f_equal.
    unfold G.scan_line. apply first_seen_into_filter.
Qed.

Lemma G_handler_issues_length (path : text) (lines : list text) (i : nat) :
  length (G.handler_issues path lines i) <= 1.
Proof.
  unfold G.handler_issues. destruct (G.is_handler lines i); [|simpl; lia].
  destruct (G.problem_vars lines i); simpl; lia.
Qed.

Lemma first_seen_into_incl (xs : list text) :
  forall acc v, In v acc \/ In v xs -> In v (first_seen_into acc xs).
Proof.
  unfold first_seen_into. induction xs as [|x xs IH]; intros acc v H; simpl.
  - destruct H as [H | []]. exact H.
  - apply IH. destruct H as [H | [E | H]].
    + left. destruct (mem x acc); [exact H | apply in_or_app; now left].
    + left. subst v. destruct (mem x acc) eqn:Em.
      * now apply mem_In.
      * apply in_or_app. right. now left.
    + now right.
Qed.

Lemma first_seen_nonempty (xs : list text) : xs <> [] -> first_seen xs <> [].
Proof.
  destruct xs as [|x xs]; intros H; [now elim H|].
  intros E. assert (Hin : In x (first_seen (x :: xs))).
  { apply first_seen_into_incl. right. now left. }
  rewrite E in Hin. destruct Hin.
Qed.

(** The finding that a handler line gives when an identifier passes the
    filters on a line of its body. *)
Lemma G_handler_issues_complete (path : text) (lines : list text) (i : nat) :
  G.is_handler lines i = true ->
  flat_map (fun j => survivors (line_at lines j)) (G.body_lines lines i)
    <> [] ->
  G.handler_issues path lines i =
    [G.Issue path (i + 1) (G.mutation_name lines i)
             (first_seen (flat_map (fun j => survivors (line_at lines j))
                                   (G.body_lines lines i)))
             (strip (line_at lines i))].
Proof.
  intros Hh Hne. unfold G.handler_issues. rewrite Hh.
  rewrite G_problem_vars_first_seen.
  pose proof (first_seen_nonempty _ Hne) as Hfs.
  destruct (first_seen (flat_map (fun j => survivors (line_at lines j))
                                 (G.body_lines lines i))) as [|v vs];
    [now elim Hfs | reflexivity].
Qed.

(** C3 as the program has it.  The findings of a file are those of its
    handler lines, in the order of the file, at most one for each handler
    line.  The finding of a handler records the number of the signature line
    and the text of that line, and lists, each once and in the order in
    which they are first seen, the identifiers that pass the filters on the
    lines of the body that the loop reads.  A handler line with such an
    identifier on some line of its body does give its finding, which lists
    every such identifier of every line of the body; and two findings of the
    file with the same line number are the same finding. *)
Theorem one_finding_per_handler (path : text) (lines : list text)
  (issues : list G.issue) :
  G.check_lines path lines = Some issues ->
  issues =
    flat_map (G.handler_issues path lines) (range 0 (length lines)) /\
  (forall i, length (G.handler_issues path lines i) <= 1) /\
  (forall iss, In iss issues ->
     exists i,
       i < length lines /\ G.is_handler lines i = true /\
       G.line iss = i + 1 /\
       G.code iss = strip (line_at lines i) /\
       G.variables iss <> [] /\ NoDup (G.variables iss) /\
       G.variables iss =
         first_seen (flat_map (fun j => survivors (line_at lines j))
                              (G.body_lines lines i))) /\
  (forall i,
     i < length lines -> G.is_handler lines i = true ->
     flat_map (fun j => survivors (line_at lines j)) (G.body_lines lines i)
       <> [] ->
     In (G.Issue path (i + 1) (G.mutation_name lines i)
                 (first_seen (flat_map (fun j => survivors (line_at lines j))
                                       (G.body_lines lines i)))
                 (strip (line_at lines i)))
        issues) /\
  (forall i j v,
     In j (G.body_lines lines i) -> In v (survivors (line_at lines j)) ->
     In v (first_seen (flat_map (fun j => survivors (line_at lines j))
                                (G.body_lines lines i)))) /\
  (forall a b, In a issues -> In b issues -> G.line a = G.line b -> a = b).
Proof.
  intros Hc. split.
  { rewrite G_check_lines_eq in Hc. now injection Hc as <-. }
  split; [apply G_handler_issues_length|].
  split.
  { intros iss Hiss.
    destruct (G_issue_origin _ _ _ _ Hc Hiss) as [i [Hi Hin]].
    apply G_handler_issues_inv in Hin. destruct Hin as [Hh [Hne ->]].
    exists i. simpl. repeat split; auto.
    - unfold G.problem_vars. apply G_scan_body_NoDup. constructor.
    - apply G_problem_vars_first_seen. }
  split.
  { intros i Hi Hh Hne. rewrite G_check_lines_eq in Hc.
    injection Hc as <-. apply in_flat_map. exists i. split.
    - apply range_bounds. lia.
    - rewrite (G_handler_issues_complete path lines i Hh Hne). now left. }
  split.
  { intros i j v Hj Hv. apply first_seen_into_incl. right.
    apply in_flat_map. now exists j. }
  intros a b Ha Hb Hl.
  destruct (G_issue_origin _ _ _ _ Hc Ha) as [ia [_ Hia]].
  destruct (G_issue_origin _ _ _ _ Hc Hb) as [ib [_ Hib]].
  apply G_handler_issues_inv in Hia. destruct Hia as [_ [_ ->]].
  apply G_handler_issues_inv in Hib. destruct Hib as [_ [_ ->]].
  simpl in Hl. assert (ia = ib) by lia. now subst ib.
Qed.

Lemma one_finding_per_handler_witness :
  G.check_lines (str "src/save.tsx") two_leaks =
    Some [G.Issue (str "src/save.tsx") 2 (str "save")
                  [str "first"; str "second"]
                  (str "onError: (error) => {")] /\
  (exists i,
    i < length two_leaks /\ G.is_handler two_leaks i = true /\
    2 = i + 1 /\
    str "onError: (error) => {" = strip (line_at two_leaks i) /\
    [str "first"; str "second"] <> [] /\
    NoDup [str "first"; str "second"] /\
    [str "first"; str "second"] =
      first_seen (flat_map (fun j => survivors (line_at two_leaks j))
                           (G.body_lines two_leaks i))) /\
  In (G.Issue (str "src/save.tsx") (1 + 1) (G.mutation_name two_leaks 1)
              (first_seen (flat_map (fun j => survivors (line_at two_leaks j))
                                    (G.body_lines two_leaks 1)))
              (strip (line_at two_leaks 1)))
     [G.Issue (str "src/save.tsx") 2 (str "save")
              [str "first"; str "second"]
              (str "onError: (error) => {")].
Proof.
  assert (E : G.check_lines (str "src/save.tsx") two_leaks =
              Some [G.Issue (str "src/save.tsx") 2 (str "save")
                            [str "first"; str "second"]
                            (str "onError: (error) => {")])
    by (vm_compute; reflexivity).
  split; [exact E|].
  destruct (one_finding_per_handler _ _ _ E) as [_ [_ [H [Hcomplete _]]]].
  split.
  - apply (H (G.Issue (str "src/save.tsx") 2 (str "save")
                      [str "first"; str "second"]
                      (str "onError: (error) => {"))).
    now left.
  - apply (Hcomplete 1).
    + simpl. lia.
    + vm_compute. reflexivity.
    + vm_compute. discriminate.
Defined.

(** The claim as it is worded fails on [two_leaks]: identifiers survive on
    lines 3 and 4, and the result is one finding, on line 2, not one finding
    for each of the lines 3 and 4. *)
Lemma two_leaks_yield_one_finding :
  survivors (line_at two_leaks 2) = [str "first"] /\
  survivors (line_at two_leaks 3) = [str "second"; str "first"] /\
  ~ (exists a b,
        G.check_lines (str "src/save.tsx") two_leaks = Some [a; b] /\
        G.line a = 3 /\ G.line b = 4).
Proof.
  split; [vm_compute; reflexivity|].
  split; [vm_compute; reflexivity|].
  intros [a [b [H _]]]. vm_compute in H. discriminate.
Qed.

(** ** The end-to-end scenario *)

Lemma G_problem_vars_fold (lines : list text) (i : nat) :
  G.problem_vars lines i =
  fold_left (fun vs j => G.scan_line (line_at lines j) vs)
            (G.body_lines lines i) [].
Proof. unfold G.problem_vars. apply G_scan_body_scanned. Qed.

Lemma G_scan_line_no_placeholder (check_line : text) (vars : list text) :
  findall G.template_re check_line = [] -> G.scan_line check_line vars = vars.
Proof. intros H. unfold G.scan_line. now rewrite H. Qed.

Lemma G_scan_line_id (check_line : text) (vars : list text) :
  findall G.template_re check_line = [str "id"] ->
  G.scan_line check_line vars = vars.
Proof.
  intros H. apply G_scan_line_safe. rewrite H.
  constructor; [|constructor]. apply mem_In. reflexivity.
Qed.

(** C1 as the program has it.  When the body of a handler holds a line whose
    only placeholder is [${id}], such as the [toast] call of the scenario,
    and no other line of the body holds a placeholder, the analyzer reports
    nothing for that handler, because [id] is in the allowlist; and [id] is
    listed in no finding of the file. *)
Theorem id_placeholder_is_not_flagged (path : text) (lines : list text)
  (i t : nat) (issues : list G.issue) :
  In t (G.body_lines lines i) ->
  findall G.template_re (line_at lines t) = [str "id"] ->
  (forall j, In j (G.body_lines lines i) -> j <> t ->
             findall G.template_re (line_at lines j) = []) ->
  G.check_lines path lines = Some issues ->
  G.handler_issues path lines i = [] /\
  forall iss, In iss issues ->
              G.line iss <> i + 1 /\ ~ In (str "id") (G.variables iss).
Proof.
  intros Ht Hid Hrest Hc.
  assert (E : G.handler_issues path lines i = []).
  { assert (Ev : G.problem_vars lines i = []).
    { rewrite G_problem_vars_fold.
      revert Hrest. clear Ht. generalize (G.body_lines lines i). intros js.
      induction js as [|j js IH]; intros H; simpl; [reflexivity|].
      destruct (Nat.eq_dec j t) as [-> | Hne].
      - rewrite G_scan_line_id by exact Hid.
        apply IH. intros k Hk. apply H. now right.
      - rewrite G_scan_line_no_placeholder by (apply H; [now left | exact Hne]).
        apply IH. intros k Hk. apply H. now right. }
    unfold G.handler_issues. rewrite Ev.
    now destruct (G.is_handler lines i). }
  split; [exact E|].
  intros iss Hiss. split.
  - destruct (G_issue_origin _ _ _ _ Hc Hiss) as [k [_ Hk]].
    intros Hl. pose proof (G_handler_issues_inv _ _ _ _ Hk) as [_ [_ ->]].
    simpl in Hl. assert (k = i) by lia. subst k.
    rewrite E in Hk. destruct Hk.
  - intros Hv.
    apply (G_safe_name_not_listed _ _ _ _ _ Hc Hiss Hv).
    apply mem_In. reflexivity.
Qed.

Lemma id_placeholder_is_not_flagged_witness :
  G.check_lines (str "src/m.tsx") toast_scenario = Some [] /\
  G.handler_issues (str "src/m.tsx") toast_scenario 1 = [] /\
  forall iss, In iss [] ->
              G.line iss <> 1 + 1 /\ ~ In (str "id") (G.variables iss).
Proof.
  split; [vm_compute; reflexivity|].
  apply (id_placeholder_is_not_flagged (str "src/m.tsx") toast_scenario 1 2).
  - vm_compute. now left.
  - vm_compute. reflexivity.
  - intros j Hj Hne. vm_compute in Hj.
    destruct Hj as [<- | []]. now elim Hne.
  - vm_compute. reflexivity.
Defined.

(** The scenario as the claim words it: the result is empty, not one finding
    that lists [id] with owner [m]. *)
Lemma toast_scenario_has_no_finding :
  G.is_handler toast_scenario 1 = true /\
  G.mutation_name toast_scenario 1 = str "m" /\
  In 2 (G.body_lines toast_scenario 1) /\
  G.check_lines (str "src/m.tsx") toast_scenario = Some [] /\
  ~ (exists iss,
        G.check_lines (str "src/m.tsx") toast_scenario = Some [iss] /\
        G.variables iss = [str "id"] /\ G.mutation iss = str "m").
Proof.
  split; [vm_compute; reflexivity|].
  split; [vm_compute; reflexivity|].
  split; [vm_compute; now left|].
  split; [vm_compute; reflexivity|].
  intros [iss [H _]]. vm_compute in H. discriminate.
Qed.

(** With a name outside the allowlist the same file gives one finding: that
    name, the owner [m], and the signature line. *)
Example toast_item_scenario_finding :
  G.check_lines (str "src/m.tsx") toast_item_scenario =
  Some [G.Issue (str "src/m.tsx") 2 (str "m") [str "itemId"]
                (str "onError: (error) => {")].
Proof. vm_compute. reflexivity. Qed.

(** ** Where the reported line numbers lie *)

Lemma F_scan_body_inv (path : text) (lines : list text) (i : nat) (p : F.problem) :
  forall js,
    In p (F.scan_body path lines i js) ->
    exists j,
      In j (F.scanned lines js) /\
      F.reports (line_at lines j) = true /\
      p = F.Problem path (j + 1) (strip (line_at lines j)) (i + 1).
Proof.
  induction js as [|j js IH]; simpl; [easy|].
  destruct (F.reports (line_at lines j)) eqn:Er; simpl.
  - intros [<- | []]. exists j. repeat split; auto.
  - destruct (F.stops (line_at lines j)); [easy|].
    intros H. destruct (IH H) as [k [Hk1 Hk2]].
    exists k. split; [now right | exact Hk2].
Qed.

Lemma F_handler_problems_inv (path : text) (lines : list text) (i : nat)
  (p : F.problem) :
  In p (F.handler_problems path lines i) ->
  F.is_handler lines i = true /\
  exists j,
    In j (F.body_lines lines i) /\
    F.reports (line_at lines j) = true /\
    p = F.Problem path (j + 1) (strip (line_at lines j)) (i + 1).
Proof.
  unfold F.handler_problems. destruct (F.is_handler lines i); [|easy].
  intros H. split; [reflexivity|]. now apply F_scan_body_inv.
Qed.

(** C5 as the program has it.  A finding of the generic mode carries the
    number of the signature line of its handler.  A finding of the
    single-name mode carries the number of a line that its body loop read:
    a line after the signature line, at most twenty lines after it, and
    inside the file. *)
Theorem finding_line_positions (path : text) (lines : list text) :
  (forall issues iss,
      G.check_lines path lines = Some issues -> In iss issues ->
      exists i,
        i < length lines /\ G.is_handler lines i = true /\
        G.line iss = i + 1) /\
  (forall problems p,
      F.check_lines path lines = Some problems -> In p problems ->
      exists i j,
        i < length lines /\ F.is_handler lines i = true /\
        F.onError_line p = i + 1 /\
        In j (F.body_lines lines i) /\ F.line_num p = j + 1 /\
        F.onError_line p < F.line_num p <= F.onError_line p + 20 /\
        F.line_num p <= length lines).
Proof.
  split.
  - intros issues iss Hc Hiss.
    destruct (G_issue_origin _ _ _ _ Hc Hiss) as [i [Hi Hin]].
    apply G_handler_issues_inv in Hin. destruct Hin as [Hh [_ ->]].
    exists i. now repeat split.
  - intros problems p Hc Hp.
    destruct (F_problem_origin _ _ _ _ Hc Hp) as [i [Hi Hin]].
    apply F_handler_problems_inv in Hin.
    destruct Hin as [Hh [j [Hj [_ ->]]]].
    exists i, j. simpl.
    pose proof (F_scanned_incl _ _ _ Hj) as Hw.
    apply range_bounds in Hw. repeat split; auto; lia.
Qed.

(** The claim as it is worded fails on [toast_item_scenario]: the one
    finding carries line 2, the signature line, which lies in the body of no
    handler. *)
Lemma finding_on_signature_line :
  exists iss,
    G.check_lines (str "src/m.tsx") toast_item_scenario = Some [iss] /\
    G.line iss = 2 /\ G.is_handler toast_item_scenario 1 = true /\
    ~ inside_some_body toast_item_scenario (G.line iss).
Proof.
  eexists. split; [vm_compute; reflexivity|].
  split; [reflexivity|]. split; [vm_compute; reflexivity|].
  intros [i [j [Hh [Hj Hn]]]]. simpl in Hn.
  apply range_bounds in Hj.
  assert (i = 0) by lia. subst i. vm_compute in Hh. discriminate.
Qed.

(** ** Reading a match backward and forward *)

Lemma match_lit_spec (l : text) :
  forall pv s pv' s',
    match_lit l pv s = Some (pv', s') <->
    s = l ++ s' /\ pv' = prev_after pv l.
Proof.
  induction l as [|a l IH]; intros pv s pv' s'; simpl.
  - split; [now intros [= <- <-] | now intros [-> ->]].
  - destruct s as [|b s].
    + split; [discriminate | now intros [? _]].
    + destruct (Ascii.eqb a b) eqn:E.
      * apply Ascii.eqb_eq in E. subst b. rewrite IH. split.
        -- now intros [-> ->].
        -- intros [[= ->] ->]. now split.
      * apply Ascii.eqb_neq in E. split; [discriminate|].
        intros [[= -> _] _]. now elim E.
Qed.

Lemma rmatch_seq (r1 r2 : regex) (m q : mstate) :
  In q (rmatch (Seq r1 r2) m) <->
  exists p, In p (rmatch r1 m) /\ In q (rmatch r2 p).
Proof. simpl. apply in_flat_map. Qed.

Lemma rmatch_lit (l : text) (m q : mstate) :
  In q (rmatch (Lit l) m) <->
  rest m = l ++ rest q /\ prev q = prev_after (prev m) l /\ grp q = grp m.
Proof.
  cbn [rmatch].
  destruct (match_lit l (prev m) (rest m)) as [[pv s]|] eqn:E.
  - apply match_lit_spec in E. destruct E as [E1 E2]. split.
    + intros [<- | []]. simpl. now repeat split.
    + intros [H1 [H2 H3]]. left. destruct q as [qp qr qg]. simpl in *.
      rewrite E1 in H1. apply app_inv_head in H1. congruence.
  - split; [easy|]. intros [H1 [H2 H3]].
    assert (match_lit l (prev m) (rest m) = Some (prev q, rest q))
      by now apply match_lit_spec.
    congruence.
Qed.

Lemma match_star_spec (c : ascii -> bool) (g : option text) (q : mstate) :
  forall s pv,
    In q (match_star c pv s g) <->
    exists w, s = w ++ rest q /\ forallb c w = true /\
              prev q = prev_after pv w /\ grp q = g.
Proof.
  induction s as [|a s IH]; intros pv.
  - simpl. split.
    + intros [<- | []]. exists []. now repeat split.
    + intros [w [H1 [_ [H3 H4]]]]. left.
      symmetry in H1. apply app_eq_nil in H1. destruct H1 as [-> H1].
      destruct q as [qp qr qg]. simpl in *. congruence.
  - cbn [match_star]. destruct (c a) eqn:Ea.
    + rewrite in_app_iff, IH. split.
      * intros [[w [H1 [H2 [H3 H4]]]] | [<- | []]].
        -- exists (a :: w). simpl. rewrite Ea, H2, <- H1. now repeat split.
        -- exists []. now repeat split.
      * intros [[|b w] [H1 [H2 [H3 H4]]]].
        -- right. left. destruct q as [qp qr qg]. simpl in *. congruence.
        -- left. simpl in H1. injection H1 as -> H1. simpl in H2.
           apply andb_prop in H2. destruct H2 as [_ H2].
           exists w. now repeat split.
    + split.
      * intros [<- | []]. exists []. now repeat split.
      * intros [[|b w] [H1 [H2 [H3 H4]]]].
        -- left. destruct q as [qp qr qg]. simpl in *. congruence.
        -- simpl in H1. injection H1 as -> H1. simpl in H2.
           rewrite Ea in H2. discriminate.
Qed.

Lemma rmatch_star (c : ascii -> bool) (m q : mstate) :
  In q (rmatch (Star c) m) <->
  exists w, rest m = w ++ rest q /\ forallb c w = true /\
            prev q = prev_after (prev m) w /\ grp q = grp m.
Proof. apply match_star_spec. Qed.

Lemma rmatch_plus (c : ascii -> bool) (m q : mstate) :
  In q (rmatch (Plus c) m) <->
  exists w, w <> [] /\ rest m = w ++ rest q /\ forallb c w = true /\
            prev q = prev_after (prev m) w /\ grp q = grp m.
Proof.
  cbn [rmatch]. destruct (rest m) as [|a s] eqn:Em.
  - split; [easy|]. intros [[|b w] [H0 [H1 _]]]; [now elim H0 | discriminate].
  - destruct (c a) eqn:Ea.
    + rewrite match_star_spec. split.
      * intros [w [H1 [H2 [H3 H4]]]]. exists (a :: w). simpl.
        rewrite Ea, H2, <- H1. now repeat split.
      * intros [[|b w] [H0 [H1 [H2 [H3 H4]]]]]; [now elim H0|].
        simpl in H1. injection H1 as -> H1. simpl in H2.
        apply andb_prop in H2. destruct H2 as [_ H2].
        exists w. now repeat split.
    + split; [easy|].
      intros [[|b w] [H0 [H1 [H2 _]]]]; [now elim H0|].
      simpl in H1. injection H1 as -> H1. simpl in H2.
      rewrite Ea in H2. discriminate.
Qed.

Lemma rmatch_opt (r : regex) (m q : mstate) :
  In q (rmatch (Opt r) m) <-> In q (rmatch r m) \/ q = m.
Proof.
  simpl. rewrite in_app_iff. simpl. intuition congruence.
Qed.

Lemma rmatch_eol (m q : mstate) :
  In q (rmatch Eol m) <-> q = m /\ (rest m = [] \/ rest m = [newline]).
Proof.
  simpl. destruct (rest m) as [|a [|b s]].
  - simpl. intuition congruence.
  - destruct (Ascii.eqb a newline) eqn:E.
    + apply Ascii.eqb_eq in E. subst a. simpl. intuition congruence.
    + apply Ascii.eqb_neq in E. simpl. split; [easy|].
      intros [_ [H | H]]; [discriminate|]. injection H as ->. now elim E.
  - simpl. split; [easy|]. intros [_ [H | H]]; discriminate.
Qed.

Lemma rmatch_wordb (m q : mstate) :
  In q (rmatch WordB m) <->
  q = m /\ xorb (word_opt (prev m)) (word_opt (hd_error (rest m))) = true.
Proof.
  simpl. destruct (xorb _ _); simpl; intuition congruence.
Qed.

(** An anchored expression is found exactly when it matches from the start
    of the line. *)
Lemma search_bol_iff (r : regex) (s : text) :
  found (search (Seq Bol r) s) = true <->
  exists q, In q (rmatch r (MState None s None)).
Proof.
  split.
  - intros H. destruct (search (Seq Bol r) s) as [q|] eqn:E; [|discriminate].
    exists q. now apply search_bol.
  - intros [q Hq]. apply (search_from_complete (Seq Bol r) s [] None).
    simpl. rewrite app_nil_r. intros E. rewrite E in Hq. destruct Hq.
Qed.

(** ** The end of a handler body *)

Lemma forallb_space_app (w1 w2 : text) :
  forallb is_space (w1 ++ w2) = true <->
  forallb is_space w1 = true /\ forallb is_space w2 = true.
Proof. rewrite forallb_app. apply andb_true_iff. Qed.

(** The closing pattern of the generic mode matches the lines made of a
    brace and an optional comma, and only those. *)
Lemma G_closing_brace_only (l : text) :
  found (search G.closing_re l) = true <-> brace_only l.
Proof.
  unfold G.closing_re. rewrite search_bol_iff. split.
  - intros [q Hq].
    apply rmatch_seq in Hq. destruct Hq as [p1 [H1 Hq]].
    apply rmatch_seq in Hq. destruct Hq as [p2 [H2 Hq]].
    apply rmatch_seq in Hq. destruct Hq as [p3 [H3 Hq]].
    apply rmatch_seq in Hq. destruct Hq as [p4 [H4 Hq]].
    apply rmatch_seq in Hq. destruct Hq as [p5 [H5 Hq]].
    apply rmatch_star in H1. destruct H1 as [w1 [E1 [S1 _]]].
    apply rmatch_lit in H2. destruct H2 as [E2 _].
    apply rmatch_star in H3. destruct H3 as [w2 [E3 [S3 _]]].
    apply rmatch_star in H5. destruct H5 as [w3 [E5 [S5 _]]].
    apply rmatch_eol in Hq. destruct Hq as [-> Hend].
    simpl in E1. unfold brace_only.
    apply rmatch_opt in H4. destruct H4 as [H4 | ->].
    + apply rmatch_lit in H4. destruct H4 as [E4 _].
      exists w1, w2, (w3 ++ rest p5), (str ",").
      rewrite E1, E2, E3, E4, E5. repeat split; auto.
      apply forallb_space_app. split; [exact S5|].
      destruct Hend as [-> | ->]; reflexivity.
    + exists w1, w2, (w3 ++ rest p5), [].
      rewrite E1, E2, E3, E5. repeat split; auto.
      apply forallb_space_app. split; [exact S5|].
      destruct Hend as [-> | ->]; reflexivity.
  - intros [w1 [w2 [w3 [c [E [S1 [S2 [S3 Hc]]]]]]]].
    exists (MState (prev_after (prev_after (prev_after (prev_after None w1)
                      (str "}")) w2) (c ++ w3)) [] None).
    apply rmatch_seq.
    exists (MState (prev_after None w1) (str "}" ++ w2 ++ c ++ w3) None).
    split. { apply rmatch_star. exists w1. now repeat split. }
    apply rmatch_seq.
    exists (MState (prev_after (prev_after None w1) (str "}"))
                   (w2 ++ c ++ w3) None).
    split. { apply rmatch_lit. now repeat split. }
    apply rmatch_seq.
    exists (MState (prev_after (prev_after (prev_after None w1) (str "}")) w2)
                   (c ++ w3) None).
    split. { apply rmatch_star. exists w2. now repeat split. }
    apply rmatch_seq.
    exists (MState (prev_after (prev_after (prev_after (prev_after None w1)
                      (str "}")) w2) c) w3 None).
    split.
    { apply rmatch_opt. destruct Hc as [-> | ->].
      - now right.
      - left. apply rmatch_lit. now repeat split. }
    apply rmatch_seq.
    exists (MState (prev_after (prev_after (prev_after (prev_after None w1)
                      (str "}")) w2) (c ++ w3)) [] None).
    split.
    { apply rmatch_star. exists w3. simpl. rewrite app_nil_r.
      repeat split; auto. unfold prev_after. now rewrite fold_left_app. }
    apply rmatch_eol. split; [reflexivity | now left].
Qed.

Lemma lstrip_blank (l : text) : forallb is_space l = true -> lstrip l = [].
Proof.
  induction l as [|a l IH]; simpl; [reflexivity|].
  intros H. apply andb_prop in H. destruct H as [-> H]. now apply IH.
Qed.

Lemma strip_blank (l : text) : is_blank l = true -> strip l = [].
Proof. intros H. unfold strip. now rewrite (lstrip_blank _ H). Qed.

Lemma G_scanned_spec (lines : list text) :
  forall js,
  exists tl,
    js = G.scanned lines js ++ tl /\
    (forall j, In j (G.scanned lines js) -> G.closes_handler lines j = false) /\
    (tl = [] \/ exists k tl', tl = k :: tl' /\ G.closes_handler lines k = true).
Proof.
  induction js as [|j js [tl [H1 [H2 H3]]]]; simpl.
  - exists []. repeat split; [easy | now left].
  - destruct (G.closes_handler lines j) eqn:E.
    + exists (j :: js). repeat split; [easy|]. right. now exists j, js.
    + exists tl. repeat split.
      * simpl. now rewrite <- H1.
      * intros k [<- | Hk]; auto.
      * exact H3.
Qed.

(** C7 as the program has it.  A line ends the body of the handler exactly
    when it is made of a closing brace, optionally followed by a comma, and
    the line right after it exists and, once stripped, starts with [on] or is
    [});] or [}].  When the line right after it is blank, the body does not
    end there.  The body loop reads the lines of its window up to the first
    line that ends the body in this sense. *)
Theorem closing_line_ends_body_before_next_property
  (lines : list text) (j : nat) :
  (G.closes_handler lines j = true <->
   brace_only (line_at lines j) /\ j + 1 < length lines /\
   starts_next_property (strip (line_at lines (j + 1)))) /\
  (is_blank (line_at lines (j + 1)) = true ->
   G.closes_handler lines j = false) /\
  (forall i, exists tl,
      G.body_window lines i = G.body_lines lines i ++ tl /\
      (forall k, In k (G.body_lines lines i) ->
                 G.closes_handler lines k = false) /\
      (tl = [] \/
       exists k tl', tl = k :: tl' /\ G.closes_handler lines k = true)).
Proof.
  split; [|split].
  - unfold G.closes_handler, starts_next_property.
    rewrite !andb_true_iff, !orb_true_iff, !text_eqb_eq, Nat.ltb_lt.
    rewrite G_closing_brace_only. tauto.
  - intros Hb. unfold G.closes_handler. rewrite (strip_blank _ Hb).
    now rewrite !andb_false_r.
  - intros i. apply G_scanned_spec.
Qed.

(** The claim as it is worded fails on [blank_after_brace]: the line after
    the closing line 4 is blank and the next non-blank line starts the
    property [onSuccess], yet the body does not end at line 4; the loop
    reads on, into the body of [onSuccess], and reports [savedName]. *)
Lemma blank_line_hides_boundary :
  closes_handler_spec blank_after_brace 3 = true /\
  G.closes_handler blank_after_brace 3 = false /\
  G.body_lines blank_after_brace 1 = [2; 3; 4; 5; 6] /\
  G.check_lines (str "src/m.tsx") blank_after_brace =
    Some [G.Issue (str "src/m.tsx") 2 (str "m") [str "savedName"]
                  (str "onError: (error) => {")].
Proof. repeat split; vm_compute; reflexivity. Qed.

(** ** The two modes side by side *)

Lemma F_scanned_spec (lines : list text) :
  forall js,
    (F.scanned lines js = js /\
     forall j, In j js -> ends_scan lines j = false) \/
    (exists front k tl,
        js = front ++ k :: tl /\ F.scanned lines js = front ++ [k] /\
        (forall j, In j front -> ends_scan lines j = false) /\
        ends_scan lines k = true).
Proof.
  induction js as [|j js IH]; simpl.
  - left. split; [reflexivity | easy].
  - fold (ends_scan lines j). destruct (ends_scan lines j) eqn:E.
    + right. exists [], j, js. repeat split; easy.
    + destruct IH as [[H1 H2] | [front [k [tl [H1 [H2 [H3 H4]]]]]]].
      * left. split; [now rewrite H1|]. intros k [<- | Hk]; auto.
      * right. exists (j :: front), k, tl. repeat split; auto.
        -- simpl. now rewrite H1.
        -- simpl. now rewrite H2.
        -- intros k' [<- | Hk']; auto.
Qed.

Lemma G_scanned_cases (lines : list text) :
  forall js,
    (G.scanned lines js = js /\
     forall j, In j js -> G.closes_handler lines j = false) \/
    (exists k tl,
        js = G.scanned lines js ++ k :: tl /\
        (forall j, In j (G.scanned lines js) ->
                   G.closes_handler lines j = false) /\
        G.closes_handler lines k = true).
Proof.
  intros js. destruct (G_scanned_spec lines js) as [tl [H1 [H2 H3]]].
  destruct H3 as [-> | [k [tl' [-> H3]]]].
  - left. rewrite app_nil_r in H1. rewrite <- H1. split; [reflexivity|].
    intros j Hj. apply H2. now rewrite <- H1.
  - right. now exists k, tl'.
Qed.

(** C8 as the program has it.  Both modes read the lines after the
    signature line one by one, inside a window that ends with the file, but
    the window and the conditions that end the loop are each mode's own.
    The generic mode has a window of thirty lines and reads up to, and not
    including, the first closing line that is followed by the start of a
    property or the end of the call.  The single-name mode has a window of
    twenty lines and reads up to, and including, the first line that it
    reports or that is a closing line or a [const] binding. *)
Theorem modes_scan_their_own_prefix (lines : list text) (i : nat) :
  G.body_window lines i = range (i + 1) (Nat.min (i + 31) (length lines)) /\
  F.body_window lines i = range (i + 1) (Nat.min (i + 21) (length lines)) /\
  ((G.body_lines lines i = G.body_window lines i /\
    forall j, In j (G.body_window lines i) ->
              G.closes_handler lines j = false) \/
   (exists k tl,
       G.body_window lines i = G.body_lines lines i ++ k :: tl /\
       (forall j, In j (G.body_lines lines i) ->
                  G.closes_handler lines j = false) /\
       G.closes_handler lines k = true)) /\
  ((F.body_lines lines i = F.body_window lines i /\
    forall j, In j (F.body_window lines i) ->
              F.reports (line_at lines j) = false /\
              F.stops (line_at lines j) = false) \/
   (exists front k tl,
       F.body_window lines i = front ++ k :: tl /\
       F.body_lines lines i = front ++ [k] /\
       (forall j, In j front ->
                  F.reports (line_at lines j) = false /\
                  F.stops (line_at lines j) = false) /\
       (F.reports (line_at lines k) = true \/
        F.stops (line_at lines k) = true))).
Proof.
  split; [reflexivity|]. split; [reflexivity|]. split.
  - apply G_scanned_cases.
  - unfold F.body_lines.
    destruct (F_scanned_spec lines (F.body_window lines i))
      as [[H1 H2] | [front [k [tl [H1 [H2 [H3 H4]]]]]]].
    + left. split; [exact H1|]. intros j Hj.
      apply orb_false_elim. apply (H2 j Hj).
    + right. exists front, k, tl. repeat split; auto.
      * apply (orb_false_elim _ _ (H3 j H)).
      * apply (orb_false_elim _ _ (H3 j H)).
      * now apply orb_prop.
Qed.

(** The claim as it is worded fails: on [oversized] the generic mode reads
    thirty lines after the handler line and the single-name mode twenty; on
    [blank_after_brace] the single-name mode stops at the closing line 4 and
    the generic mode reads on to line 7. *)
Lemma modes_scan_different_lines :
  G.is_handler oversized 0 = true /\ F.is_handler oversized 0 = true /\
  G.body_lines oversized 0 = range 1 31 /\
  F.body_lines oversized 0 = range 1 21 /\
  G.is_handler blank_after_brace 1 = true /\
  F.is_handler blank_after_brace 1 = true /\
  G.body_lines blank_after_brace 1 = [2; 3; 4; 5; 6] /\
  F.body_lines blank_after_brace 1 = [2; 3] /\
  ~ (forall lines i, G.body_lines lines i = F.body_lines lines i).
Proof.
  repeat split; try (vm_compute; reflexivity).
  intros H. specialize (H oversized 0). vm_compute in H. discriminate.
Qed.

(** ** The name [id] inside a placeholder *)

Lemma rmatch_alt (r1 r2 : regex) (m q : mstate) :
  In q (rmatch (Alt r1 r2) m) <-> In q (rmatch r1 m) \/ In q (rmatch r2 m).
Proof. simpl. apply in_app_iff. Qed.

Lemma rmatch_group_nonempty (r : regex) (m q : mstate) :
  In q (rmatch r m) -> rmatch (Group r) m <> [].
Proof.
  intros H E. cbn [rmatch] in E. apply map_eq_nil in E.
  rewrite E in H. destruct H.
Qed.

Lemma startswith_iff (p : text) :
  forall s, startswith s p = true <-> exists b, s = p ++ b.
Proof.
  induction p as [|a p IH]; intros [|c s]; simpl.
  - split; [now exists [] | reflexivity].
  - split; [now exists (c :: s) | reflexivity].
  - split; [discriminate | now intros [b H]].
  - rewrite andb_true_iff, IH, Ascii.eqb_eq. split.
    + intros [-> [b ->]]. now exists b.
    + intros [b [= -> ->]]. split; [reflexivity | now exists b].
Qed.

Lemma contains_iff (sub : text) :
  forall s, contains sub s = true <-> exists a b, s = a ++ sub ++ b.
Proof.
  induction s as [|c s IH].
  - cbn [contains]. rewrite orb_false_r, startswith_iff. split.
    + intros [b H]. now exists [], b.
    + intros [a [b H]]. destruct a as [|x a]; [now exists b|discriminate].
  - cbn [contains]. rewrite orb_true_iff, startswith_iff, IH. split.
    + intros [[b H] | [a [b H]]].
      * now exists [], b.
      * exists (c :: a), b. simpl. now rewrite H.
    + intros [[|x a] [b H]].
      * left. now exists b.
      * right. injection H as -> H. now exists a, b.
Qed.

(** A line that holds [{id] is excluded. *)
Lemma F_exclude_brace_id (l : text) :
  contains (str "{id") l = true -> found (search F.exclude_re l) = true.
Proof.
  intros H. apply contains_iff in H. destruct H as [a [b ->]].
  apply search_from_complete. unfold F.exclude_re.
  apply rmatch_group_nonempty
    with (q := MState (prev_after (prev_after None a) (str "{id")) b None).
  do 9 (apply rmatch_alt; right). apply rmatch_alt. left.
  apply rmatch_lit. now repeat split.
Qed.

(** What [\bid\b] finds is an occurrence of the word. *)
Lemma F_id_re_occurrence (l : text) :
  found (search F.id_re l) = true -> exists a b, id_occurrence l a b.
Proof.
  intros H. destruct (search F.id_re l) as [q|] eqn:E; [|discriminate].
  apply search_from_sound in E. destruct E as [a [s [-> Hq]]].
  unfold F.id_re in Hq.
  apply rmatch_seq in Hq. destruct Hq as [p1 [H1 Hq]].
  apply rmatch_seq in Hq. destruct Hq as [p2 [H2 Hq]].
  apply rmatch_wordb in H1. destruct H1 as [-> Hb1].
  apply rmatch_lit in H2. destruct H2 as [E2 [P2 _]].
  apply rmatch_wordb in Hq. destruct Hq as [-> Hb2].
  simpl in E2, Hb1. rewrite E2 in Hb1. rewrite P2 in Hb2.
  exists a, (rest p2). unfold id_occurrence. rewrite E2.
  split; [reflexivity|]. split.
  - destruct (word_opt (prev_after None a)); [discriminate | reflexivity].
  - destruct (word_opt (hd_error (rest p2))); [discriminate | reflexivity].
Qed.

Lemma in_placeholder_brace_id (l a b : text) :
  l = a ++ str "id" ++ b -> in_placeholder a b ->
  contains (str "{id") l = true.
Proof.
  intros -> [[a' ->] _]. apply contains_iff.
  exists (a' ++ str "$"), b. now rewrite <- !app_assoc.
Qed.

Lemma F_reports_occurrence (l : text) :
  F.reports l = true ->
  contains (str "{id") l = false /\
  exists a b, id_occurrence l a b /\ ~ in_placeholder a b.
Proof.
  unfold F.reports. intros H. apply andb_prop in H. destruct H as [H1 H2].
  apply negb_true_iff in H2.
  assert (Hc : contains (str "{id") l = false).
  { destruct (contains (str "{id") l) eqn:E; [|reflexivity].
    apply F_exclude_brace_id in E. congruence. }
  split; [exact Hc|].
  destruct (F_id_re_occurrence l H1) as [a [b Hocc]].
  exists a, b. split; [exact Hocc|]. intros Hp.
  destruct Hocc as [Hl _].
  rewrite (in_placeholder_brace_id l a b Hl Hp) in Hc. discriminate.
Qed.

(** C10 as the program has it.  In the single-name mode a line that holds
    [{id] is never reported, since the exclusion pattern finds [{id] in it;
    so a line in which every occurrence of the word [id] is the name of a
    placeholder written exactly [${id}] is never reported, and every line
    that is reported holds an occurrence of the word [id] that is not the
    name of such a placeholder, and no [{id] at all. *)
Theorem id_in_placeholder_is_never_reported :
  (forall l, contains (str "{id") l = true -> F.reports l = false) /\
  (forall l, every_id_in_placeholder l -> F.reports l = false) /\
  (forall path lines problems p,
      F.check_lines path lines = Some problems -> In p problems ->
      exists j a b,
        F.line_num p = j + 1 /\ j < length lines /\
        F.line p = strip (line_at lines j) /\
        contains (str "{id") (line_at lines j) = false /\
        id_occurrence (line_at lines j) a b /\ ~ in_placeholder a b).
Proof.
  split; [|split].
  - intros l H. unfold F.reports. rewrite (F_exclude_brace_id l H).
    apply andb_false_r.
  - intros l H. destruct (F.reports l) eqn:E; [|reflexivity].
    destruct (F_reports_occurrence l E) as [_ [a [b [Ho Hn]]]].
    elim Hn. now apply H.
  - intros path lines problems p Hc Hp.
    destruct (F_problem_origin _ _ _ _ Hc Hp) as [i [_ Hin]].
    apply F_handler_problems_inv in Hin.
    destruct Hin as [_ [j [Hj [Hr ->]]]].
    destruct (F_reports_occurrence _ Hr) as [Hn [a [b [Ho Hnp]]]].
    exists j, a, b. simpl.
    apply F_scanned_incl, range_bounds in Hj.
    repeat split; auto; try lia. apply Ho. apply Ho. apply Ho.
Qed.

(** A placeholder line is passed over, a bare use is reported. *)
Example single_name_mode_examples :
  F.check_lines (str "src/m.tsx") toast_scenario = Some [] /\
  F.check_lines (str "src/m.tsx")
    (map str ["  onError: (error) => {"; "    remove(id);"; "  }"]%string) =
  Some [F.Problem (str "src/m.tsx") 2 (str "remove(id);") 1].
Proof. split; vm_compute; reflexivity. Qed.

Lemma id_occurrence_position (l a b : text) :
  id_occurrence l a b ->
  a = firstn (length a) l /\ b = skipn (length a + 2) l /\
  length a + 2 <= length l /\
  firstn 2 (skipn (length a) l) = str "id".
Proof.
  intros [-> _]. repeat split.
  - now rewrite firstn_app, Nat.sub_diag, firstn_all, app_nil_r.
  - rewrite skipn_app, skipn_all2 by lia.
    replace (length a + 2 - length a) with 2 by lia. reflexivity.
  - rewrite !length_app. simpl. lia.
  - rewrite skipn_app, skipn_all, Nat.sub_diag. reflexivity.
Qed.

Ltac at_each_position n Hid Hlen found :=
  destruct n as [|n];
  [ first [ vm_compute in Hid; discriminate Hid | found ]
  | first [ simpl in Hlen; lia | at_each_position n Hid Hlen found ] ].

(** The last clause of the claim as it is worded fails on [spaced_id_file]:
    the one occurrence of the word [id] on line 2 lies inside a placeholder,
    between [${] and the closing brace, and the line is reported.  So are
    lines that use [id] inside a placeholder as an index or an argument. *)
Lemma id_inside_placeholder_is_reported :
  F.check_lines (str "src/m.tsx") spaced_id_file =
    Some [F.Problem (str "src/m.tsx") 2 (str "toast(`Failed ${ id }`);") 1] /\
  (exists a b, id_occurrence (line_at spaced_id_file 1) a b) /\
  (forall a b, id_occurrence (line_at spaced_id_file 1) a b ->
               within_placeholder a b) /\
  F.reports (str "log(`${items[id]}`);") = true /\
  F.reports (str "log(`${fmt(id)}`);") = true.
Proof.
  split; [vm_compute; reflexivity|].
  split.
  { exists (str "    toast(`Failed ${ "), (str " }`);").
    repeat split; vm_compute; reflexivity. }
  split; [|split; vm_compute; reflexivity].
  intros a b Hocc.
  destruct (id_occurrence_position _ _ _ Hocc) as [Ea [Eb [Hlen Hid]]].
  rewrite Ea, Eb. clear Ea Eb Hocc.
  remember (length a) as n eqn:En. clear En a b.
  change (length (line_at spaced_id_file 1)) with 28 in Hlen.
  at_each_position n Hid Hlen
    ltac:(exists (str "    toast(`Failed "), (str " "), (str " "), (str "`);");
          split; [vm_compute; reflexivity|];
          split; [intros H; vm_compute in H; destruct H as [H | []];
                  discriminate H
                 | vm_compute; reflexivity]).
Qed.

(** * Further properties of the two analyzers *)

Lemma flat_map_nil_all {A B : Type} (f : A -> list B) (l : list A) :
  (forall x, In x l -> f x = []) -> flat_map f l = [].
Proof.
  induction l as [|x l IH]; intros H; simpl; [reflexivity|].
  rewrite (H x) by now left. apply IH. intros y Hy. apply H. now right.
Qed.

(** X1.  A file none of whose lines is a handler signature gives no
    finding, in either mode. *)
Theorem no_handler_no_finding (path : text) (lines : list text) :
  (forall i, i < length lines -> G.is_handler lines i = false) ->
  (forall i, i < length lines -> F.is_handler lines i = false) ->
  G.check_lines path lines = Some [] /\ F.check_lines path lines = Some [].
Proof.
  intros HG HF. rewrite G_check_lines_eq, F_check_lines_eq. split; f_equal.
  - apply flat_map_nil_all. intros i Hi. apply range_bounds in Hi.
    unfold G.handler_issues. now rewrite HG by lia.
  - apply flat_map_nil_all. intros i Hi. apply range_bounds in Hi.
    unfold F.handler_problems. now rewrite HF by lia.
Qed.

Lemma no_handler_no_finding_witness :
  G.check_lines (str "src/plain.ts")
                (map str ["const a = 1;"; "onSuccess: (data) => {"; "}"]%string)
    = Some [] /\
  F.check_lines (str "src/plain.ts")
                (map str ["const a = 1;"; "onSuccess: (data) => {"; "}"]%string)
    = Some [].
Proof.
  apply no_handler_no_finding.
  - intros i Hi. simpl in Hi.
    destruct i as [|[|[|i]]]; try (vm_compute; reflexivity); lia.
  - intros i Hi. simpl in Hi.
    destruct i as [|[|[|i]]]; try (vm_compute; reflexivity); lia.
Defined.

Lemma flat_map_keys_sorted {A : Type} (key : A -> nat) (f : nat -> list A) :
  (forall i x, In x (f i) -> key x = i + 1) ->
  (forall i, length (f i) <= 1) ->
  forall n a, StronglySorted lt (map key (flat_map f (seq a n))).
Proof.
  intros Hkey Hlen. induction n as [|n IH]; intros a; simpl.
  - constructor.
  - specialize (IH (S a)).
    assert (Hrest : Forall (lt (a + 1))
                           (map key (flat_map f (seq (S a) n)))).
    { apply Forall_forall. intros k Hk. apply in_map_iff in Hk.
      destruct Hk as [x [<- Hx]]. apply in_flat_map in Hx.
      destruct Hx as [i [Hi Hx]]. apply in_seq in Hi.
      rewrite (Hkey i x Hx). lia. }
    specialize (Hlen a). destruct (f a) as [|x [|y l]] eqn:E; simpl in *.
    + exact IH.
    + constructor; [exact IH|].
      rewrite (Hkey a x) by (rewrite E; now left). exact Hrest.
    + lia.
Qed.

Lemma F_handler_problems_length (path : text) (lines : list text) (i : nat) :
  length (F.handler_problems path lines i) <= 1.
Proof.
  unfold F.handler_problems. destruct (F.is_handler lines i); [|simpl; lia].
  induction (F.body_window lines i) as [|j js IH]; simpl; [lia|].
  destruct (F.reports (line_at lines j)); [simpl; lia|].
  destruct (F.stops (line_at lines j)); [simpl; lia | exact IH].
Qed.

(** X2.  The findings of a file come out in the order of the handler lines
    and no handler line gives two of them: the line numbers of the findings
    of the generic mode increase strictly, and so do the [onError_line]
    numbers of the findings of the single-name mode. *)
Theorem findings_in_handler_order (path : text) (lines : list text) :
  (forall issues,
      G.check_lines path lines = Some issues ->
      StronglySorted lt (map G.line issues)) /\
  (forall problems,
      F.check_lines path lines = Some problems ->
      StronglySorted lt (map F.onError_line problems)).
Proof.
  split.
  - intros issues. rewrite G_check_lines_eq. intros [= <-].
    apply flat_map_keys_sorted.
    + intros i x Hx. apply G_handler_issues_inv in Hx.
      now destruct Hx as [_ [_ ->]].
    + apply G_handler_issues_length.
  - intros problems. rewrite F_check_lines_eq. intros [= <-].
    apply flat_map_keys_sorted.
    + intros i x Hx. apply F_handler_problems_inv in Hx.
      now destruct Hx as [_ [j [_ [_ ->]]]].
    + apply F_handler_problems_length.
Qed.

(** ** The identifiers that are reported, and the two line filters *)

Lemma rmatch_group (r : regex) (m q : mstate) :
  In q (rmatch (Group r) m) <->
  exists p, In p (rmatch r m) /\
            q = MState (prev p) (rest p) (Some (consumed m p)).
Proof.
  cbn [rmatch]. rewrite in_map_iff. split.
  - intros [p [<- Hp]]. now exists p.
  - intros [p [Hp ->]]. now exists p.
Qed.

Lemma consumed_app (m p : mstate) (w : text) :
  rest m = w ++ rest p -> consumed m p = w.
Proof.
  intros H. unfold consumed. rewrite H, length_app.
  replace (length w + length (rest p) - length (rest p)) with (length w)
    by lia.
  rewrite firstn_app, Nat.sub_diag, firstn_all. simpl. apply app_nil_r.
Qed.

(** An element of [findall] is group 1 of the first match at some position
    of the text. *)
Lemma findall_from_sound (r : regex) (v : text) :
  forall s skip pv,
    In v (findall_from r skip pv s) ->
    exists a b q qs,
      s = a ++ b /\
      rmatch r (MState (prev_after pv a) b None) = q :: qs /\
      v = group1 q.
Proof.
  induction s as [|c s IH]; intros skip pv Hin.
  - destruct skip; simpl in Hin; [|easy].
    destruct (rmatch r (MState pv [] None)) as [|q qs] eqn:E; [easy|].
    destruct Hin as [<- | []]. now exists [], [], q, qs.
  - destruct skip as [|k].
    + cbn [findall_from] in Hin.
      destruct (rmatch r (MState pv (c :: s) None)) as [|q qs] eqn:E.
      * destruct (IH _ _ Hin) as [a [b [q [qs [-> [Hq ->]]]]]].
        now exists (c :: a), b, q, qs.
      * destruct Hin as [<- | Hin]; [now exists [], (c :: s), q, qs|].
        destruct (IH _ _ Hin) as [a [b [q' [qs' [-> [Hq ->]]]]]].
        now exists (c :: a), b, q', qs'.
    + simpl in Hin.
      destruct (IH _ _ Hin) as [a [b [q [qs [-> [Hq ->]]]]]].
      now exists (c :: a), b, q, qs.
Qed.

(** A placeholder that [findall] gives stands in the line, and its name is
    a non-empty run of word characters. *)
Lemma template_var_shape (l v : text) :
  In v (findall G.template_re l) ->
  v <> [] /\ forallb is_word v = true /\
  contains (str "${" ++ v ++ str "}") l = true.
Proof.
  intros H. apply findall_from_sound in H.
  destruct H as [a [b [q [qs [-> [Hq ->]]]]]].
  assert (Hin : In q (rmatch G.template_re (MState (prev_after None a) b None)))
    by (rewrite Hq; now left).
  unfold G.template_re in Hin.
  apply rmatch_seq in Hin. destruct Hin as [p1 [H1 Hin]].
  apply rmatch_seq in Hin. destruct Hin as [p2 [H2 Hin]].
  apply rmatch_lit in H1. destruct H1 as [E1 _]. simpl in E1.
  apply rmatch_group in H2. destruct H2 as [p [Hp ->]].
  apply rmatch_plus in Hp. destruct Hp as [w [Hw [Ew [Sw _]]]].
  apply rmatch_lit in Hin. destruct Hin as [E3 [_ E4]]. simpl in E3, E4.
  unfold group1. rewrite E4, (consumed_app _ _ _ Ew).
  repeat split; auto.
  apply contains_iff. exists a, (rest q).
  rewrite E1, Ew, E3. now rewrite <- !app_assoc.
Qed.

(** X3.  Every identifier listed in a finding is a non-empty run of word
    characters, and it stands as a placeholder [${name}] in one of the body
    lines that the loop read for the handler of the finding. *)
Theorem reported_identifier_is_a_placeholder (path : text)
  (lines : list text) (issues : list G.issue) (iss : G.issue) (v : text) :
  G.check_lines path lines = Some issues ->
  In iss issues -> In v (G.variables iss) ->
  v <> [] /\ forallb is_word v = true /\
  exists i j,
    G.line iss = i + 1 /\ In j (G.body_lines lines i) /\
    contains (str "${" ++ v ++ str "}") (line_at lines j) = true.
Proof.
  intros Hc Hiss Hv.
  destruct (G_issue_origin _ _ _ _ Hc Hiss) as [i [_ Hi]].
  apply G_handler_issues_inv in Hi. destruct Hi as [_ [_ ->]].
  simpl in Hv. apply G_scan_body_in in Hv.
  destruct Hv as [[] | [j [Hj [Hf _]]]].
  destruct (template_var_shape _ _ Hf) as [H1 [H2 H3]].
  repeat split; auto. exists i, j. now repeat split.
Qed.

Lemma reported_identifier_is_a_placeholder_witness :
  str "itemId" <> [] /\ forallb is_word (str "itemId") = true /\
  exists i j,
    2 = i + 1 /\ In j (G.body_lines toast_item_scenario i) /\
    contains (str "${" ++ str "itemId" ++ str "}")
             (line_at toast_item_scenario j) = true.
Proof.
  apply (reported_identifier_is_a_placeholder
           (str "src/m.tsx") toast_item_scenario
           [G.Issue (str "src/m.tsx") 2 (str "m") [str "itemId"]
                    (str "onError: (error) => {")]
           (G.Issue (str "src/m.tsx") 2 (str "m") [str "itemId"]
                    (str "onError: (error) => {"))).
  - vm_compute. reflexivity.
  - now left.
  - now left.
Defined.

Lemma rmatch_in_nonempty (r : regex) (m q : mstate) :
  In q (rmatch r m) -> rmatch r m <> [].
Proof. intros H E. rewrite E in H. destruct H. Qed.

Ltac pick_alt :=
  first
    [ apply rmatch_lit; now repeat split
    | apply rmatch_alt;
      first [ left; apply rmatch_lit; now repeat split | right; pick_alt ] ].

(** X4.  An identifier that follows, on the same line, one of the words
    error, const, let, var, function, return, if, for, while and white
    space is not kept from that line, wherever on the line this stands. *)
Theorem declared_on_the_line_is_not_flagged
  (l a kw ws v b : text) (vars : list text) :
  In kw (map str ["error"; "const"; "let"; "var"; "function"; "return";
                  "if"; "for"; "while"]%string) ->
  ws <> [] -> forallb is_space ws = true ->
  l = a ++ kw ++ ws ++ v ++ b ->
  G.suspicious l v = false /\ G.add_var l vars v = vars.
Proof.
  intros Hkw Hws Hsp ->.
  assert (Hf : found (search (G.decl_re v)
                             (a ++ kw ++ ws ++ v ++ b)) = true).
  { apply search_from_complete. unfold G.decl_re.
    set (m := MState (prev_after None a) (kw ++ ws ++ v ++ b) None).
    set (p1 := MState (prev_after (prev_after None a) kw) (ws ++ v ++ b) None).
    apply rmatch_in_nonempty
      with (q := MState (prev_after (prev_after (prev_after
                           (prev_after None a) kw) ws) v) b
                        (Some (consumed m p1))).
    apply rmatch_seq.
    exists (MState (prev p1) (rest p1) (Some (consumed m p1))). split.
    - apply rmatch_group. exists p1. split; [|reflexivity].
      unfold m, p1. simpl in Hkw.
      repeat (destruct Hkw as [<- | Hkw]; [pick_alt|]). destruct Hkw.
    - apply rmatch_seq.
      exists (MState (prev_after (prev_after (prev_after None a) kw) ws)
                     (v ++ b) (Some (consumed m p1))). split.
      + apply rmatch_plus. exists ws. now repeat split.
      + apply rmatch_lit. now repeat split. }
  assert (Hs : G.suspicious (a ++ kw ++ ws ++ v ++ b) v = false).
  { unfold G.suspicious. rewrite Hf. simpl. apply andb_false_r. }
  split; [exact Hs|]. unfold G.add_var. now rewrite Hs.
Qed.

Lemma declared_on_the_line_is_not_flagged_witness :
  G.suspicious (str "const total = 5; toast(`${total}`);") (str "total")
    = false /\
  G.add_var (str "const total = 5; toast(`${total}`);") [] (str "total") = [].
Proof.
  apply (declared_on_the_line_is_not_flagged
           (str "const total = 5; toast(`${total}`);")
           [] (str "const") (str " ") (str "total")
           (str " = 5; toast(`${total}`);") []).
  - simpl. right. now left.
  - discriminate.
  - reflexivity.
  - reflexivity.
Defined.

Lemma space_not_word (c : ascii) : is_space c = true -> is_word c = false.
Proof.
  destruct c as [[] [] [] [] [] [] [] []]; vm_compute; congruence.
Qed.

Lemma marker_not_word (c : ascii) : one_of ".:[" c = true -> is_word c = false.
Proof.
  destruct c as [[] [] [] [] [] [] [] []]; vm_compute; congruence.
Qed.

Lemma prev_after_word (v : text) :
  v <> [] -> forallb is_word v = true ->
  forall pv, word_opt (prev_after pv v) = true.
Proof.
  induction v as [|c v IH]; intros Hne Hw pv; [now elim Hne|].
  simpl in Hw. apply andb_prop in Hw. destruct Hw as [Hc Hv].
  destruct v as [|d v].
  - simpl. exact Hc.
  - change (prev_after pv (c :: d :: v))
      with (prev_after (Some c) (d :: v)).
    apply IH; [discriminate | exact Hv].
Qed.

(** X5.  An identifier that stands on the line as a whole word followed,
    after optional white space, by a dot, a colon or an opening bracket is
    not kept from that line. *)
Theorem member_access_is_not_flagged (l a v ws b : text) (c : ascii)
  (vars : list text) :
  v <> [] -> forallb is_word v = true ->
  word_opt (prev_after None a) = false ->
  forallb is_space ws = true -> one_of ".:[" c = true ->
  l = a ++ v ++ ws ++ c :: b ->
  G.suspicious l v = false /\ G.add_var l vars v = vars.
Proof.
  intros Hne Hw Hprev Hsp Hc ->.
  assert (Hf : found (search (G.member_re v)
                             (a ++ v ++ ws ++ c :: b)) = true).
  { apply search_from_complete. unfold G.member_re.
    set (m := MState (prev_after None a) (v ++ ws ++ c :: b) None).
    set (p := MState (prev_after (prev_after None a) v) (ws ++ c :: b) None).
    apply rmatch_in_nonempty
      with (q := MState (Some c) b None).
    apply rmatch_seq. exists m. split.
    { apply rmatch_wordb. split; [reflexivity|]. unfold m. simpl.
      rewrite Hprev. destruct v as [|d v]; [now elim Hne|].
      simpl in Hw. apply andb_prop in Hw. simpl. now destruct Hw as [-> _]. }
    apply rmatch_seq. exists p. split.
    { apply rmatch_lit. now repeat split. }
    apply rmatch_seq. exists p. split.
    { apply rmatch_wordb. split; [reflexivity|]. unfold p. simpl.
      rewrite (prev_after_word v Hne Hw).
      destruct ws as [|d ws]; simpl.
      - now rewrite (marker_not_word c Hc).
      - simpl in Hsp. apply andb_prop in Hsp. destruct Hsp as [Hd _].
        now rewrite (space_not_word d Hd). }
    apply rmatch_seq.
    exists (MState (prev_after (prev_after (prev_after None a) v) ws)
                   (c :: b) None). split.
    { apply rmatch_star. exists ws. now repeat split. }
    cbn [rmatch rest]. rewrite Hc. now left. }
  assert (Hs : G.suspicious (a ++ v ++ ws ++ c :: b) v = false).
  { unfold G.suspicious. rewrite Hf. cbn [negb].
    now rewrite andb_false_r. }
  split; [exact Hs|]. unfold G.add_var. now rewrite Hs.
Qed.

Lemma member_access_is_not_flagged_witness :
  G.suspicious (str "toast(`${user}`, user.name);") (str "user") = false /\
  G.add_var (str "toast(`${user}`, user.name);") [] (str "user") = [].
Proof.
  apply (member_access_is_not_flagged
           (str "toast(`${user}`, user.name);")
           (str "toast(`${user}`, ") (str "user") [] (str "name);") "."%char []).
  - discriminate.
  - reflexivity.
  - reflexivity.
  - reflexivity.
  - reflexivity.
  - reflexivity.
Defined.

(** ** The runs over the files *)

Lemma G_check_file_returns (fs : filesystem) (p : text) :
  exists issues, G.check_file fs p = Some issues.
Proof.
  unfold G.check_file. destruct (fs p); [|now exists []].
  rewrite G_check_lines_eq. eauto.
Qed.

Lemma F_check_file_returns (fs : filesystem) (p : text) :
  exists problems, F.check_file fs p = Some problems.
Proof.
  unfold F.check_file. destruct (fs p); [|now exists []].
  rewrite F_check_lines_eq. eauto.
Qed.

Lemma G_collect_app (fs : filesystem) (qs : list text) :
  forall ps acc,
    G.collect fs (ps ++ qs) acc =
    match G.collect fs ps acc with
    | Some l => G.collect fs qs l
    | None => None
    end.
Proof.
  induction ps as [|p ps IH]; intros acc; cbn [app G.collect]; [reflexivity|].
  destruct (contains (str "node_modules") p); [apply IH|].
  destruct (G.check_file fs p); [apply IH | reflexivity].
Qed.

Lemma G_collect_acc (fs : filesystem) :
  forall ps acc,
    G.collect fs ps acc =
    match G.collect fs ps [] with
    | Some l => Some (acc ++ l)
    | None => None
    end.
Proof.
  induction ps as [|p ps IH]; intros acc; cbn [G.collect].
  - now rewrite app_nil_r.
  - destruct (contains (str "node_modules") p); [apply IH|].
    destruct (G.check_file fs p) as [l|]; [|reflexivity].
    rewrite IH. rewrite (IH ([] ++ l)).
    destruct (G.collect fs ps []); [|reflexivity].
    simpl. now rewrite app_assoc.
Qed.

Lemma G_collect_files (fs : filesystem) :
  forall ps acc issues iss,
    G.collect fs ps acc = Some issues -> In iss issues ->
    In iss acc \/
    (In (G.file iss) ps /\
     contains (str "node_modules") (G.file iss) = false).
Proof.
  induction ps as [|p ps IH]; intros acc issues iss; cbn [G.collect].
  - intros [= <-] H. now left.
  - destruct (contains (str "node_modules") p) eqn:En.
    + intros Hc Hi. destruct (IH _ _ _ Hc Hi) as [H | [H1 H2]]; auto.
      right. split; [now right | exact H2].
    + destruct (G.check_file fs p) as [l|] eqn:Ef; [|discriminate].
      intros Hc Hi. destruct (IH _ _ _ Hc Hi) as [H | [H1 H2]].
      * apply in_app_or in H. destruct H as [H | H]; [now left|].
        right. unfold G.check_file in Ef.
        destruct (fs p) as [content|]; [|injection Ef as <-; destruct H].
        destruct (G_issue_origin _ _ _ _ Ef H) as [i [_ Hin]].
        apply G_handler_issues_inv in Hin. destruct Hin as [_ [_ ->]].
        simpl. split; [now left | exact En].
      * right. split; [now right | exact H2].
Qed.

(** X6.  The run of the generic mode passes over every path that holds
    [node_modules]: the result is the one of the run without that path,
    whatever the file holds. *)
Theorem node_modules_paths_are_passed_over (fs : filesystem)
  (before after : list text) (p : text) :
  contains (str "node_modules") p = true ->
  G.main fs (before ++ p :: after) = G.main fs (before ++ after).
Proof.
  intros Hp. unfold G.main. rewrite !G_collect_app.
  destruct (G.collect fs before []); [|reflexivity].
  cbn [G.collect]. now rewrite Hp.
Qed.

Lemma node_modules_paths_are_passed_over_witness :
  G.main one_file_fs ([] ++ str "node_modules/x/src/a.tsx" :: [str "src/a.tsx"])
  = G.main one_file_fs ([] ++ [str "src/a.tsx"]).
Proof.
  apply (node_modules_paths_are_passed_over one_file_fs []
           [str "src/a.tsx"] (str "node_modules/x/src/a.tsx")).
  reflexivity.
Defined.

(** X7.  The run of the generic mode always returns; the findings of two
    lists of paths run one after the other are the findings of the first
    list followed by those of the second; and every finding names, as its
    file, one of the paths given, and never one that holds
    [node_modules]. *)
Theorem run_is_file_by_file (fs : filesystem) :
  (forall ps, exists issues, G.main fs ps = Some issues) /\
  (forall ps qs a b,
      G.main fs ps = Some a -> G.main fs qs = Some b ->
      G.main fs (ps ++ qs) = Some (a ++ b)) /\
  (forall ps issues iss,
      G.main fs ps = Some issues -> In iss issues ->
      In (G.file iss) ps /\
      contains (str "node_modules") (G.file iss) = false).
Proof.
  split; [|split].
  - unfold G.main. intros ps. generalize (@nil G.issue).
    induction ps as [|p ps IH]; intros acc; cbn [G.collect]; [eauto|].
    destruct (contains (str "node_modules") p); [apply IH|].
    destruct (G_check_file_returns fs p) as [l ->]. apply IH.
  - intros ps qs a b Ha Hb. unfold G.main in *.
    rewrite G_collect_app, Ha, G_collect_acc, Hb. reflexivity.
  - intros ps issues iss Hc Hi.
    destruct (G_collect_files _ _ _ _ _ Hc Hi) as [[] | H]. exact H.
Qed.

(** ** The first line that the single-name mode reports *)

Lemma seq_split (front : list nat) (j : nat) (tl : list nat) :
  forall a n,
    seq a n = front ++ j :: tl ->
    j = a + length front /\ forall k, In k tl -> j < k.
Proof.
  induction front as [|x front IH]; intros a n H.
  - destruct n as [|n]; [discriminate|]. simpl in H. injection H as <- <-.
    split; [simpl; lia|]. intros k Hk. apply in_seq in Hk. lia.
  - destruct n as [|n]; [discriminate|]. simpl in H. injection H as <- H.
    destruct (IH _ _ H) as [H1 H2]. split; [simpl; lia | exact H2].
Qed.

Lemma F_scan_body_first (path : text) (lines : list text) (i : nat)
  (p : F.problem) :
  forall js,
    In p (F.scan_body path lines i js) ->
    exists front j tl,
      js = front ++ j :: tl /\
      (forall k, In k front ->
                 F.reports (line_at lines k) = false /\
                 F.stops (line_at lines k) = false) /\
      F.reports (line_at lines j) = true /\
      p = F.Problem path (j + 1) (strip (line_at lines j)) (i + 1).
Proof.
  induction js as [|j js IH]; simpl; [easy|].
  destruct (F.reports (line_at lines j)) eqn:Er.
  - intros [<- | []]. exists [], j, js. repeat split; easy.
  - destruct (F.stops (line_at lines j)) eqn:Es; [easy|].
    intros H. destruct (IH H) as [front [k [tl [H1 [H2 [H3 H4]]]]]].
    exists (j :: front), k, tl. repeat split; auto.
    + simpl. now rewrite H1.
    + destruct H0 as [<- | H0]; [exact Er | now apply H2].
    + destruct H0 as [<- | H0]; [exact Es | now apply H2].
Qed.

(** X8.  What the single-name mode reports for a handler is the first line
    after the signature line that holds the word [id] and nothing of the
    exclusion pattern: no line between the two holds such an [id], is a
    closing line or starts a [const] binding. *)
Theorem reported_line_is_the_first_hit (path : text) (lines : list text)
  (problems : list F.problem) (p : F.problem) :
  F.check_lines path lines = Some problems -> In p problems ->
  F.reports (line_at lines (F.line_num p - 1)) = true /\
  F.line p = strip (line_at lines (F.line_num p - 1)) /\
  forall k, F.onError_line p <= k -> k + 1 < F.line_num p ->
            F.reports (line_at lines k) = false /\
            F.stops (line_at lines k) = false.
Proof.
  intros Hc Hp.
  destruct (F_problem_origin _ _ _ _ Hc Hp) as [i [_ Hin]].
  unfold F.handler_problems in Hin.
  destruct (F.is_handler lines i); [|destruct Hin].
  apply F_scan_body_first in Hin.
  destruct Hin as [front [j [tl [Hjs [Hfront [Hr ->]]]]]]. simpl.
  replace (j + 1 - 1) with j by lia. repeat split; auto.
  - apply Hfront. unfold F.body_window, range in Hjs.
    pose proof (seq_split _ _ _ _ _ Hjs) as [Hj Htl].
    assert (Hk : In k (seq (i + 1) (Nat.min (i + 21) (length lines) - (i + 1)))).
    { apply in_seq. assert (In j (seq (i + 1)
                 (Nat.min (i + 21) (length lines) - (i + 1)))).
      { rewrite Hjs. apply in_or_app. right. now left. }
      apply in_seq in H1. lia. }
    rewrite Hjs in Hk. apply in_app_or in Hk.
    destruct Hk as [Hk | [Hk | Hk]]; [exact Hk | lia |].
    specialize (Htl k Hk). lia.
  - apply Hfront. unfold F.body_window, range in Hjs.
    pose proof (seq_split _ _ _ _ _ Hjs) as [Hj Htl].
    assert (Hk : In k (seq (i + 1) (Nat.min (i + 21) (length lines) - (i + 1)))).
    { apply in_seq. assert (In j (seq (i + 1)
                 (Nat.min (i + 21) (length lines) - (i + 1)))).
      { rewrite Hjs. apply in_or_app. right. now left. }
      apply in_seq in H1. lia. }
    rewrite Hjs in Hk. apply in_app_or in Hk.
    destruct Hk as [Hk | [Hk | Hk]]; [exact Hk | lia |].
    specialize (Htl k Hk). lia.
Qed.

Lemma reported_line_is_the_first_hit_witness :
  F.reports (line_at bare_id_file (3 - 1)) = true /\
  str "remove(id);" = strip (line_at bare_id_file (3 - 1)) /\
  forall k, 1 <= k -> k + 1 < 3 ->
            F.reports (line_at bare_id_file k) = false /\
            F.stops (line_at bare_id_file k) = false.
Proof.
  apply (reported_line_is_the_first_hit (str "src/b.tsx") bare_id_file
           [F.Problem (str "src/b.tsx") 3 (str "remove(id);") 1]
           (F.Problem (str "src/b.tsx") 3 (str "remove(id);") 1)).
  - vm_compute. reflexivity.
  - now left.
Defined.

(** ** Lines and their join *)

Lemma split_lines_nonempty (s : text) : split_lines s <> [].
Proof.
  destruct s as [|a s]; simpl; [discriminate|].
  destruct (Ascii.eqb a newline); [discriminate|].
  destruct (split_lines s); discriminate.
Qed.

Lemma join_lines_cons (l : text) (ls : list text) :
  ls <> [] -> join_lines (l :: ls) = l ++ newline :: join_lines ls.
Proof. destruct ls; [now intros H; elim H | reflexivity]. Qed.

Lemma join_split (s : text) : join_lines (split_lines s) = s.
Proof.
  induction s as [|a s IH]; simpl; [reflexivity|].
  destruct (Ascii.eqb a newline) eqn:E.
  - apply Ascii.eqb_eq in E. subst a.
    rewrite join_lines_cons by apply split_lines_nonempty.
    simpl. now rewrite IH.
  - pose proof (split_lines_nonempty s) as Hne.
    destruct (split_lines s) as [|l ls]; [now elim Hne|].
    destruct ls as [|l' ls].
    + simpl in *. now rewrite IH.
    + change (join_lines ((a :: l) :: l' :: ls))
        with (a :: (l ++ newline :: join_lines (l' :: ls))).
      change (join_lines (l :: l' :: ls))
        with (l ++ newline :: join_lines (l' :: ls)) in IH.
      now rewrite IH.
Qed.

Lemma split_lines_one_line (s : text) : Forall one_line (split_lines s).
Proof.
  induction s as [|a s IH]; simpl.
  - constructor; [|constructor]. intros [].
  - destruct (Ascii.eqb a newline) eqn:E.
    + constructor; [intros [] | exact IH].
    + apply Ascii.eqb_neq in E.
      destruct (split_lines s) as [|l ls].
      * constructor; [|constructor]. intros [H | []]. now elim E.
      * inversion IH as [|? ? Hl Hls]; subst. constructor; [|exact Hls].
        intros [H | H]; [now elim E | now apply Hl].
Qed.

Lemma split_lines_app_line (l : text) :
  one_line l ->
  forall s, split_lines (l ++ newline :: s) = l :: split_lines s.
Proof.
  induction l as [|a l IH]; intros Hl s.
  - cbn [app split_lines]. now rewrite Ascii.eqb_refl.
  - cbn [app split_lines]. destruct (Ascii.eqb a newline) eqn:E.
    + apply Ascii.eqb_eq in E. subst a. elim Hl. now left.
    + rewrite IH; [reflexivity|]. intros H. apply Hl. now right.
Qed.

Lemma split_lines_single (l : text) : one_line l -> split_lines l = [l].
Proof.
  induction l as [|a l IH]; intros Hl; simpl; [reflexivity|].
  destruct (Ascii.eqb a newline) eqn:E.
  - apply Ascii.eqb_eq in E. subst a. elim Hl. now left.
  - rewrite IH; [reflexivity|]. intros H. apply Hl. now right.
Qed.

Lemma split_join (ls : list text) :
  ls <> [] -> Forall one_line ls -> split_lines (join_lines ls) = ls.
Proof.
  induction ls as [|l ls IH]; intros Hne Hall; [now elim Hne|].
  inversion Hall as [|? ? Hl Hls]; subst.
  destruct ls as [|l' ls].
  - simpl. now apply split_lines_single.
  - rewrite join_lines_cons by discriminate.
    rewrite split_lines_app_line by exact Hl.
    f_equal. apply IH; [discriminate | exact Hls].
Qed.

(** X9.  Cutting a text into lines and joining the lines again gives the
    text back; the cut gives at least one line and no line holds a line
    break; and joining lines without line breaks, at least one, and cutting
    the result gives the lines back. *)
Theorem split_and_join_are_inverse :
  (forall s, join_lines (split_lines s) = s) /\
  (forall s, split_lines s <> [] /\ Forall one_line (split_lines s)) /\
  (forall ls, ls <> [] -> Forall one_line ls ->
              split_lines (join_lines ls) = ls).
Proof.
  split; [exact join_split|]. split; [|exact split_join].
  intros s. split; [apply split_lines_nonempty | apply split_lines_one_line].
Qed.

(** * The import fixers *)

Module FI := FixImports.
Module FB := FixBrokenImports.

Lemma contains_trans (x y l : text) :
  contains x y = true -> contains y l = true -> contains x l = true.
Proof.
  intros H1 H2. apply contains_iff in H1. apply contains_iff in H2.
  destruct H1 as [a [b ->]]. destruct H2 as [c [d ->]].
  apply contains_iff. exists (c ++ a), (b ++ d).
  now rewrite <- !app_assoc.
Qed.

Lemma logger_import_has_brace (l : text) :
  contains logger_import l = true -> contains (str "}") l = true.
Proof. apply contains_trans. vm_compute. reflexivity. Qed.

Lemma slice_nil (lines : list text) (i : nat) : slice lines i i = [].
Proof. unfold slice. now rewrite range_nil. Qed.

Lemma slice_cons (lines : list text) (i i' : nat) :
  i < i' -> slice lines i i' = line_at lines i :: slice lines (i + 1) i'.
Proof. intros H. unfold slice. now rewrite (range_cons _ _ H). Qed.

Lemma slice_snoc (lines : list text) (i i' : nat) :
  i <= i' -> slice lines i (i' + 1) = slice lines i i' ++ [line_at lines i'].
Proof.
  intros H. unfold slice. now rewrite (range_snoc _ _ H), map_app.
Qed.

Lemma slice_app (lines : list text) (i j k : nat) :
  i <= j -> j <= k -> slice lines i k = slice lines i j ++ slice lines j k.
Proof.
  intros H1 H2. unfold slice, range. rewrite <- map_app. f_equal.
  replace (k - i) with ((j - i) + (k - j)) by lia.
  rewrite seq_app. do 2 f_equal. lia.
Qed.

Lemma slice_all (lines : list text) : slice lines 0 (length lines) = lines.
Proof.
  unfold slice, range, line_at. rewrite Nat.sub_0_r.
  induction lines as [|l lines IH]; [reflexivity|].
  simpl. f_equal. rewrite <- seq_shift, map_map. exact IH.
Qed.

(** The inner loop: where it stops and what it leaves. *)
Lemma FI_read_block_spec (lines : list text) :
  forall fuel i nl rm,
    length lines - i < fuel ->
    exists i',
      FI.read_block fuel lines i nl rm = Some (i', nl ++ slice lines i i', rm) /\
      i <= i' /\ (i' <= length lines \/ i' = i) /\
      (forall k, i <= k < i' -> contains (str "}") (line_at lines k) = false) /\
      (i' < length lines -> contains (str "}") (line_at lines i') = true).
Proof.
  induction fuel as [|fuel IH]; intros i nl rm Hf; [lia|].
  cbn [FI.read_block].
  destruct (i <? length lines) eqn:Ei; cbn [andb].
  - apply Nat.ltb_lt in Ei.
    destruct (contains (str "}") (line_at lines i)) eqn:Eb; cbn [negb].
    + exists i. rewrite slice_nil, app_nil_r.
      repeat split; auto; intros; lia.
    + assert (El : contains logger_import (line_at lines i) = false).
      { destruct (contains logger_import (line_at lines i)) eqn:E;
          [|reflexivity].
        apply logger_import_has_brace in E. congruence. }
      rewrite El. cbn [negb].
      destruct (IH (i + 1) (nl ++ [line_at lines i]) rm) as
        [i' [H1 [H2 [H3 [H4 H5]]]]]; [lia|].
      exists i'. rewrite H1. split.
      * rewrite (slice_cons lines i i') by lia.
        now rewrite <- app_assoc.
      * repeat split; auto; try lia.
        intros k Hk. destruct (Nat.eq_dec k i) as [-> | Hne]; [exact Eb|].
        apply H4. lia.
  - apply Nat.ltb_ge in Ei. exists i. rewrite slice_nil, app_nil_r.
    repeat split; auto; intros; lia.
Qed.

Lemma FI_read_block_keeps (lines : list text) :
  forall fuel i nl rm i' nl' rm',
    FI.read_block fuel lines i nl rm = Some (i', nl', rm') ->
    rm' = rm /\ nl' = nl ++ slice lines i i' /\ i <= i'.
Proof.
  induction fuel as [|fuel IH]; intros i nl rm i' nl' rm'; [discriminate|].
  cbn [FI.read_block].
  destruct ((i <? length lines) &&
            negb (contains (str "}") (line_at lines i))) eqn:E.
  - apply andb_prop in E. destruct E as [_ E]. apply negb_true_iff in E.
    assert (El : contains logger_import (line_at lines i) = false).
    { destruct (contains logger_import (line_at lines i)) eqn:E';
        [|reflexivity].
      apply logger_import_has_brace in E'. congruence. }
    rewrite El. cbn [negb]. intros H.
    destruct (IH _ _ _ _ _ _ H) as [H1 [H2 H3]].
    split; [exact H1|]. split; [|lia].
    rewrite H2, (slice_cons lines i i') by lia. now rewrite <- app_assoc.
  - intros [= <- <- <-]. rewrite slice_nil, app_nil_r. now repeat split.
Qed.

(** X10.  In [fix-imports.py] the loop that reads a multi-line import never
    drops a logger import: a line that holds the logger import holds a
    closing brace, so the loop stops at it and the line is kept as the end of
    the import.  Whatever the loop passes over is appended to [new_lines]
    and [removed_logger_import] is left as it was. *)
Theorem block_loop_never_removes (fuel : nat) (lines : list text) (i : nat)
  (nl : list text) (rm : bool) (i' : nat) (nl' : list text) (rm' : bool) :
  FI.read_block fuel lines i nl rm = Some (i', nl', rm') ->
  rm' = rm /\ nl' = nl ++ slice lines i i' /\
  (i' < length lines -> contains (str "}") (line_at lines i') = true) /\
  (forall l, contains logger_import l = true ->
             contains (str "}") l = true).
Proof.
  intros H. destruct (FI_read_block_keeps _ _ _ _ _ _ _ _ H) as [H1 [H2 H3]].
  repeat split; auto; [|apply logger_import_has_brace].
  intros Hi'. clear H1 H2 H3. revert i nl rm H.
  induction fuel as [|fuel IH]; intros i nl rm; [discriminate|].
  cbn [FI.read_block].
  destruct (i <? length lines) eqn:Ei; cbn [andb].
  - destruct (contains (str "}") (line_at lines i)) eqn:Eb; cbn [negb].
    + now intros [= <- _ _].
    + destruct (negb (contains logger_import (line_at lines i)));
        apply IH.
  - intros [= <- _ _]. apply Nat.ltb_ge in Ei. lia.
Qed.

Lemma block_loop_never_removes_witness :
  false = false /\
  [str "import {"] =
    [str "import {"] ++ slice (split_lines broken_import_file) 1 1 /\
  (1 < length (split_lines broken_import_file) ->
   contains (str "}") (line_at (split_lines broken_import_file) 1) = true) /\
  (forall l, contains logger_import l = true ->
             contains (str "}") l = true).
Proof.
  apply (block_loop_never_removes 5 (split_lines broken_import_file) 1
           [str "import {"] false 1 [str "import {"] false).
  vm_compute. reflexivity.
Defined.

(** ** The loop of [fix-imports.py] *)

Section ScanInvariant.

Variable lines : list text.
Variable Inv : nat -> FI.state -> Prop.

(** A logger import outside a block is passed over. *)
Hypothesis Hlogger :
  forall i nl rm last,
    i < length lines -> Inv i (FI.State nl rm last) ->
    contains logger_import (line_at lines i) = true ->
    Inv (i + 1) (FI.State nl true last).

(** A line that is no import is kept. *)
Hypothesis Hplain :
  forall i nl rm last,
    i < length lines -> Inv i (FI.State nl rm last) ->
    contains logger_import (line_at lines i) = false ->
    is_import (line_at lines i) = false ->
    Inv (i + 1) (FI.State (nl ++ [line_at lines i]) rm last).

(** An import on one line is kept and remembered. *)
Hypothesis Hsingle :
  forall i nl rm last,
    i < length lines -> Inv i (FI.State nl rm last) ->
    contains logger_import (line_at lines i) = false ->
    is_import (line_at lines i) = true ->
    opens_block (line_at lines i) = false ->
    Inv (i + 1)
        (FI.State (nl ++ [line_at lines i]) rm (Z.of_nat (length nl))).

(** A multi-line import that is closed at line [i']. *)
Hypothesis Hclosed :
  forall i nl rm last i',
    i < i' -> i' < length lines -> Inv i (FI.State nl rm last) ->
    contains logger_import (line_at lines i) = false ->
    is_import (line_at lines i) = true ->
    opens_block (line_at lines i) = true ->
    (forall k, i < k < i' ->
               contains (str "}") (line_at lines k) = false) ->
    contains (str "}") (line_at lines i') = true ->
    Inv (i' + 1)
        (FI.State (nl ++ slice lines i (i' + 1)) rm
                  (Z.of_nat (length (nl ++ slice lines i (i' + 1))) - 1)).

(** A multi-line import that is not closed before the file ends. *)
Hypothesis Hopen :
  forall i nl rm last,
    i < length lines -> Inv i (FI.State nl rm last) ->
    contains logger_import (line_at lines i) = false ->
    is_import (line_at lines i) = true ->
    opens_block (line_at lines i) = true ->
    (forall k, i < k < length lines ->
               contains (str "}") (line_at lines k) = false) ->
    Inv (length lines)
        (FI.State (nl ++ slice lines i (length lines)) rm
                  (Z.of_nat (length nl))).

Lemma FI_scan_invariant :
  forall fuel i st,
    length lines - i < fuel -> i <= length lines -> Inv i st ->
    exists st', FI.scan fuel lines i st = Some st' /\
                Inv (length lines) st'.
Proof.
  induction fuel as [|fuel IH]; intros i [nl rm last] Hf Hi HI; [lia|].
  cbn [FI.scan FI.new_lines FI.removed_logger_import FI.last_import_line].
  destruct (i <? length lines) eqn:Ei.
  2:{ apply Nat.ltb_ge in Ei. assert (i = length lines) by lia. subst i.
      eauto. }
  apply Nat.ltb_lt in Ei.
  destruct (contains logger_import (line_at lines i)) eqn:El.
  { apply IH; [lia | lia | eapply Hlogger; eauto]. }
  destruct (is_import (line_at lines i)) eqn:Em.
  2:{ apply IH; [lia | lia | eapply Hplain; eauto]. }
  destruct (opens_block (line_at lines i)) eqn:Eo.
  2:{ apply IH; [lia | lia | eapply Hsingle; eauto]. }
  destruct (FI_read_block_spec lines (length lines) (i + 1)
              (nl ++ [line_at lines i]) rm)
    as [i' [H1 [H2 [H3 [H4 H5]]]]]; [lia|].
  rewrite H1.
  assert (Hnl : (nl ++ [line_at lines i]) ++ slice lines (i + 1) i' =
                nl ++ slice lines i i').
  { rewrite (slice_cons lines i i') by lia. now rewrite <- app_assoc. }
  rewrite Hnl.
  destruct (i' <? length lines) eqn:Ei'.
  - apply Nat.ltb_lt in Ei'.
    assert (Hnl' : (nl ++ slice lines i i') ++ [line_at lines i'] =
                   nl ++ slice lines i (i' + 1)).
    { rewrite (slice_snoc lines i i') by lia. now rewrite app_assoc. }
    rewrite Hnl'. apply IH; [lia | lia |].
    apply (Hclosed i nl rm last i'); auto; try lia.
    intros k Hk. apply H4. lia.
  - apply Nat.ltb_ge in Ei'. assert (i' = length lines) by lia. subst i'.
    apply IH; [lia | lia |].
    apply (Hopen i nl rm last); auto.
    intros k Hk. apply H4. lia.
Qed.

End ScanInvariant.

(** The two loops end, whatever the file. *)
Lemma FI_scan_returns (lines : list text) :
  exists st,
    FI.scan (S (length lines)) lines 0 (FI.State [] false (-1)) = Some st.
Proof.
  destruct (FI_scan_invariant lines (fun _ _ => True))
    with (fuel := S (length lines)) (i := 0)
         (st := FI.State [] false (-1)%Z) as [st [H _]]; auto; try lia.
  now exists st.
Qed.

Lemma other_lines_app (xs ys : list text) :
  other_lines (xs ++ ys) = other_lines xs ++ other_lines ys.
Proof. apply filter_app. Qed.

Lemma other_lines_logger (l : text) :
  contains logger_import l = true -> other_lines [l] = [].
Proof. intros H. unfold other_lines. simpl. now rewrite H. Qed.

Lemma other_lines_insert (k : nat) (nl : list text) :
  other_lines (insert_at k logger_import_line nl) = other_lines nl.
Proof.
  unfold insert_at. rewrite other_lines_app.
  change (logger_import_line :: skipn k nl)
    with ([logger_import_line] ++ skipn k nl).
  rewrite other_lines_app, other_lines_logger by (vm_compute; reflexivity).
  simpl. now rewrite <- other_lines_app, firstn_skipn.
Qed.

Lemma in_insert_at (k : nat) (x l : text) (nl : list text) :
  In l (insert_at k x nl) -> In l nl \/ l = x.
Proof.
  unfold insert_at. intros H. apply in_app_or in H.
  destruct H as [H | [H | H]].
  - left. rewrite <- (firstn_skipn k nl). apply in_or_app. now left.
  - now right.
  - left. rewrite <- (firstn_skipn k nl). apply in_or_app. now right.
Qed.

Lemma in_slice (lines : list text) (i i' : nat) (l : text) :
  i' <= length lines -> In l (slice lines i i') -> In l lines.
Proof.
  intros Hi H. unfold slice in H. apply in_map_iff in H.
  destruct H as [k [<- Hk]]. apply range_bounds in Hk.
  unfold line_at. apply nth_In. lia.
Qed.

Lemma FI_scan_keeps (lines : list text) :
  exists st,
    FI.scan (S (length lines)) lines 0 (FI.State [] false (-1)) = Some st /\
    other_lines (FI.new_lines st) = other_lines lines /\
    forall l, In l (FI.new_lines st) -> In l lines.
Proof.
  destruct (FI_scan_invariant lines
              (fun i st =>
                 i <= length lines /\
                 other_lines (FI.new_lines st) =
                   other_lines (slice lines 0 i) /\
                 forall l, In l (FI.new_lines st) ->
                           In l (slice lines 0 i)))
    with (fuel := S (length lines)) (i := 0)
         (st := FI.State [] false (-1)%Z) as [st [H [_ [H1 H2]]]].
  - intros i nl rm last Hi [_ [I1 I2]] Hl. cbn [FI.new_lines] in *.
    split; [lia|]. rewrite (slice_snoc lines 0 i) by lia. split.
    + now rewrite other_lines_app, other_lines_logger, app_nil_r.
    + intros l Hin. apply in_or_app. left. now apply I2.
  - intros i nl rm last Hi [_ [I1 I2]] Hl Hm. cbn [FI.new_lines] in *.
    split; [lia|]. rewrite (slice_snoc lines 0 i) by lia. split.
    + now rewrite !other_lines_app, I1.
    + intros l Hin. apply in_app_or in Hin. apply in_or_app.
      destruct Hin as [Hin | Hin]; [left; now apply I2 | now right].
  - intros i nl rm last Hi [_ [I1 I2]] Hl Hm Ho. cbn [FI.new_lines] in *.
    split; [lia|]. rewrite (slice_snoc lines 0 i) by lia. split.
    + now rewrite !other_lines_app, I1.
    + intros l Hin. apply in_app_or in Hin. apply in_or_app.
      destruct Hin as [Hin | Hin]; [left; now apply I2 | now right].
  - intros i nl rm last i' Hii' Hi' [_ [I1 I2]] Hl Hm Ho Hk Hb.
    cbn [FI.new_lines] in *. split; [lia|].
    rewrite (slice_app lines 0 i (i' + 1)) by lia. split.
    + now rewrite !other_lines_app, I1.
    + intros l Hin. apply in_app_or in Hin. apply in_or_app.
      destruct Hin as [Hin | Hin]; [left; now apply I2 | now right].
  - intros i nl rm last Hi [_ [I1 I2]] Hl Hm Ho Hk.
    cbn [FI.new_lines] in *. split; [lia|].
    rewrite (slice_app lines 0 i (length lines)) by lia. split.
    + now rewrite !other_lines_app, I1.
    + intros l Hin. apply in_app_or in Hin. apply in_or_app.
      destruct Hin as [Hin | Hin]; [left; now apply I2 | now right].
  - lia.
  - lia.
  - rewrite slice_nil. repeat split; auto. lia.
  - exists st. rewrite slice_all in H1, H2. now repeat split.
Qed.

(** X11.  For every content, the two nested loops of [fix-imports.py] end,
    and the lines that they leave, with the logger import put back, are the
    lines of the file without some logger imports, plus at most the one
    logger import line: the lines that do not hold the logger import are
    all kept, unchanged and in their order. *)
Theorem fix_imports_keeps_other_lines (content : text) :
  exists new_lines,
    FI.new_content content = Some (join_lines new_lines) /\
    other_lines new_lines = other_lines (split_lines content) /\
    forall l, In l new_lines ->
              In l (split_lines content) \/ l = logger_import_line.
Proof.
  destruct (FI_scan_keeps (split_lines content)) as [st [H [H1 H2]]].
  exists (FI.with_logger_import content st). unfold FI.new_content.
  rewrite H. split; [reflexivity|]. unfold FI.with_logger_import.
  destruct (FI.removed_logger_import st ||
            negb (contains logger_import content)); [|now split; auto].
  destruct (0 <=? FI.last_import_line st)%Z; [|now split; auto].
  split.
  - now rewrite other_lines_insert.
  - intros l Hl. apply in_insert_at in Hl. destruct Hl as [Hl | Hl]; auto.
Qed.

(** ** A text inside joined lines *)

Lemma join_lines_in (l : text) :
  forall ls, In l ls -> exists a b, join_lines ls = a ++ l ++ b.
Proof.
  induction ls as [|x ls IH]; intros H; [destruct H|].
  destruct ls as [|y ls].
  - destruct H as [-> | []]. exists [], []. simpl. now rewrite app_nil_r.
  - rewrite join_lines_cons by discriminate. destruct H as [-> | H].
    + exists [], (newline :: join_lines (y :: ls)). reflexivity.
    + destruct (IH H) as [a [b E]]. rewrite E.
      exists (x ++ newline :: a), b. now rewrite <- app_assoc.
Qed.

Lemma contains_join (x l : text) (ls : list text) :
  In l ls -> contains x l = true -> contains x (join_lines ls) = true.
Proof.
  intros Hin Hx. apply contains_trans with (y := l); [exact Hx|].
  destruct (join_lines_in l ls Hin) as [a [b ->]].
  apply contains_iff. now exists a, b.
Qed.

Lemma contains_app_sep (x l r : text) :
  one_line x -> contains x (l ++ newline :: r) = true ->
  contains x l = true \/ contains x r = true.
Proof.
  intros Hx H. apply contains_iff in H. destruct H as [a [b E]].
  apply app_eq_app in E. destruct E as [m [[E1 E2] | [E1 E2]]].
  - apply app_eq_app in E2. destruct E2 as [m' [[E3 E4] | [E3 E4]]].
    + destruct m' as [|c m'].
      * left. apply contains_iff. exists a, []. rewrite app_nil_r in *.
        now subst.
      * injection E4 as <- _. elim Hx. rewrite E3.
        apply in_or_app. right. now left.
    + left. apply contains_iff. exists a, m'. now subst.
  - destruct m as [|c m].
    + simpl in E2. destruct x as [|c x].
      * left. destruct l; reflexivity.
      * injection E2 as <- _. elim Hx. now left.
    + injection E2 as _ E2. right. apply contains_iff. now exists m, b.
Qed.

Lemma contains_join_inv (x : text) :
  one_line x -> x <> [] ->
  forall ls, contains x (join_lines ls) = true ->
             exists l, In l ls /\ contains x l = true.
Proof.
  intros Hx Hne. induction ls as [|l ls IH]; intros H.
  - destruct x as [|c x]; [now elim Hne | simpl in H; discriminate].
  - destruct ls as [|y ls].
    + exists l. split; [now left | exact H].
    + rewrite join_lines_cons in H by discriminate.
      apply contains_app_sep in H; [|exact Hx].
      destruct H as [H | H].
      * exists l. split; [now left | exact H].
      * destruct (IH H) as [l' [H1 H2]]. exists l'. split; [now right|auto].
Qed.

Lemma logger_import_one_line : one_line logger_import.
Proof.
  intros H. vm_compute in H.
  repeat (destruct H as [H | H]; [discriminate|]). exact H.
Qed.

Lemma logger_import_line_one_line : one_line logger_import_line.
Proof.
  intros H. vm_compute in H.
  repeat (destruct H as [H | H]; [discriminate|]). exact H.
Qed.

Lemma other_lines_no_logger (lines : list text) :
  contains logger_import (join_lines (other_lines lines)) = false.
Proof.
  destruct (contains logger_import (join_lines (other_lines lines))) eqn:E;
    [|reflexivity].
  apply contains_join_inv in E;
    [|exact logger_import_one_line | discriminate].
  destruct E as [l [Hl Hc]]. unfold other_lines in Hl.
  apply filter_In in Hl. destruct Hl as [_ Hl]. rewrite Hc in Hl.
  discriminate.
Qed.

Lemma FI_scan_no_other_import (lines : list text) :
  (forall l, In l lines -> is_import l = true ->
             contains logger_import l = true) ->
  exists st,
    FI.scan (S (length lines)) lines 0 (FI.State [] false (-1)) = Some st /\
    FI.new_lines st = other_lines lines /\
    FI.last_import_line st = (-1)%Z.
Proof.
  intros Hno.
  assert (Hline : forall i, i < length lines ->
            is_import (line_at lines i) = true ->
            contains logger_import (line_at lines i) = false -> False).
  { intros i Hi Hm Hl. rewrite (Hno (line_at lines i)) in Hl;
      [discriminate | | exact Hm].
    unfold line_at. now apply nth_In. }
  destruct (FI_scan_invariant lines
              (fun i st =>
                 i <= length lines /\
                 FI.new_lines st = other_lines (slice lines 0 i) /\
                 FI.last_import_line st = (-1)%Z))
    with (fuel := S (length lines)) (i := 0)
         (st := FI.State [] false (-1)%Z) as [st [H [_ [H1 H2]]]].
  - intros i nl rm last Hi [_ [I1 I2]] Hl. simpl in *.
    split; [lia|]. rewrite (slice_snoc lines 0 i) by lia. split; [|exact I2].
    now rewrite other_lines_app, other_lines_logger, app_nil_r.
  - intros i nl rm last Hi [_ [I1 I2]] Hl Hm. simpl in *.
    split; [lia|]. rewrite (slice_snoc lines 0 i) by lia. split; [|exact I2].
    rewrite other_lines_app, I1. f_equal. unfold other_lines. simpl.
    now rewrite Hl.
  - intros i nl rm last Hi _ Hl Hm _. now elim (Hline i).
  - intros i nl rm last i' Hii' Hi' _ Hl Hm _ _ _. elim (Hline i); auto. lia.
  - intros i nl rm last Hi _ Hl Hm _ _. now elim (Hline i).
  - lia.
  - lia.
  - rewrite slice_nil. repeat split; auto. lia.
  - exists st. rewrite slice_all in H1. now repeat split.
Qed.

(** X12.  When a file that uses the logger has no import line other than
    logger imports, [fix-imports.py] takes every line that holds the logger
    import out and puts none back: the file is written without any logger
    import. *)
Theorem only_logger_import_is_lost (fs : filesystem) (path content : text) :
  fs path = Some content ->
  contains (str "logger.") content = true ->
  contains logger_import content = true ->
  (forall l, In l (split_lines content) -> is_import l = true ->
             contains logger_import l = true) ->
  exists new,
    FI.fix_logger_import fs path = Returned (write fs path new, true) /\
    new = join_lines (other_lines (split_lines content)) /\
    contains logger_import new = false.
Proof.
  intros Hfs Hu Hl Hno.
  destruct (FI_scan_no_other_import _ Hno) as [st [Hs [Hn Hlast]]].
  exists (join_lines (other_lines (split_lines content))).
  assert (Hnew : FI.new_content content =
                 Some (join_lines (other_lines (split_lines content)))).
  { unfold FI.new_content. rewrite Hs. unfold FI.with_logger_import.
    rewrite Hlast, Hn. cbn [Z.leb Z.compare].
    now destruct (FI.removed_logger_import st || _). }
  split; [|split; [reflexivity | apply other_lines_no_logger]].
  unfold FI.fix_logger_import. rewrite Hfs, Hu, Hnew. cbn [negb].
  destruct (text_eqb (join_lines (other_lines (split_lines content)))
                     content) eqn:E; [|reflexivity].
  apply text_eqb_eq in E. pose proof (other_lines_no_logger (split_lines content)).
  rewrite E in H. congruence.
Qed.

Lemma only_logger_import_is_lost_witness :
  exists new,
    FI.fix_logger_import
      (fun p => if text_eqb p (str "src/x.ts")
                then Some only_logger_import_file else None)
      (str "src/x.ts") =
    Returned (write (fun p => if text_eqb p (str "src/x.ts")
                              then Some only_logger_import_file else None)
                    (str "src/x.ts") new, true) /\
    new = join_lines (other_lines (split_lines only_logger_import_file)) /\
    contains logger_import new = false.
Proof.
  apply (only_logger_import_is_lost
           (fun p => if text_eqb p (str "src/x.ts")
                     then Some only_logger_import_file else None)
           (str "src/x.ts") only_logger_import_file).
  - reflexivity.
  - vm_compute. reflexivity.
  - vm_compute. reflexivity.
  - intros l Hl Hm. vm_compute in Hl.
    destruct Hl as [<- | [<- | []]].
    + vm_compute. reflexivity.
    + vm_compute in Hm. discriminate.
Defined.

(** What is left of the file of the example is the one line that uses the
    logger. *)
Example only_logger_import_file_after :
  FI.new_content only_logger_import_file = Some (str "logger.info(1);").
Proof. vm_compute. reflexivity. Qed.

(** ** [fix-broken-imports.py] *)

Lemma only_True (r : regex) : only (fun _ => True) r.
Proof.
  induction r; simpl; auto. apply Forall_forall. auto.
Qed.

Lemma rmatch_consumes (r : regex) (m q : mstate) :
  In q (rmatch r m) -> exists w, rest m = w ++ rest q.
Proof.
  intros H. destruct (rmatch_only _ r (only_True r) _ _ H) as [w [E _]].
  now exists w.
Qed.

Lemma rmatch_mentions (l : text) (r : regex) :
  mentions l r = true ->
  forall m q, In q (rmatch r m) ->
              exists a b, rest m = a ++ l ++ b ++ rest q.
Proof.
  induction r as [l'|c|c|c|r IH|r1 IH1 r2 IH2|r1 IH1 r2 IH2|r IH| | |];
    simpl; try discriminate; intros Hm m q Hin.
  - apply text_eqb_eq in Hm. subst l'.
    assert (H : In q (rmatch (Lit l) m)) by exact Hin.
    apply rmatch_lit in H. destruct H as [E _]. now exists [], [].
  - apply in_flat_map in Hin. destruct Hin as [p [Hp Hq]].
    apply orb_prop in Hm. destruct Hm as [Hm | Hm].
    + destruct (IH1 Hm _ _ Hp) as [a [b E]].
      destruct (rmatch_consumes _ _ _ Hq) as [w Ew].
      exists a, (b ++ w). rewrite E, Ew. now rewrite <- !app_assoc.
    + destruct (IH2 Hm _ _ Hq) as [a [b E]].
      destruct (rmatch_consumes _ _ _ Hp) as [w Ew].
      exists (w ++ a), b. rewrite Ew, E. now rewrite <- !app_assoc.
  - apply in_map_iff in Hin. destruct Hin as [p [<- Hp]]. simpl.
    now apply IH.
Qed.

Lemma rmatch_needs (l : text) (r : regex) (pv : option ascii) (s : text) :
  mentions l r = true -> contains l s = false ->
  rmatch r (MState pv s None) = [].
Proof.
  intros Hm Hc. destruct (rmatch r (MState pv s None)) as [|q qs] eqn:E;
    [reflexivity|].
  destruct (rmatch_mentions l r Hm (MState pv s None) q) as [a [b Eab]];
    [rewrite E; now left|].
  simpl in Eab. assert (contains l s = true).
  { apply contains_iff. exists a, (b ++ rest q). exact Eab. }
  congruence.
Qed.

Lemma contains_tail (l : text) (c : ascii) (s : text) :
  contains l (c :: s) = false -> contains l s = false.
Proof.
  intros H. destruct (contains l s) eqn:E; [|reflexivity].
  apply contains_iff in E. destruct E as [a [b ->]].
  assert (contains l (c :: a ++ l ++ b) = true).
  { apply contains_iff. now exists (c :: a), b. }
  congruence.
Qed.

(** A substitution whose expression needs a text that is not there changes
    nothing. *)
Lemma sub_without (l : text) (r : regex) (repl : mstate -> text) :
  mentions l r = true ->
  forall s pv, contains l s = false -> sub_from r repl 0 pv s = s.
Proof.
  intros Hm. induction s as [|c s IH]; intros pv Hc.
  - cbn [sub_from]. now rewrite (rmatch_needs l r pv [] Hm Hc).
  - cbn [sub_from]. rewrite (rmatch_needs l r pv (c :: s) Hm Hc).
    f_equal. apply IH. eapply contains_tail. exact Hc.
Qed.

Lemma FB_unbreak_without_logger (content : text) :
  contains (str "logger") content = false -> FB.unbreak content = content.
Proof.
  intros H. unfold FB.unbreak, sub.
  rewrite (sub_without (str "logger") FB.pattern1) by
    (try (vm_compute; reflexivity); exact H).
  apply (sub_without (str "logger") FB.pattern2);
    [vm_compute; reflexivity | exact H].
Qed.

(** X13.  A file in which the text [logger] does not occur is left as it
    is by both fixers: each returns [False] and writes nothing. *)
Theorem file_without_logger_is_untouched (fs : filesystem)
  (path content : text) :
  fs path = Some content ->
  contains (str "logger") content = false ->
  FB.fix_content content = content /\
  FB.fix_file fs path = Returned (fs, false) /\
  FI.fix_logger_import fs path = Returned (fs, false).
Proof.
  intros Hfs Hc.
  assert (Hdot : contains (str "logger.") content = false).
  { destruct (contains (str "logger.") content) eqn:E; [|reflexivity].
    rewrite (contains_trans (str "logger") (str "logger.") content) in Hc;
      [discriminate | vm_compute; reflexivity | exact E]. }
  assert (Hfix : FB.fix_content content = content).
  { unfold FB.fix_content. rewrite (FB_unbreak_without_logger _ Hc).
    unfold FB.add_import. now rewrite Hdot. }
  split; [exact Hfix|]. split.
  - unfold FB.fix_file. rewrite Hfs, Hfix.
    assert (E : text_eqb content content = true) by now apply text_eqb_eq.
    now rewrite E.
  - unfold FI.fix_logger_import. now rewrite Hfs, Hdot.
Qed.

Lemma file_without_logger_is_untouched_witness :
  FB.fix_content (str "import { a } from './a';
a();") = str "import { a } from './a';
a();" /\
  FB.fix_file (fun _ => Some (str "import { a } from './a';
a();")) (str "src/a.ts") =
    Returned (fun _ => Some (str "import { a } from './a';
a();"), false) /\
  FI.fix_logger_import (fun _ => Some (str "import { a } from './a';
a();")) (str "src/a.ts") =
    Returned (fun _ => Some (str "import { a } from './a';
a();"), false).
Proof.
  apply (file_without_logger_is_untouched
           (fun _ => Some (str "import { a } from './a';
a();")) (str "src/a.ts") (str "import { a } from './a';
a();")).
  - reflexivity.
  - vm_compute. reflexivity.
Defined.

(** The broken import of the example is repaired: the stray line leaves the
    block and is put after its closing line. *)
Example broken_import_file_repaired :
  FB.fix_content broken_import_file =
  str "import {
  Foo,
} from './foo';
import { logger } from '@/lib/logger';
logger.info(Foo);" /\
  FI.new_content broken_import_file = Some broken_import_file.
Proof. split; vm_compute; reflexivity. Qed.

Lemma FB_find_close_spec (lines : list text) :
  forall js j,
    FB.find_close lines js = Some j ->
    In j js /\ contains (str "}") (line_at lines j) = true.
Proof.
  induction js as [|k js IH]; intros j; cbn [FB.find_close]; [discriminate|].
  destruct (contains (str "}") (line_at lines k)) eqn:E.
  - intros [= <-]. split; [now left | exact E].
  - intros H. destruct (IH _ H) as [H1 H2]. split; [now right | exact H2].
Qed.

(** The index that the loop over the lines leaves is [-1] or the index of a
    line of the file that starts an import or closes one. *)
Lemma FB_last_import_spec (lines : list text) :
  forall idxs init,
    (forall i, In i idxs -> i < length lines) ->
    (init = (-1)%Z \/
     exists k, init = Z.of_nat k /\ k < length lines /\
               import_or_close lines k) ->
    FB.last_import lines idxs init = (-1)%Z \/
    exists k, FB.last_import lines idxs init = Z.of_nat k /\
              k < length lines /\ import_or_close lines k.
Proof.
  induction idxs as [|i idxs IH]; intros init Hidx Hinit; [exact Hinit|].
  cbn [FB.last_import].
  assert (Hi : i < length lines) by (apply Hidx; now left).
  assert (Hrest : forall k, In k idxs -> k < length lines)
    by (intros k Hk; apply Hidx; now right).
  destruct (is_import (line_at lines i)) eqn:Em; [|now apply IH].
  destruct (opens_block (line_at lines i)).
  - destruct (FB.find_close lines (range (i + 1) (length lines)))
      as [j|] eqn:Ej.
    + apply FB_find_close_spec in Ej. destruct Ej as [Hj Hb].
      apply range_bounds in Hj. apply IH; [exact Hrest|].
      right. exists j. repeat split; [lia | now right].
    + apply IH; [exact Hrest|]. right. exists i. repeat split; auto.
      now left.
  - apply IH; [exact Hrest|]. right. exists i. repeat split; auto. now left.
Qed.

Lemma insert_at_one_line (k : nat) (lines : list text) :
  Forall one_line lines ->
  Forall one_line (insert_at k logger_import_line lines).
Proof.
  intros H. unfold insert_at. apply Forall_app. split.
  - apply Forall_forall. intros l Hl. rewrite Forall_forall in H. apply H.
    rewrite <- (firstn_skipn k lines). apply in_or_app. now left.
  - constructor; [apply logger_import_line_one_line|].
    apply Forall_forall. intros l Hl. rewrite Forall_forall in H. apply H.
    rewrite <- (firstn_skipn k lines). apply in_or_app. now right.
Qed.

Lemma insert_at_holds (k : nat) (lines : list text) :
  In logger_import_line (insert_at k logger_import_line lines).
Proof. unfold insert_at. apply in_or_app. right. now left. Qed.

(** X14.  The insertion step of [fix-broken-imports.py] either leaves the
    content as it is, or puts the one logger import line right after a line
    that starts an import or holds the closing brace of one, and changes
    nothing else.  It does the latter only when the content uses the logger
    and does not hold the logger import; afterwards the content holds it, so
    running the step again changes nothing. *)
Theorem add_import_inserts_one_line (content : text) :
  (FB.add_import content = content \/
   exists k,
     k < length (split_lines content) /\
     import_or_close (split_lines content) k /\
     split_lines (FB.add_import content) =
       insert_at (k + 1) logger_import_line (split_lines content) /\
     contains (str "logger.") content = true /\
     contains logger_import content = false /\
     contains logger_import (FB.add_import content) = true) /\
  FB.add_import (FB.add_import content) = FB.add_import content.
Proof.
  assert (Hmain :
    FB.add_import content = content \/
    exists k,
      k < length (split_lines content) /\
      import_or_close (split_lines content) k /\
      FB.add_import content =
        join_lines (insert_at (k + 1) logger_import_line
                              (split_lines content)) /\
      contains (str "logger.") content = true /\
      contains logger_import content = false).
  { unfold FB.add_import.
    destruct (contains (str "logger.") content) eqn:Eu; [|now left].
    destruct (contains logger_import content) eqn:El; [now left|].
    cbn [negb andb].
    destruct (FB_last_import_spec (split_lines content)
                (range 0 (length (split_lines content))) (-1)%Z)
      as [H | [k [H [Hk Hp]]]].
    - intros i Hi. apply range_bounds in Hi. lia.
    - now left.
    - rewrite H. now left.
    - rewrite H. right. exists k.
      replace (0 <=? Z.of_nat k)%Z with true
        by (symmetry; apply Z.leb_le; lia).
      replace (Z.to_nat (Z.of_nat k + 1)) with (k + 1) by lia.
      now repeat split. }
  assert (Hhas : forall k,
    contains logger_import
      (join_lines (insert_at (k + 1) logger_import_line
                             (split_lines content))) = true).
  { intros k. apply contains_join with (l := logger_import_line).
    - apply insert_at_holds.
    - vm_compute. reflexivity. }
  split.
  - destruct Hmain as [H | [k [Hk [Hp [E [Hu Hl]]]]]]; [now left|].
    right. exists k. rewrite E. repeat split; auto.
    apply split_join.
    + unfold insert_at. destruct (firstn (k + 1) (split_lines content));
        discriminate.
    + apply insert_at_one_line, split_lines_one_line.
  - destruct Hmain as [H | [k [Hk [Hp [E [Hu Hl]]]]]].
    + now rewrite H.
    + rewrite E. unfold FB.add_import at 1. rewrite Hhas.
      now rewrite andb_false_r.
Qed.

(** ** The runs of the fixers over the files *)

Lemma write_other (fs : filesystem) (p c q : text) :
  q <> p -> write fs p c q = fs q.
Proof.
  intros H. unfold write. destruct (text_eqb q p) eqn:E; [|reflexivity].
  apply text_eqb_eq in E. now elim H.
Qed.

Lemma write_same (fs : filesystem) (p c : text) : write fs p c p = Some c.
Proof.
  unfold write. assert (E : text_eqb p p = true) by now apply text_eqb_eq.
  now rewrite E.
Qed.

Lemma FI_new_content_returns (content : text) :
  exists new, FI.new_content content = Some new.
Proof.
  unfold FI.new_content.
  destruct (FI_scan_returns (split_lines content)) as [st ->]. eauto.
Qed.

(** What one call of [fix_logger_import] can do to the files. *)
Lemma FI_fix_cases (fs : filesystem) (p : text) :
  (fs p = None /\ FI.fix_logger_import fs p = Raised) \/
  FI.fix_logger_import fs p = Returned (fs, false) \/
  (exists old new,
      fs p = Some old /\ contains (str "logger.") old = true /\
      new <> old /\
      FI.fix_logger_import fs p = Returned (write fs p new, true)).
Proof.
  unfold FI.fix_logger_import. destruct (fs p) as [old|] eqn:Efs;
    [|now left].
  right. destruct (contains (str "logger.") old) eqn:Eu; [|now left].
  cbn [negb]. destruct (FI_new_content_returns old) as [new ->].
  destruct (text_eqb new old) eqn:E; [now left|]. right.
  exists old, new. repeat split; auto.
  intros ->. assert (text_eqb old old = true) by now apply text_eqb_eq.
  congruence.
Qed.

Lemma FB_fix_content_without_logger (content : text) :
  contains (str "logger") content = false -> FB.fix_content content = content.
Proof.
  intros Hc. unfold FB.fix_content.
  rewrite (FB_unbreak_without_logger _ Hc). unfold FB.add_import.
  destruct (contains (str "logger.") content) eqn:E; [|reflexivity].
  rewrite (contains_trans (str "logger") (str "logger.") content) in Hc;
    [discriminate | vm_compute; reflexivity | exact E].
Qed.

(** What one call of [fix_file] can do to the files. *)
Lemma FB_fix_cases (fs : filesystem) (p : text) :
  (fs p = None /\ FB.fix_file fs p = Raised) \/
  FB.fix_file fs p = Returned (fs, false) \/
  (exists old new,
      fs p = Some old /\ contains (str "logger") old = true /\
      new <> old /\
      FB.fix_file fs p = Returned (write fs p new, true)).
Proof.
  unfold FB.fix_file. destruct (fs p) as [old|] eqn:Efs; [|now left].
  right. destruct (text_eqb (FB.fix_content old) old) eqn:E; [now left|].
  right. exists old, (FB.fix_content old). repeat split; auto.
  - destruct (contains (str "logger") old) eqn:Ec; [reflexivity|].
    rewrite (FB_fix_content_without_logger _ Ec) in E.
    assert (text_eqb old old = true) by now apply text_eqb_eq. congruence.
  - intros H. apply text_eqb_eq in H. congruence.
Qed.

Lemma FB_fix_all_app (after : list text) :
  forall before fs n,
    FB.fix_all fs (before ++ after) n =
    FB.fix_all (fst (FB.fix_all fs before n)) after
               (snd (FB.fix_all fs before n)).
Proof.
  induction before as [|x before IH]; intros fs n; cbn [app FB.fix_all];
    [reflexivity|].
  destruct (text_eqb (path_name x) (str "logger.ts")); [apply IH|].
  destruct (FB.fix_file fs x) as [[fs1 [|]]| |]; apply IH.
Qed.

Lemma FB_fix_all_unreadable (p : text) :
  forall paths fs n, fs p = None -> fst (FB.fix_all fs paths n) p = None.
Proof.
  induction paths as [|x paths IH]; intros fs n Hp; cbn [FB.fix_all];
    [exact Hp|].
  destruct (text_eqb (path_name x) (str "logger.ts")); [now apply IH|].
  destruct (FB_fix_cases fs x)
    as [[_ ->] | [-> | [old [new [Hx [_ [_ ->]]]]]]]; try now apply IH.
  apply IH. rewrite write_other; [exact Hp|]. intros ->. congruence.
Qed.

Lemma FI_fix_all_raises (p : text) (after : list text) :
  path_name p <> str "logger.ts" ->
  forall before fs n,
    fs p = None -> FI.fix_all fs (before ++ p :: after) n = Raised.
Proof.
  intros Hname. induction before as [|x before IH]; intros fs n Hp;
    cbn [app FI.fix_all].
  - destruct (text_eqb (path_name p) (str "logger.ts")) eqn:E.
    + apply text_eqb_eq in E. now elim Hname.
    + unfold FI.fix_logger_import. now rewrite Hp.
  - destruct (text_eqb (path_name x) (str "logger.ts")); [now apply IH|].
    destruct (FI_fix_cases fs x)
      as [[_ ->] | [-> | [old [new [Hx [_ [_ ->]]]]]]];
      [reflexivity | now apply IH |].
    apply IH. rewrite write_other; [exact Hp|]. intros ->. congruence.
Qed.

(** X15.  When a file outside [logger.ts] cannot be read, the run of
    [fix-imports.py] ends with the exception, wherever the file stands in
    the list, whereas the run of [fix-broken-imports.py] catches it and
    gives what it gives without that file. *)
Theorem unreadable_file_aborts_or_is_caught (fs : filesystem) (p : text)
  (before after : list text) :
  fs p = None -> path_name p <> str "logger.ts" ->
  FI.main fs (before ++ p :: after) = Raised /\
  FB.main fs (before ++ p :: after) = FB.main fs (before ++ after).
Proof.
  intros Hp Hname. split.
  - now apply FI_fix_all_raises.
  - unfold FB.main. rewrite !FB_fix_all_app. cbn [FB.fix_all].
    destruct (text_eqb (path_name p) (str "logger.ts")); [reflexivity|].
    unfold FB.fix_file. now rewrite (FB_fix_all_unreadable p before fs 0 Hp).
Qed.

Lemma unreadable_file_aborts_or_is_caught_witness :
  FI.main one_file_fs ([str "src/a.tsx"] ++ str "src/gone.tsx" :: []) = Raised /\
  FB.main one_file_fs ([str "src/a.tsx"] ++ str "src/gone.tsx" :: []) =
  FB.main one_file_fs ([str "src/a.tsx"] ++ []).
Proof.
  apply (unreadable_file_aborts_or_is_caught one_file_fs (str "src/gone.tsx")
           [str "src/a.tsx"] []).
  - reflexivity.
  - vm_compute. discriminate.
Defined.

Lemma text_eq_dec (a b : text) : {a = b} + {a <> b}.
Proof. apply list_eq_dec, ascii_dec. Qed.

Lemma not_in_tail (q x : text) (paths : list text) :
  ~ In q (x :: paths) \/ path_name q = str "logger.ts" ->
  ~ In q paths \/ path_name q = str "logger.ts".
Proof.
  intros [H | H]; [left | now right]. intros Hin. apply H. now right.
Qed.

Lemma not_head (q x : text) (paths : list text) :
  text_eqb (path_name x) (str "logger.ts") = false ->
  ~ In q (x :: paths) \/ path_name q = str "logger.ts" -> q <> x.
Proof.
  intros En Hq ->. destruct Hq as [Hq | Hq]; [apply Hq; now left|].
  apply text_eqb_eq in Hq. congruence.
Qed.

Lemma FB_fix_all_frame :
  forall paths fs n,
    (forall q, ~ In q paths \/ path_name q = str "logger.ts" ->
               fst (FB.fix_all fs paths n) q = fs q) /\
    (forall q, fst (FB.fix_all fs paths n) q <> fs q ->
               exists old, fs q = Some old /\
                           contains (str "logger") old = true) /\
    n <= snd (FB.fix_all fs paths n) <= n + length paths.
Proof.
  induction paths as [|x paths IH]; intros fs n; cbn [FB.fix_all].
  - split; [reflexivity|]. split; [|simpl; lia].
    intros q H. now elim H.
  - assert (Hsame : forall m,
      n <= m <= n + 1 ->
      (forall q, ~ In q (x :: paths) \/ path_name q = str "logger.ts" ->
                 fst (FB.fix_all fs paths m) q = fs q) /\
      (forall q, fst (FB.fix_all fs paths m) q <> fs q ->
                 exists old, fs q = Some old /\
                             contains (str "logger") old = true) /\
      n <= snd (FB.fix_all fs paths m) <= n + length (x :: paths)).
    { intros m Hm. destruct (IH fs m) as [H1 [H2 H3]].
      split; [|split; [exact H2 | simpl; lia]].
      intros q Hq. apply H1. eapply not_in_tail. exact Hq. }
    destruct (text_eqb (path_name x) (str "logger.ts")) eqn:En.
    { apply Hsame. lia. }
    destruct (FB_fix_cases fs x)
      as [[_ ->] | [-> | [old [new [Hx [Hc [_ ->]]]]]]].
    + apply Hsame. lia.
    + apply Hsame. lia.
    + destruct (IH (write fs x new) (n + 1)) as [H1 [H2 H3]].
      split; [|split; [|simpl; lia]].
      * intros q Hq. pose proof (not_head q x paths En Hq) as Hne.
        rewrite H1 by (eapply not_in_tail; exact Hq).
        now apply write_other.
      * intros q Hq. destruct (text_eq_dec q x) as [-> | Hne]; [eauto|].
        destruct (H2 q) as [old' [E1 E2]].
        { now rewrite write_other. }
        rewrite write_other in E1 by exact Hne. eauto.
Qed.

(** X16.  The run of [fix-broken-imports.py] leaves every file that is not
    in its list, and every file named [logger.ts], as it was; a file that it
    changes could be read and held the text [logger]; and the number of
    files it counts as fixed is at most the number of paths. *)
Theorem fix_broken_imports_run_frame (fs : filesystem) (paths : list text) :
  (forall q, ~ In q paths \/ path_name q = str "logger.ts" ->
             fst (FB.main fs paths) q = fs q) /\
  (forall q, fst (FB.main fs paths) q <> fs q ->
             exists old, fs q = Some old /\
                         contains (str "logger") old = true) /\
  snd (FB.main fs paths) <= length paths.
Proof.
  destruct (FB_fix_all_frame paths fs 0) as [H1 [H2 H3]].
  repeat split; auto. unfold FB.main. lia.
Qed.

Lemma FI_fix_all_frame :
  forall paths fs n fs' n',
    FI.fix_all fs paths n = Returned (fs', n') ->
    (forall q, ~ In q paths \/ path_name q = str "logger.ts" ->
               fs' q = fs q) /\
    (forall q, fs' q <> fs q ->
               exists old, fs q = Some old /\
                           contains (str "logger.") old = true) /\
    (forall q, In q paths -> path_name q <> str "logger.ts" ->
               fs q <> None) /\
    n <= n' <= n + length paths.
Proof.
  induction paths as [|x paths IH]; intros fs n fs' n'; cbn [FI.fix_all].
  - intros [= <- <-]. split; [reflexivity|].
    split; [intros q H; now elim H|]. split; [intros q []|simpl; lia].
  - assert (Hsame : forall m,
      n <= m <= n + 1 ->
      (text_eqb (path_name x) (str "logger.ts") = true \/ fs x <> None) ->
      FI.fix_all fs paths m = Returned (fs', n') ->
      (forall q, ~ In q (x :: paths) \/ path_name q = str "logger.ts" ->
                 fs' q = fs q) /\
      (forall q, fs' q <> fs q ->
                 exists old, fs q = Some old /\
                             contains (str "logger.") old = true) /\
      (forall q, In q (x :: paths) -> path_name q <> str "logger.ts" ->
                 fs q <> None) /\
      n <= n' <= n + length (x :: paths)).
    { intros m Hm Hx H. destruct (IH _ _ _ _ H) as [H1 [H2 [H3 H4]]].
      split; [|split; [exact H2 | split; [|simpl; lia]]].
      - intros q Hq. apply H1. eapply not_in_tail. exact Hq.
      - intros q [<- | Hq] Hn; [|now apply H3].
        destruct Hx as [Hx | Hx]; [|exact Hx].
        apply text_eqb_eq in Hx. congruence. }
    destruct (text_eqb (path_name x) (str "logger.ts")) eqn:En.
    { apply Hsame; [lia | now left]. }
    destruct (FI_fix_cases fs x)
      as [[_ ->] | [Hret | [old [new [Hx [Hc [_ ->]]]]]]]; [discriminate | |].
    + rewrite Hret. apply Hsame; [lia|]. right. intros E.
      unfold FI.fix_logger_import in Hret. rewrite E in Hret. discriminate.
    + intros H. destruct (IH _ _ _ _ H) as [H1 [H2 [H3 H4]]].
      split; [|split; [|split; [|simpl; lia]]].
      * intros q Hq. pose proof (not_head q x paths En Hq) as Hne.
        rewrite H1 by (eapply not_in_tail; exact Hq).
        now apply write_other.
      * intros q Hq. destruct (text_eq_dec q x) as [-> | Hne]; [eauto|].
        destruct (H2 q) as [old' [E1 E2]].
        { now rewrite write_other. }
        rewrite write_other in E1 by exact Hne. eauto.
      * intros q [<- | Hq] Hn; [congruence|].
        destruct (text_eq_dec q x) as [-> | Hne]; [congruence|].
        specialize (H3 q Hq Hn). now rewrite write_other in H3.
Qed.

(** X17.  When the run of [fix-imports.py] returns, every file of its list
    outside [logger.ts] could be read; every file that is not in the list,
    and every file named [logger.ts], is as it was; a file that was changed
    held the text [logger.]; and the number of files counted as fixed is at
    most the number of paths. *)
Theorem fix_imports_run_frame (fs fs' : filesystem) (paths : list text)
  (n : nat) :
  FI.main fs paths = Returned (fs', n) ->
  (forall q, In q paths -> path_name q <> str "logger.ts" ->
             fs q <> None) /\
  (forall q, ~ In q paths \/ path_name q = str "logger.ts" ->
             fs' q = fs q) /\
  (forall q, fs' q <> fs q ->
             exists old, fs q = Some old /\
                         contains (str "logger.") old = true) /\
  n <= length paths.
Proof.
  intros H. destruct (FI_fix_all_frame _ _ _ _ _ H) as [H1 [H2 [H3 H4]]].
  repeat split; auto. lia.
Qed.

Lemma fix_imports_run_frame_witness :
  FI.main uses_logger_fs [str "src/b.ts"; str "src/lib/logger.ts"] =
    Returned (write uses_logger_fs (str "src/b.ts")
                    (str "import { b } from './b';
import { logger } from '@/lib/logger';
logger.info(b);"), 1) /\
  (forall q, In q [str "src/b.ts"; str "src/lib/logger.ts"] ->
             path_name q <> str "logger.ts" ->
             uses_logger_fs q <> None) /\
  (forall q, ~ In q [str "src/b.ts"; str "src/lib/logger.ts"] \/
             path_name q = str "logger.ts" ->
             write uses_logger_fs (str "src/b.ts")
                   (str "import { b } from './b';
import { logger } from '@/lib/logger';
logger.info(b);") q = uses_logger_fs q) /\
  (forall q, write uses_logger_fs (str "src/b.ts")
                   (str "import { b } from './b';
import { logger } from '@/lib/logger';
logger.info(b);") q <> uses_logger_fs q ->
             exists old, uses_logger_fs q = Some old /\
                         contains (str "logger.") old = true) /\
  1 <= length [str "src/b.ts"; str "src/lib/logger.ts"].
Proof.
  assert (E : FI.main uses_logger_fs [str "src/b.ts"; str "src/lib/logger.ts"] =
    Returned (write uses_logger_fs (str "src/b.ts")
                    (str "import { b } from './b';
import { logger } from '@/lib/logger';
logger.info(b);"), 1)) by (vm_compute; reflexivity).
  split; [exact E|].
  apply (fix_imports_run_frame _ _ _ _ E).
Defined.

(** ** The loop of [fix-imports.py] in closed form *)

Lemma finish_nil (m : mode) (st : FI.state) : finish m [] st = st.
Proof.
  destruct st as [nl rm last]. unfold finish. simpl.
  now rewrite app_nil_r, orb_false_r.
Qed.

Lemma state_eq (nl nl' : list text) (rm rm' : bool) (last last' : Z) :
  nl = nl' -> rm = rm' -> last = last' ->
  FI.State nl rm last = FI.State nl' rm' last'.
Proof. now intros -> -> ->. Qed.

Lemma finish_top_logger (l : text) (ls nl : list text) (rm : bool) (last : Z) :
  is_logger l = true ->
  finish Top (l :: ls) (FI.State nl rm last) =
  finish Top ls (FI.State nl true last).
Proof.
  intros H. unfold finish. cbn [kept removes last_off]. rewrite H.
  apply state_eq; auto. cbn. now rewrite orb_true_r.
Qed.

Lemma finish_keep_shift (m : mode) (l : text) (ls nl : list text)
  (rm : bool) (last : Z) :
  finish m ls (FI.State (nl ++ [l]) rm last) =
  FI.State (nl ++ l :: kept m ls) (rm || removes m ls)
           (match option_map S (last_off m ls) with
            | Some j => Z.of_nat (length nl + j)
            | None => last
            end).
Proof.
  unfold finish. cbn [FI.new_lines FI.removed_logger_import
                      FI.last_import_line].
  apply state_eq; auto.
  - now rewrite <- app_assoc.
  - destruct (last_off m ls); cbn [option_map]; [|reflexivity].
    rewrite length_app. simpl. f_equal. lia.
Qed.

Lemma finish_keep_after (m : mode) (l : text) (ls nl : list text)
  (rm : bool) :
  finish m ls (FI.State (nl ++ [l]) rm (Z.of_nat (length nl))) =
  FI.State (nl ++ l :: kept m ls) (rm || removes m ls)
           (match after (last_off m ls) with
            | Some j => Z.of_nat (length nl + j)
            | None => Z.of_nat (length nl)
            end).
Proof.
  unfold finish. cbn [FI.new_lines FI.removed_logger_import
                      FI.last_import_line].
  apply state_eq; auto.
  - now rewrite <- app_assoc.
  - destruct (last_off m ls); cbn [after].
    + rewrite length_app. simpl. f_equal. lia.
    + f_equal. lia.
Qed.

Lemma finish_top_plain (l : text) (ls nl : list text) (rm : bool) (last : Z) :
  is_logger l = false -> is_import l = false ->
  finish Top (l :: ls) (FI.State nl rm last) =
  finish Top ls (FI.State (nl ++ [l]) rm last).
Proof.
  intros H1 H2. rewrite finish_keep_shift. unfold finish.
  cbn [kept removes last_off]. now rewrite H1, H2.
Qed.

Lemma finish_top_single (l : text) (ls nl : list text) (rm : bool) (last : Z) :
  is_logger l = false -> is_import l = true -> opens_block l = false ->
  finish Top (l :: ls) (FI.State nl rm last) =
  finish Top ls (FI.State (nl ++ [l]) rm (Z.of_nat (length nl))).
Proof.
  intros H1 H2 H3. rewrite finish_keep_after. unfold finish.
  cbn [kept removes last_off]. rewrite H1, H2, H3. cbn [andb].
  apply state_eq; auto. now destruct (last_off Top ls).
Qed.

Lemma finish_top_open (l : text) (ls nl : list text) (rm : bool) (last : Z) :
  is_logger l = false -> is_import l = true -> opens_block l = true ->
  finish Top (l :: ls) (FI.State nl rm last) =
  finish Block ls (FI.State (nl ++ [l]) rm (Z.of_nat (length nl))).
Proof.
  intros H1 H2 H3. rewrite finish_keep_after. unfold finish.
  cbn [kept removes last_off]. rewrite H1, H2, H3. cbn [andb].
  apply state_eq; auto. now destruct (last_off Block ls).
Qed.

Lemma finish_block_plain (l : text) (ls nl : list text) (rm : bool)
  (last : Z) :
  has_brace l = false ->
  finish Block (l :: ls) (FI.State nl rm last) =
  finish Block ls (FI.State (nl ++ [l]) rm last).
Proof.
  intros H. rewrite finish_keep_shift. unfold finish.
  cbn [kept removes last_off]. now rewrite H.
Qed.

Lemma finish_block_close (l : text) (ls nl : list text) (rm : bool)
  (last : Z) :
  has_brace l = true ->
  finish Block (l :: ls) (FI.State nl rm last) =
  finish Top ls (FI.State (nl ++ [l]) rm
                          (Z.of_nat (length (nl ++ [l])) - 1)).
Proof.
  intros H.
  replace (Z.of_nat (length (nl ++ [l])) - 1)%Z with (Z.of_nat (length nl))
    by (rewrite length_app; simpl; lia).
  rewrite finish_keep_after. unfold finish.
  cbn [kept removes last_off]. rewrite H.
  apply state_eq; auto. now destruct (last_off Top ls).
Qed.

Lemma finish_block_run (xs : list text) :
  Forall (fun l => has_brace l = false) xs ->
  forall ls nl rm last,
    finish Block (xs ++ ls) (FI.State nl rm last) =
    finish Block ls (FI.State (nl ++ xs) rm last).
Proof.
  induction 1 as [|x xs Hx Hxs IH]; intros ls nl rm last.
  - now rewrite app_nil_r.
  - cbn [app]. rewrite finish_block_plain by exact Hx.
    rewrite IH. now rewrite <- app_assoc.
Qed.

Lemma skipn_cons (lines : list text) :
  forall i, i < length lines ->
            skipn i lines = line_at lines i :: skipn (i + 1) lines.
Proof.
  unfold line_at. induction lines as [|l lines IH]; intros i Hi;
    [simpl in Hi; lia|].
  destruct i as [|i]; [reflexivity|].
  simpl. apply IH. simpl in Hi. lia.
Qed.

Lemma skipn_slice (lines : list text) (i : nat) :
  forall n, i + n <= length lines ->
            skipn i lines = slice lines i (i + n) ++ skipn (i + n) lines.
Proof.
  induction n as [|n IH]; intros H.
  - now rewrite Nat.add_0_r, slice_nil.
  - rewrite IH by lia. replace (i + S n) with (i + n + 1) by lia.
    rewrite (slice_snoc lines i (i + n)) by lia.
    rewrite (skipn_cons lines (i + n)) by lia.
    now rewrite <- app_assoc.
Qed.

Lemma slice_no_brace (lines : list text) (i i' : nat) :
  (forall k, i <= k < i' -> contains (str "}") (line_at lines k) = false) ->
  Forall (fun l => has_brace l = false) (slice lines i i').
Proof.
  intros H. apply Forall_forall. intros l Hl. unfold slice in Hl.
  apply in_map_iff in Hl. destruct Hl as [k [<- Hk]].
  apply range_bounds in Hk. now apply H.
Qed.

(** The loop ends in the state that the closed form gives. *)
Lemma FI_scan_closed (lines : list text) :
  FI.scan (S (length lines)) lines 0 (FI.State [] false (-1)) =
  Some (finish Top lines (FI.State [] false (-1))).
Proof.
  destruct (FI_scan_invariant lines
              (fun i st =>
                 i <= length lines /\
                 finish Top (skipn i lines) st =
                 finish Top lines (FI.State [] false (-1)%Z)))
    with (fuel := S (length lines)) (i := 0)
         (st := FI.State [] false (-1)%Z) as [st [H [_ HI]]].
  - intros i nl rm last Hi [_ I] Hl. split; [lia|].
    rewrite (skipn_cons lines i Hi) in I.
    now rewrite finish_top_logger in I.
  - intros i nl rm last Hi [_ I] Hl Hm. split; [lia|].
    rewrite (skipn_cons lines i Hi) in I.
    now rewrite finish_top_plain in I.
  - intros i nl rm last Hi [_ I] Hl Hm Ho. split; [lia|].
    rewrite (skipn_cons lines i Hi) in I.
    now rewrite finish_top_single in I.
  - intros i nl rm last i' Hii' Hi' [_ I] Hl Hm Ho Hk Hb. split; [lia|].
    rewrite (skipn_cons lines i) in I by lia.
    rewrite finish_top_open in I by assumption.
    replace i' with (i + 1 + (i' - (i + 1))) in I at 1 by lia.
    rewrite (skipn_slice lines (i + 1) (i' - (i + 1))) in I by lia.
    replace (i + 1 + (i' - (i + 1))) with i' in I by lia.
    rewrite finish_block_run in I
      by (apply slice_no_brace; intros k Hk'; apply Hk; lia).
    rewrite (skipn_cons lines i') in I by lia.
    rewrite finish_block_close in I by exact Hb.
    rewrite <- I. f_equal.
    assert (E : ((nl ++ [line_at lines i]) ++ slice lines (i + 1) i') ++
                [line_at lines i'] = nl ++ slice lines i (i' + 1)).
    { rewrite (slice_snoc lines i i') by lia.
      rewrite (slice_cons lines i i') by lia.
      now rewrite <- !app_assoc. }
    now rewrite E.
  - intros i nl rm last Hi [_ I] Hl Hm Ho Hk. split; [lia|].
    rewrite (skipn_cons lines i) in I by lia.
    rewrite finish_top_open in I by assumption.
    rewrite skipn_all, finish_nil.
    rewrite (skipn_slice lines (i + 1) (length lines - (i + 1))) in I by lia.
    replace (i + 1 + (length lines - (i + 1))) with (length lines) in I
      by lia.
    rewrite finish_block_run in I
      by (apply slice_no_brace; intros k Hk'; apply Hk; lia).
    rewrite skipn_all, finish_nil in I. rewrite <- I. f_equal.
    rewrite (slice_cons lines i (length lines)) by lia.
    now rewrite <- app_assoc.
  - lia.
  - lia.
  - split; [lia | reflexivity].
  - rewrite H. f_equal. now rewrite skipn_all, finish_nil in HI.
Qed.

Lemma FI_new_content_closed (content : text) :
  FI.new_content content = Some (join_lines (fixed_lines content)).
Proof.
  unfold FI.new_content. rewrite FI_scan_closed. f_equal. f_equal.
  unfold FI.with_logger_import, fixed_lines, finish.
  cbn [FI.new_lines FI.removed_logger_import FI.last_import_line app orb
       length Nat.add].
  destruct (removes Top (split_lines content) ||
            negb (contains logger_import content)); [|reflexivity].
  destruct (last_off Top (split_lines content)) as [j|].
  - replace (0 <=? Z.of_nat j)%Z with true
      by (symmetry; apply Z.leb_le; lia).
    now replace (Z.to_nat (Z.of_nat j + 1)) with (j + 1) by lia.
  - reflexivity.
Qed.

Lemma no_brace_not_logger (l : text) :
  has_brace l = false -> is_logger l = false.
Proof.
  intros H. unfold is_logger. destruct (contains logger_import l) eqn:E;
    [|reflexivity].
  apply logger_import_has_brace in E. unfold has_brace in H. congruence.
Qed.

Lemma kept_no_brace (ls : list text) :
  Forall (fun l => has_brace l = false) ls ->
  forall m, kept m ls = ls /\ removes m ls = false.
Proof.
  induction 1 as [|l ls Hl Hls IH]; intros m; [now split|].
  destruct (IH Top) as [T1 T2]. destruct (IH Block) as [B1 B2].
  destruct m; cbn [kept removes].
  - rewrite (no_brace_not_logger l Hl).
    destruct (is_import l && opens_block l); split; congruence.
  - rewrite Hl. split; congruence.
Qed.

Lemma last_off_block_none (ls : list text) :
  last_off Block ls = None -> Forall (fun l => has_brace l = false) ls.
Proof.
  induction ls as [|l ls IH]; intros H; [constructor|].
  cbn [last_off] in H. destruct (has_brace l) eqn:E.
  - destruct (last_off Top ls); discriminate.
  - constructor; [exact E|]. apply IH.
    destruct (last_off Block ls); [discriminate | reflexivity].
Qed.

(** Reading the kept lines again keeps them all, the same line is named in
    the end, and nothing is passed over. *)
Lemma kept_stable (ls : list text) :
  forall m,
    kept m (kept m ls) = kept m ls /\
    removes m (kept m ls) = false /\
    last_off m (kept m ls) = last_off m ls.
Proof.
  induction ls as [|l ls IH]; intros m; [now repeat split|].
  destruct (IH Top) as [T1 [T2 T3]]. destruct (IH Block) as [B1 [B2 B3]].
  destruct m; cbn [kept removes last_off].
  - destruct (is_logger l) eqn:El; [now repeat split|].
    destruct (is_import l) eqn:Em; cbn [andb].
    + destruct (opens_block l) eqn:Eo; cbn [kept removes last_off];
        rewrite El, Em, Eo; cbn [andb]; repeat split; congruence.
    + cbn [kept removes last_off]. rewrite El, Em. cbn [andb].
      repeat split; congruence.
  - destruct (has_brace l) eqn:Eb; cbn [kept removes last_off]; rewrite Eb;
      repeat split; congruence.
Qed.

Lemma removes_false_kept (ls : list text) :
  forall m, removes m ls = false -> kept m ls = ls.
Proof.
  induction ls as [|l ls IH]; intros m H; [reflexivity|].
  destruct m; cbn [kept removes] in *.
  - destruct (is_logger l); [discriminate|].
    destruct (is_import l && opens_block l); f_equal; now apply IH.
  - destruct (has_brace l); f_equal; now apply IH.
Qed.

Lemma insert_at_succ (j : nat) (x a : text) (ls : list text) :
  insert_at (S j) x (a :: ls) = a :: insert_at j x ls.
Proof. reflexivity. Qed.

Lemma logger_line_is_logger : is_logger logger_import_line = true.
Proof. vm_compute. reflexivity. Qed.

Lemma logger_line_has_brace : has_brace logger_import_line = true.
Proof. vm_compute. reflexivity. Qed.

Lemma reread_later (m m' : mode) (a : text) (ls : list text) (j' : nat) :
  (forall rest, kept m (a :: rest) = a :: kept m' rest) ->
  (forall rest, removes m (a :: rest) = removes m' rest) ->
  (forall rest, last_off m (a :: rest) = after (last_off m' rest) \/
                last_off m (a :: rest) = option_map S (last_off m' rest)) ->
  reread_ok m' ls j' -> reread_ok m (a :: ls) (S j').
Proof.
  intros keptA remA lastA IH. unfold reread_ok in *. cbn zeta in *.
  rewrite (keptA ls).
  replace (S j' + 1) with (S (j' + 1)) by lia. rewrite insert_at_succ.
  rewrite keptA, remA.
  destruct IH as [[H1 [H2 H3]] | [H1 H2]].
  - left. rewrite H1, H2. repeat split.
    destruct (lastA (insert_at (j' + 1) logger_import_line (kept m' ls)))
      as [-> | ->]; now rewrite H3.
  - right. now rewrite H1, H2.
Qed.

Lemma reread_here (m : mode) (a : text) (ls : list text) :
  (forall rest, kept m (a :: rest) = a :: kept Top rest) ->
  (forall rest, removes m (a :: rest) = removes Top rest) ->
  (forall rest, last_off m (a :: rest) = after (last_off Top rest)) ->
  last_off Top ls = None -> reread_ok m (a :: ls) 0.
Proof.
  intros keptA remA lastA Hn. unfold reread_ok. cbn zeta. left.
  rewrite (keptA ls).
  change (insert_at (0 + 1) logger_import_line (a :: kept Top ls))
    with (a :: logger_import_line :: kept Top ls).
  destruct (kept_stable ls Top) as [S1 [S2 S3]].
  rewrite keptA, remA, lastA. cbn [kept removes last_off].
  rewrite logger_line_is_logger, S1, S3, Hn. now repeat split.
Qed.

Lemma reread_open (l : text) (ls : list text) :
  is_logger l = false -> is_import l = true -> opens_block l = true ->
  last_off Block ls = None -> reread_ok Top (l :: ls) 0.
Proof.
  intros El Em Eo Elo. unfold reread_ok. cbn zeta. right.
  pose proof (last_off_block_none ls Elo) as Hnb.
  destruct (kept_no_brace ls Hnb Block) as [B1 _].
  destruct (kept_no_brace ls Hnb Top) as [T1 T2].
  cbn [kept]. rewrite El, Em, Eo. cbn [andb]. rewrite B1.
  change (insert_at (0 + 1) logger_import_line (l :: ls))
    with (l :: logger_import_line :: ls).
  cbn [kept removes]. rewrite El, Em, Eo. cbn [andb kept removes].
  rewrite logger_line_has_brace, T1, T2. now split.
Qed.

Lemma kept_with_import (ls : list text) :
  forall m j, last_off m ls = Some j -> reread_ok m ls j.
Proof.
  induction ls as [|l ls IH]; intros m j H; [destruct m; discriminate|].
  destruct m.
  - destruct (is_logger l) eqn:El.
    { cbn [last_off] in H. rewrite El in H. specialize (IH Top j H).
      unfold reread_ok in *. cbn [kept]. now rewrite El. }
    destruct (is_import l) eqn:Em.
    + destruct (opens_block l) eqn:Eo.
      * assert (kA : forall rest, kept Top (l :: rest) = l :: kept Block rest)
          by (intros; cbn [kept]; now rewrite El, Em, Eo).
        assert (rA : forall rest,
                   removes Top (l :: rest) = removes Block rest)
          by (intros; cbn [removes]; now rewrite El, Em, Eo).
        assert (lA : forall rest, last_off Top (l :: rest) =
                                  after (last_off Block rest))
          by (intros; cbn [last_off]; now rewrite El, Em, Eo).
        rewrite lA in H.
        destruct (last_off Block ls) as [j'|] eqn:Elo; injection H as <-.
        -- apply (reread_later Top Block); auto.
        -- now apply reread_open.
      * assert (kA : forall rest, kept Top (l :: rest) = l :: kept Top rest)
          by (intros; cbn [kept]; now rewrite El, Em, Eo).
        assert (rA : forall rest, removes Top (l :: rest) = removes Top rest)
          by (intros; cbn [removes]; now rewrite El, Em, Eo).
        assert (lA : forall rest, last_off Top (l :: rest) =
                                  after (last_off Top rest))
          by (intros; cbn [last_off]; now rewrite El, Em, Eo).
        rewrite lA in H.
        destruct (last_off Top ls) as [j'|] eqn:Elo; injection H as <-.
        -- apply (reread_later Top Top); auto.
        -- now apply reread_here.
    + assert (kA : forall rest, kept Top (l :: rest) = l :: kept Top rest)
        by (intros; cbn [kept]; now rewrite El, Em).
      assert (rA : forall rest, removes Top (l :: rest) = removes Top rest)
        by (intros; cbn [removes]; now rewrite El, Em).
      assert (lA : forall rest, last_off Top (l :: rest) =
                                option_map S (last_off Top rest))
        by (intros; cbn [last_off]; now rewrite El, Em).
      rewrite lA in H.
      destruct (last_off Top ls) as [j'|] eqn:Elo; [|discriminate].
      injection H as <-. apply (reread_later Top Top); auto.
  - destruct (has_brace l) eqn:Eb.
    + assert (kA : forall rest, kept Block (l :: rest) = l :: kept Top rest)
        by (intros; cbn [kept]; now rewrite Eb).
      assert (rA : forall rest, removes Block (l :: rest) = removes Top rest)
        by (intros; cbn [removes]; now rewrite Eb).
      assert (lA : forall rest, last_off Block (l :: rest) =
                                after (last_off Top rest))
        by (intros; cbn [last_off]; now rewrite Eb).
      rewrite lA in H.
      destruct (last_off Top ls) as [j'|] eqn:Elo; injection H as <-.
      * apply (reread_later Block Top); auto.
      * now apply reread_here.
    + assert (kA : forall rest,
                 kept Block (l :: rest) = l :: kept Block rest)
        by (intros; cbn [kept]; now rewrite Eb).
      assert (rA : forall rest,
                 removes Block (l :: rest) = removes Block rest)
        by (intros; cbn [removes]; now rewrite Eb).
      assert (lA : forall rest, last_off Block (l :: rest) =
                                option_map S (last_off Block rest))
        by (intros; cbn [last_off]; now rewrite Eb).
      rewrite lA in H.
      destruct (last_off Block ls) as [j'|] eqn:Elo; [|discriminate].
      injection H as <-. apply (reread_later Block Block); auto.
Qed.

Lemma kept_incl (ls : list text) :
  forall m l, In l (kept m ls) -> In l ls.
Proof.
  induction ls as [|x ls IH]; intros m l H; [destruct m; destruct H|].
  destruct m; cbn [kept] in H.
  - destruct (is_logger x); [right; eapply IH; eauto|].
    destruct (is_import x && opens_block x);
      (destruct H as [<- | H]; [now left | right; eapply IH; eauto]).
  - destruct (has_brace x);
      (destruct H as [<- | H]; [now left | right; eapply IH; eauto]).
Qed.

Lemma fixed_lines_one_line (content : text) :
  Forall one_line (fixed_lines content).
Proof.
  assert (HK : Forall one_line (kept Top (split_lines content))).
  { apply Forall_forall. intros l Hl. apply kept_incl in Hl.
    pose proof (split_lines_one_line content) as H.
    rewrite Forall_forall in H. now apply H. }
  unfold fixed_lines.
  destruct (removes Top (split_lines content) || _); [|exact HK].
  destruct (last_off Top (split_lines content)); [|exact HK].
  now apply insert_at_one_line.
Qed.

Lemma fixed_lines_again (content : text) :
  fixed_lines content <> [] ->
  fixed_lines (join_lines (fixed_lines content)) = fixed_lines content.
Proof.
  intros Hne.
  assert (Hsplit : split_lines (join_lines (fixed_lines content)) =
                   fixed_lines content)
    by (apply split_join; [exact Hne | apply fixed_lines_one_line]).
  unfold fixed_lines at 1. cbn zeta. rewrite Hsplit.
  unfold fixed_lines in *. cbn zeta in *.
  destruct (removes Top (split_lines content) ||
            negb (contains logger_import content)) eqn:Ec.
  - destruct (last_off Top (split_lines content)) as [j|] eqn:Elo.
    + destruct (kept_with_import _ Top j Elo) as [[H1 [H2 H3]] | [H1 H2]].
      * rewrite H1, H2, H3. reflexivity.
      * rewrite H1, H2.
        rewrite (contains_join logger_import logger_import_line)
          by (try apply insert_at_holds; vm_compute; reflexivity).
        reflexivity.
    + destruct (kept_stable (split_lines content) Top) as [S1 [S2 S3]].
      rewrite S1, S2, S3, Elo.
      now destruct (false || _).
  - apply orb_false_elim in Ec. destruct Ec as [Er Ec].
    pose proof (removes_false_kept _ Top Er) as EK.
    rewrite EK, join_split, Er, Ec. cbn [orb]. exact EK.
Qed.

(** Run on its own result, the rewriting gives the same content. *)
Lemma FI_new_content_again (content new : text) :
  FI.new_content content = Some new -> FI.new_content new = Some new.
Proof.
  rewrite FI_new_content_closed. intros [= <-].
  rewrite FI_new_content_closed. f_equal.
  destruct (fixed_lines content) as [|l ls] eqn:E.
  - vm_compute. reflexivity.
  - rewrite <- E. rewrite fixed_lines_again; [reflexivity|].
    rewrite E. discriminate.
Qed.

(** X18.  [fix_logger_import] is idempotent: after a call that returned, a
    second call on the same file returns [False] and leaves the files as
    the first call left them. *)
Theorem fix_imports_second_run_changes_nothing (fs fs' : filesystem)
  (path : text) (b : bool) :
  FI.fix_logger_import fs path = Returned (fs', b) ->
  FI.fix_logger_import fs' path = Returned (fs', false).
Proof.
  unfold FI.fix_logger_import at 1.
  destruct (fs path) as [content|] eqn:Efs; [|discriminate].
  destruct (contains (str "logger.") content) eqn:Eu; cbn [negb].
  2:{ intros [= <- <-]. unfold FI.fix_logger_import. now rewrite Efs, Eu. }
  destruct (FI.new_content content) as [new|] eqn:En; [|discriminate].
  destruct (text_eqb new content) eqn:Eq; cbn [negb].
  - intros [= <- <-]. unfold FI.fix_logger_import.
    now rewrite Efs, Eu, En, Eq.
  - intros [= <- <-]. unfold FI.fix_logger_import. rewrite write_same.
    destruct (contains (str "logger.") new); [|reflexivity]. cbn [negb].
    rewrite (FI_new_content_again _ _ En).
    assert (E : text_eqb new new = true) by now apply text_eqb_eq.
    now rewrite E.
Qed.

Lemma fix_imports_second_run_changes_nothing_witness :
  FI.fix_logger_import uses_logger_fs (str "src/b.ts") =
    Returned (write uses_logger_fs (str "src/b.ts")
                    (str "import { b } from './b';
import { logger } from '@/lib/logger';
logger.info(b);"), true) /\
  FI.fix_logger_import
    (write uses_logger_fs (str "src/b.ts")
           (str "import { b } from './b';
import { logger } from '@/lib/logger';
logger.info(b);")) (str "src/b.ts") =
    Returned (write uses_logger_fs (str "src/b.ts")
                    (str "import { b } from './b';
import { logger } from '@/lib/logger';
logger.info(b);"), false).
Proof.
  assert (E : FI.fix_logger_import uses_logger_fs (str "src/b.ts") =
    Returned (write uses_logger_fs (str "src/b.ts")
                    (str "import { b } from './b';
import { logger } from '@/lib/logger';
logger.info(b);"), true)) by (vm_compute; reflexivity).
  split; [exact E|].
  apply (fix_imports_second_run_changes_nothing _ _ _ _ E).
Defined.

(** ** Whether the result holds the logger import *)

Lemma last_off_top_set (ls : list text) :
  (exists l, In l ls /\ is_import l = true /\ is_logger l = false) ->
  last_off Top ls <> None.
Proof.
  induction ls as [|x ls IH]; intros [l [Hin [Hm Hl]]]; [destruct Hin|].
  cbn [last_off]. destruct (is_logger x) eqn:Ex.
  - apply IH. exists l. destruct Hin as [-> | Hin]; [congruence | auto].
  - destruct (is_import x) eqn:Em.
    + destruct (opens_block x).
      * destruct (last_off Block ls); discriminate.
      * destruct (last_off Top ls); discriminate.
    + assert (H : last_off Top ls <> None).
      { apply IH. exists l. destruct Hin as [-> | Hin]; [congruence | auto]. }
      destruct (last_off Top ls); [discriminate | now elim H].
Qed.

(** X19.  When a file has an import line that is not a logger import, the
    content that [fix-imports.py] computes for it holds the logger
    import. *)
Theorem other_import_keeps_logger_import (content new : text) :
  FI.new_content content = Some new ->
  (exists l, In l (split_lines content) /\ is_import l = true /\
             contains logger_import l = false) ->
  contains logger_import new = true.
Proof.
  rewrite FI_new_content_closed. intros [= <-] Hex.
  pose proof (last_off_top_set _ Hex) as Hlo. unfold fixed_lines.
  destruct (removes Top (split_lines content) ||
            negb (contains logger_import content)) eqn:Ec.
  - destruct (last_off Top (split_lines content)) as [j|]; [|now elim Hlo].
    apply contains_join with (l := logger_import_line).
    + apply insert_at_holds.
    + vm_compute. reflexivity.
  - apply orb_false_elim in Ec. destruct Ec as [Er Ec].
    rewrite (removes_false_kept _ Top Er), join_split.
    now apply negb_false_iff in Ec.
Qed.

Lemma other_import_keeps_logger_import_witness :
  contains logger_import (str "import { b } from './b';
import { logger } from '@/lib/logger';
logger.info(b);") = true.
Proof.
  apply (other_import_keeps_logger_import (str "import { b } from './b';
logger.info(b);")).
  - vm_compute. reflexivity.
  - exists (str "import { b } from './b';"). split; [now left|].
    split; vm_compute; reflexivity.
Defined.

Lemma FB_last_import_nonneg (lines : list text) :
  forall idxs init,
    (0 <= init)%Z \/
    (exists i, In i idxs /\ is_import (line_at lines i) = true) ->
    (0 <= FB.last_import lines idxs init)%Z.
Proof.
  induction idxs as [|i idxs IH]; intros init H; cbn [FB.last_import].
  - destruct H as [H | [i [[] _]]]. exact H.
  - destruct (is_import (line_at lines i)) eqn:Em.
    + destruct (opens_block (line_at lines i)).
      * destruct (FB.find_close lines (range (i + 1) (length lines)));
          apply IH; left; lia.
      * apply IH. left. lia.
    + apply IH. destruct H as [H | [k [[<- | Hk] Hm]]]; [now left | congruence|].
      right. now exists k.
Qed.

(** X20.  When a content uses the logger and has a line that starts an
    import, the insertion step of [fix-broken-imports.py] gives a content
    that holds the logger import. *)
Theorem add_import_gives_logger_import (content : text) :
  contains (str "logger.") content = true ->
  (exists l, In l (split_lines content) /\ is_import l = true) ->
  contains logger_import (FB.add_import content) = true.
Proof.
  intros Hu [l [Hin Hm]]. unfold FB.add_import. rewrite Hu.
  destruct (contains logger_import content) eqn:El; [exact El|].
  cbn [negb andb].
  assert (H : (0 <= FB.last_import (split_lines content)
                      (range 0 (length (split_lines content))) (-1))%Z).
  { apply FB_last_import_nonneg. right.
    apply In_nth with (d := []) in Hin. destruct Hin as [i [Hi E]].
    exists i. split; [apply range_bounds; lia|].
    unfold line_at. now rewrite E. }
  apply Z.leb_le in H. rewrite H.
  apply contains_join with (l := logger_import_line).
  - apply insert_at_holds.
  - vm_compute. reflexivity.
Qed.

Lemma add_import_gives_logger_import_witness :
  contains logger_import (FB.add_import (str "import { b } from './b';
logger.info(b);")) = true.
Proof.
  apply add_import_gives_logger_import.
  - vm_compute. reflexivity.
  - exists (str "import { b } from './b';"). split; [now left|].
    vm_compute. reflexivity.
Defined.

(** ** The substitutions only take text out *)

Lemma subseq_refl (s : text) : subseq s s.
Proof.
  induction s as [|a s IH]; [apply subseq_nil | now apply subseq_keep].
Qed.

Lemma subseq_nil_l (t : text) : subseq [] t.
Proof.
  induction t as [|a t IH]; [apply subseq_nil | now apply subseq_skip].
Qed.

Lemma subseq_app (a b c d : text) :
  subseq a b -> subseq c d -> subseq (a ++ c) (b ++ d).
Proof.
  induction 1 as [|x s t H IH|x s t H IH]; intros Hcd; simpl.
  - exact Hcd.
  - apply subseq_skip. now apply IH.
  - apply subseq_keep. now apply IH.
Qed.

Lemma subseq_trans (a b c : text) : subseq a b -> subseq b c -> subseq a c.
Proof.
  intros Hab Hbc. revert a Hab.
  induction Hbc as [|x b c Hbc IH|x b c Hbc IH]; intros a Hab.
  - exact Hab.
  - apply subseq_skip. now apply IH.
  - inversion Hab as [|y a' b' H|y a' b' H]; subst.
    + apply subseq_skip. now apply IH.
    + apply subseq_keep. now apply IH.
Qed.

Lemma subseq_length (s t : text) : subseq s t -> length s <= length t.
Proof. induction 1; simpl; lia. Qed.

Lemma rmatch_group_free (r : regex) :
  group_free r = true ->
  forall m q, In q (rmatch r m) -> grp q = grp m.
Proof.
  induction r as [l|c|c|c|r IH|r1 IH1 r2 IH2|r1 IH1 r2 IH2|r IH| | |];
    cbn [group_free]; intros Hg m q Hin; try discriminate.
  - apply rmatch_lit in Hin. now destruct Hin as [_ [_ H]].
  - cbn [rmatch] in Hin. destruct (rest m) as [|a s]; [destruct Hin|].
    destruct (c a); [|destruct Hin]. now destruct Hin as [<- | []].
  - apply rmatch_star in Hin. now destruct Hin as [w [_ [_ [_ H]]]].
  - apply rmatch_plus in Hin. now destruct Hin as [w [_ [_ [_ [_ H]]]]].
  - apply rmatch_opt in Hin. destruct Hin as [Hin | ->]; auto.
  - apply andb_prop in Hg. destruct Hg as [G1 G2].
    apply rmatch_seq in Hin. destruct Hin as [p [Hp Hq]].
    rewrite (IH2 G2 _ _ Hq). now apply IH1.
  - apply andb_prop in Hg. destruct Hg as [G1 G2].
    apply rmatch_alt in Hin. destruct Hin as [Hin | Hin]; auto.
  - apply rmatch_wordb in Hin. now destruct Hin as [-> _].
  - cbn [rmatch] in Hin. destruct (prev m); [destruct Hin|].
    now destruct Hin as [<- | []].
  - apply rmatch_eol in Hin. now destruct Hin as [-> _].
Qed.

Lemma sub_from_skip (r : regex) (repl : mstate -> text) :
  forall k s pv,
    k <= length s ->
    sub_from r repl k pv s =
    sub_from r repl 0 (prev_after pv (firstn k s)) (skipn k s).
Proof.
  induction k as [|k IH]; intros s pv H; [reflexivity|].
  destruct s as [|a s]; [simpl in H; lia|].
  cbn [sub_from firstn skipn]. rewrite IH by (simpl in H; lia).
  reflexivity.
Qed.

(** A substitution that puts, for each match, part of the match gives part
    of the text. *)
Lemma sub_from_subseq (r : regex) (repl : mstate -> text) :
  (forall pv s q qs,
      rmatch r (MState pv s None) = q :: qs ->
      exists w, s = w ++ rest q /\ w <> [] /\ subseq (repl q) w) ->
  forall n s pv, length s <= n -> subseq (sub_from r repl 0 pv s) s.
Proof.
  intros Hrepl. induction n as [|n IH]; intros s pv Hn.
  - destruct s; [|simpl in Hn; lia]. cbn [sub_from].
    destruct (rmatch r (MState pv [] None)) as [|q qs] eqn:E;
      [apply subseq_nil|].
    destruct (Hrepl _ _ _ _ E) as [w [Hs [Hw _]]].
    symmetry in Hs. apply app_eq_nil in Hs. destruct Hs. now elim Hw.
  - destruct s as [|a s].
    + cbn [sub_from].
      destruct (rmatch r (MState pv [] None)) as [|q qs] eqn:E;
        [apply subseq_nil|].
      destruct (Hrepl _ _ _ _ E) as [w [Hs [Hw _]]].
      symmetry in Hs. apply app_eq_nil in Hs. destruct Hs. now elim Hw.
    + cbn [sub_from].
      destruct (rmatch r (MState pv (a :: s) None)) as [|q qs] eqn:E.
      * apply subseq_keep. apply IH. simpl in Hn. lia.
      * destruct (Hrepl _ _ _ _ E) as [w [Hs [Hw Hsub]]].
        destruct w as [|b w]; [now elim Hw|].
        simpl in Hs. injection Hs as <- Hs.
        assert (Hlen : length s = length w + length (rest q))
          by (rewrite Hs at 1; apply length_app).
        replace (length (a :: s) - length (rest q)) with (S (length w))
          by (cbn [length]; lia).
        rewrite sub_from_skip by lia.
        assert (Hk : skipn (length w) s = rest q).
        { rewrite Hs at 1.
          rewrite skipn_app, Nat.sub_diag, skipn_all. reflexivity. }
        rewrite Hk.
        assert (Has : a :: s = (a :: w) ++ rest q)
          by (simpl; now rewrite <- Hs).
        rewrite Has.
        apply subseq_app; [exact Hsub|].
        apply IH. simpl in Hn. lia.
Qed.

(** What the two patterns match begins with group 1, and a line break
    follows in it. *)
Lemma FB_pattern_match (g : regex) (pv : option ascii) (s : text)
  (q : mstate) :
  group_free g = true ->
  In q (rmatch (Seq (Group g) (Seq (Star is_space)
                   (Seq (Lit [newline]) FB.stray_re)))
               (MState pv s None)) ->
  exists w, s = w ++ rest q /\ w <> [] /\ subseq (FB.keep_opening q) w.
Proof.
  intros Hg Hin.
  apply rmatch_seq in Hin. destruct Hin as [p1 [H1 Hin]].
  apply rmatch_seq in Hin. destruct Hin as [p2 [H2 Hin]].
  apply rmatch_seq in Hin. destruct Hin as [p3 [H3 Hin]].
  apply rmatch_group in H1. destruct H1 as [p [Hp ->]].
  destruct (rmatch_consumes _ _ _ Hp) as [w0 E0]. simpl in E0.
  apply rmatch_star in H2. destruct H2 as [ws [E2 [_ [_ G2]]]].
  apply rmatch_lit in H3. destruct H3 as [E3 [_ G3]].
  destruct (rmatch_consumes _ _ _ Hin) as [w' E4].
  assert (G4 : grp q = grp p3)
    by (apply (rmatch_group_free FB.stray_re); [reflexivity | exact Hin]).
  simpl in E2, G2, E3, G3.
  exists (w0 ++ ws ++ [newline] ++ w'). split; [|split].
  - rewrite E0, E2, E3, E4. now rewrite <- !app_assoc.
  - destruct w0; [|discriminate]. destruct ws; discriminate.
  - unfold FB.keep_opening, group1. rewrite G4, G3, G2.
    rewrite (consumed_app (MState pv s None) p w0) by exact E0.
    apply subseq_app; [apply subseq_refl|].
    replace [newline] with ([] ++ [newline] ++ []) at 1 by reflexivity.
    apply subseq_app; [apply subseq_nil_l|].
    apply subseq_app; [apply subseq_refl | apply subseq_nil_l].
Qed.

(** X21.  The two substitutions of [fix-broken-imports.py] only take text
    out: what they leave is the content with some characters removed, in
    the same order, and so it is never longer than the content. *)
Theorem unbreak_only_deletes (content : text) :
  subseq (FB.unbreak content) content /\
  length (FB.unbreak content) <= length content.
Proof.
  assert (H : subseq (FB.unbreak content) content).
  { unfold FB.unbreak, sub.
    apply subseq_trans
      with (b := sub_from FB.pattern1 FB.keep_opening 0 None content).
    - apply sub_from_subseq with (n := length
        (sub_from FB.pattern1 FB.keep_opening 0 None content)); [|lia].
      intros pv s q qs E. unfold FB.pattern2 in E.
      apply FB_pattern_match with (pv := pv)
        (g := (L "import" ;; Plus is_space ;; L "type" ;; Star is_space ;;
               L "{")%re); [reflexivity|].
      rewrite E. now left.
    - apply sub_from_subseq with (n := length content); [|lia].
      intros pv s q qs E. unfold FB.pattern1 in E.
      apply FB_pattern_match with (pv := pv)
        (g := (L "import" ;; Star is_space ;; L "{")%re); [reflexivity|].
      rewrite E. now left. }
  split; [exact H | now apply subseq_length].
Qed.
